(** * ESP32 dual-motor PID controller: shallow embedding and verification

    The sketch [ESP32_Dual_Motor_PID.ino] is embedded function by function.
    C [float] is IEEE-754 binary32, modelled bit-exactly by the Standard
    Library's [SpecFloat] operations at precision 24 and maximal exponent
    128 (round to nearest, ties to even); [int] and [long] are 32-bit
    two's-complement integers and [uint32_t] is a 32-bit unsigned integer,
    both carried by [Z] with the wrap-around written out. *)

From Stdlib Require Import QArith Qpower Qround.
From Stdlib Require Import ZArith Lia Bool List String Ascii SpecFloat.
From Stdlib Require Import Decimal DecimalString DecimalZ DecimalPos.
Import ListNotations.
Local Open Scope Z_scope.

(** ** Machine integers *)

Definition INT_MIN : Z := - 2 ^ 31.
Definition INT_MAX : Z := 2 ^ 31 - 1.

(** Wrap-around of a 32-bit signed value ([int], [long] on the ESP32). *)
Definition wrap32s (z : Z) : Z := (z + 2 ^ 31) mod 2 ^ 32 - 2 ^ 31.

(** Wrap-around of a 32-bit unsigned value ([uint32_t]). *)
Definition wrap32u (z : Z) : Z := z mod 2 ^ 32.

(** ** Binary32 arithmetic *)

Module F32.

Definition prec : Z := 24.
Definition emax : Z := 128.

Definition float : Set := spec_float.

Definition add : float -> float -> float := SFadd prec emax.
Definition sub : float -> float -> float := SFsub prec emax.
Definition mul : float -> float -> float := SFmul prec emax.
Definition div : float -> float -> float := SFdiv prec emax.
Definition neg : float -> float := SFopp.
Definition fabsf : float -> float := SFabs.

(** C comparisons; every comparison with a NaN operand is false. *)
Definition lt (x y : float) : bool := SFltb x y.
Definition le (x y : float) : bool := SFleb x y.
Definition gt (x y : float) : bool := SFltb y x.
Definition ge (x y : float) : bool := SFleb y x.

(** Conversion of an integer to [float], as in [(float)n]. *)
Definition of_int (n : Z) : float := binary_normalize prec emax n 0 false.

(** A decimal literal [n/d] with [n] and [d] exactly representable: the
    correctly rounded quotient is the binary32 nearest to the decimal. *)
Definition dec (n d : Z) : float := div (of_int n) (of_int d).

(** Magnitude of a finite float truncated toward zero. *)
Definition trunc_abs (m : positive) (e : Z) : Z :=
  match e with
  | Zneg k => Z.shiftr (Zpos m) (Zpos k)
  | _ => Z.shiftl (Zpos m) e
  end.

(** [(int)x]: truncation toward zero.  The conversion is undefined in C
    when [x] is a NaN, an infinity, or outside the range of [int]. *)
Definition to_int (x : float) : option Z :=
  match x with
  | S754_zero _ => Some 0
  | S754_finite s m e =>
      let a := trunc_abs m e in
      let z := if s then - a else a in
      if (INT_MIN <=? z) && (z <=? INT_MAX) then Some z else None
  | _ => None
  end.

Definition is_nan (x : float) : bool :=
  match x with S754_nan => true | _ => false end.

Definition is_finite (x : float) : bool :=
  match x with S754_zero _ | S754_finite _ _ _ => true | _ => false end.

End F32.

Definition float : Set := spec_float.

(** ** 2) PWM / control parameters *)

Definition PWM_BITS : Z := 10.
Definition PWM_MAX : Z := Z.shiftl 1 PWM_BITS - 1.
Definition SAMPLE_MS : Z := 50.
Definition MIN_DUTY_START : Z := 180.
Definition DUTY_MIN : Z := 0.
Definition DUTY_MAX : Z := PWM_MAX.

Definition Kp : float := F32.of_int 1.
Definition Ki : float := F32.dec 40 100.
Definition Kd : float := F32.dec 4 1000.

Definition Ts : float := F32.div (F32.of_int SAMPLE_MS) (F32.of_int 1000).
Definition I_MAX : float := F32.of_int 300.

Definition CMD_CLAMP : Z := 2000.

(** ** 4) Motor structure *)

(** The encoder counter a motor points to ([pCount]). *)
Inductive counter_ref := EncCount1 | EncCount2.

Record Motor := mkMotor {
  inA : Z; inB : Z; en : Z; ledc_ch : Z;
  pCount : counter_ref;
  lastCount : Z;
  target : float;
  speed : float;
  err : float;
  errPrev : float;
  integ : float;
  deriv : float;
  u : float;
  duty : Z;
  dir : Z
}.

(** Pin map *)
Definition ENA : Z := 17.
Definition IN1 : Z := 15.
Definition IN2 : Z := 16.
Definition ENB : Z := 39.
Definition IN3 : Z := 41.
Definition IN4 : Z := 40.
Definition LEDC_CH_A : Z := 0.
Definition LEDC_CH_B : Z := 1.

Definition fzero : float := F32.of_int 0.

(** Aggregate initialisation [Motor M{inA, inB, en, ch, &cnt}] with the
    default member initialisers. *)
Definition Motor_init (a b e ch : Z) (c : counter_ref) : Motor :=
  {| inA := a; inB := b; en := e; ledc_ch := ch; pCount := c;
     lastCount := 0;
     target := fzero; speed := fzero; err := fzero; errPrev := fzero;
     integ := fzero; deriv := fzero; u := fzero;
     duty := 0; dir := 1 |}.

Definition M1_init : Motor := Motor_init IN1 IN2 ENA LEDC_CH_A EncCount1.
Definition M2_init : Motor := Motor_init IN3 IN4 ENB LEDC_CH_B EncCount2.

Definition set_target (m : Motor) (t : float) : Motor :=
  {| inA := inA m; inB := inB m; en := en m; ledc_ch := ledc_ch m;
     pCount := pCount m; lastCount := lastCount m;
     target := t; speed := speed m; err := err m; errPrev := errPrev m;
     integ := integ m; deriv := deriv m; u := u m;
     duty := duty m; dir := dir m |}.

(** What one call of [applyMotor] writes to the motor's own pins: the two
    L298N direction inputs ([digitalWrite] on [inA], [inB]; [true] is HIGH)
    and the duty handed to [writeLEDC]. *)
Record Drive := mkDrive { pinA : bool; pinB : bool; pwm : Z }.

(** ** 9) Apply direction & duty to one motor *)

Definition applyMotor (m : Motor) : option (Motor * Drive) :=
  let d := if F32.ge (u m) (F32.of_int 0) then 1 else -1 in
  let mag := F32.fabsf (u m) in
  let duty' :=
    if F32.lt mag (F32.of_int 1) then Some 0
    else
      let mag := if F32.gt mag (F32.of_int PWM_MAX)
                 then F32.of_int PWM_MAX else mag in
      let dutyF :=
        F32.add (F32.of_int MIN_DUTY_START)
          (F32.div (F32.mul mag (F32.of_int (PWM_MAX - MIN_DUTY_START)))
                   (F32.of_int PWM_MAX)) in
      let dutyF := if F32.gt dutyF (F32.of_int PWM_MAX)
                   then F32.of_int PWM_MAX else dutyF in
      F32.to_int (F32.add dutyF (F32.dec 5 10)) in
  match duty' with
  | None => None
  | Some dt =>
      let m' :=
        {| inA := inA m; inB := inB m; en := en m; ledc_ch := ledc_ch m;
           pCount := pCount m; lastCount := lastCount m;
           target := target m; speed := speed m; err := err m;
           errPrev := errPrev m; integ := integ m; deriv := deriv m;
           u := u m; duty := dt; dir := d |} in
      let pins :=
        if dt =? 0 then mkDrive false false dt
        else if d >? 0 then mkDrive true false dt
        else mkDrive false true dt in
      Some (m', pins)
  end.

(** ** 10) PID step with anti-windup *)

Definition saturatingHigh (m : Motor) : bool :=
  (duty m >=? PWM_MAX) && F32.ge (u m) (F32.of_int PWM_MAX).

Definition saturatingLow (m : Motor) : bool :=
  (duty m >=? PWM_MAX) && F32.le (u m) (F32.of_int (- PWM_MAX)).

Definition clampI (x : float) : float :=
  let x := if F32.gt x I_MAX then I_MAX else x in
  if F32.lt x (F32.neg I_MAX) then F32.neg I_MAX else x.

(** Lines 208-237 of [pidStep]: the state just before it calls
    [applyMotor]. *)
Definition pid_update (m : Motor) : Motor :=
  let e := F32.sub (target m) (speed m) in
  let P := F32.mul Kp e in
  let satHi := saturatingHigh m in
  let satLo := saturatingLow m in
  let shouldIntegrate := true in
  let shouldIntegrate :=
    if satHi && F32.gt e (F32.of_int 0) then false else shouldIntegrate in
  let shouldIntegrate :=
    if satLo && F32.lt e (F32.of_int 0) then false else shouldIntegrate in
  let integ' :=
    if shouldIntegrate then clampI (F32.add (integ m) (F32.mul Ki e))
    else integ m in
  let deriv' := F32.mul Kd (F32.sub e (errPrev m)) in
  let u' := F32.add (F32.add P integ') deriv' in
  {| inA := inA m; inB := inB m; en := en m; ledc_ch := ledc_ch m;
     pCount := pCount m; lastCount := lastCount m;
     target := target m; speed := speed m; err := e;
     errPrev := e; integ := integ'; deriv := deriv'; u := u';
     duty := duty m; dir := dir m |}.

Definition pidStep (m : Motor) : option (Motor * Drive) :=
  applyMotor (pid_update m).

(** ** 11) Speed estimate: counts/s over Ts *)

Definition updateSpeed (cnt : Z) (m : Motor) : Motor :=
  let nowCnt := cnt in
  let delta := wrap32s (nowCnt - lastCount m) in
  {| inA := inA m; inB := inB m; en := en m; ledc_ch := ledc_ch m;
     pCount := pCount m; lastCount := nowCnt;
     target := target m; speed := F32.div (F32.of_int delta) Ts;
     err := err m; errPrev := errPrev m; integ := integ m;
     deriv := deriv m; u := u m; duty := duty m; dir := dir m |}.

(** ** 3) Encoder state, 5) motors and the pins they drive *)

Record Sys := mkSys {
  M1 : Motor;
  M2 : Motor;
  encCount1 : Z;
  encCount2 : Z;
  lastMs : Z;
  drive1 : Drive;
  drive2 : Drive
}.

Definition Sys_init : Sys :=
  {| M1 := M1_init; M2 := M2_init; encCount1 := 0; encCount2 := 0;
     lastMs := 0;
     drive1 := mkDrive false false 0; drive2 := mkDrive false false 0 |}.

Definition read_count (s : Sys) (c : counter_ref) : Z :=
  match c with
  | EncCount1 => encCount1 s
  | EncCount2 => encCount2 s
  end.

(** ** 6) ISRs: x4 quadrature decoding.  [a] and [b] are the levels read
    from the two phase pins. *)

Definition isrA (a b : bool) (cnt : Z) : Z :=
  if Bool.eqb a b then wrap32s (cnt + 1) else wrap32s (cnt - 1).

Definition isrB (a b : bool) (cnt : Z) : Z :=
  if Bool.eqb a b then wrap32s (cnt - 1) else wrap32s (cnt + 1).

Definition set_counts (s : Sys) (c1 c2 : Z) : Sys :=
  {| M1 := M1 s; M2 := M2 s; encCount1 := c1; encCount2 := c2;
     lastMs := lastMs s; drive1 := drive1 s; drive2 := drive2 s |}.

Definition isrA1 (a b : bool) (s : Sys) : Sys :=
  set_counts s (isrA a b (encCount1 s)) (encCount2 s).
Definition isrB1 (a b : bool) (s : Sys) : Sys :=
  set_counts s (isrB a b (encCount1 s)) (encCount2 s).
Definition isrA2 (a b : bool) (s : Sys) : Sys :=
  set_counts s (encCount1 s) (isrA a b (encCount2 s)).
Definition isrB2 (a b : bool) (s : Sys) : Sys :=
  set_counts s (encCount1 s) (isrB a b (encCount2 s)).

(** ** Text handling of the Arduino and C libraries used by the handlers *)

Definition isspace (c : ascii) : bool :=
  let n := N_of_ascii c in ((n =? 32) || ((9 <=? n) && (n <=? 13)))%N.

Definition isdigit (c : ascii) : bool :=
  let n := N_of_ascii c in ((48 <=? n) && (n <=? 57))%N.

Definition tolower (c : ascii) : ascii :=
  let n := N_of_ascii c in
  if ((65 <=? n) && (n <=? 90))%N then ascii_of_N (n + 32) else c.

Fixpoint ltrim (s : string) : string :=
  match s with
  | String c r => if isspace c then ltrim r else s
  | EmptyString => EmptyString
  end.

Fixpoint rev_append (s acc : string) : string :=
  match s with
  | String c r => rev_append r (String c acc)
  | EmptyString => acc
  end.

Definition rev_string (s : string) : string := rev_append s EmptyString.

(** [String::trim]: strip leading and trailing white space. *)
Definition trim (s : string) : string :=
  rev_string (ltrim (rev_string (ltrim s))).

(** [String::equalsIgnoreCase]. *)
Fixpoint equalsIgnoreCase (a b : string) : bool :=
  match a, b with
  | EmptyString, EmptyString => true
  | String x a', String y b' =>
      Ascii.eqb (tolower x) (tolower y) && equalsIgnoreCase a' b'
  | _, _ => false
  end.

(** Value of the leading decimal digits of [s] and the remaining text. *)
Fixpoint scan_digits (s : string) (acc : Z) : Z * string :=
  match s with
  | String c r =>
      if isdigit c
      then scan_digits r (10 * acc + (Z.of_N (N_of_ascii c) - 48))
      else (acc, s)
  | EmptyString => (acc, s)
  end.

(** Out-of-range conversions of [strtol] yield [LONG_MAX] or [LONG_MIN]. *)
Definition saturate32 (z : Z) : Z := Z.max INT_MIN (Z.min INT_MAX z).

(** One decimal integer as [strtol] and the [%d] directive read it: leading
    white space, an optional sign, at least one digit. *)
Definition scan_int (s : string) : option (Z * string) :=
  let s := ltrim s in
  let '(negative, s1) :=
    match s with
    | String "-"%char r => (true, r)
    | String "+"%char r => (false, r)
    | _ => (false, s)
    end in
  match s1 with
  | String c _ =>
      if isdigit c then
        let '(v, rest) := scan_digits s1 0 in
        Some (saturate32 (if negative then - v else v), rest)
      else None
  | EmptyString => None
  end.

(** [sscanf(s, "%d %d", &a, &b) == 2]: the two integers when both
    conversions succeed. *)
Definition sscanf_d_d (s : string) : option (Z * Z) :=
  match scan_int s with
  | None => None
  | Some (a, r) =>
      match scan_int (ltrim r) with
      | None => None
      | Some (b, _) => Some (a, b)
      end
  end.

(** [String::toInt], that is [atol]: 0 when no conversion can be made. *)
Definition toInt (s : string) : Z :=
  match scan_int s with
  | Some (v, _) => v
  | None => 0
  end.

(** The [constrain(amt, low, high)] macro. *)
Definition constrain (amt low high : Z) : Z :=
  if amt <? low then low else if amt >? high then high else amt.

(** ** Output of the handlers *)

Inductive Arg := AInt (z : Z) | AFloat (f : float).

Inductive Text :=
| Lit (s : string)
| Fmt (fmt : string) (args : list Arg)
| TelemetryJson (ltgt lcur rtgt rcur : float)
| INDEX_HTML.

Inductive Output :=
| SerialPrint (t : Text)
| HttpSend (code : Z) (ctype : string) (t : Text).

Definition set_targets (s : Sys) (l r : float) : Sys :=
  {| M1 := set_target (M1 s) l; M2 := set_target (M2 s) r;
     encCount1 := encCount1 s; encCount2 := encCount2 s;
     lastMs := lastMs s; drive1 := drive1 s; drive2 := drive2 s |}.

(** ** 12) Serial command helper.  [input] is [None] when
    [Serial.available()] is 0, otherwise the line read up to the newline. *)

Definition handleSerial (input : option string) (s : Sys) : Sys * list Output :=
  match input with
  | None => (s, [])
  | Some line =>
      let str := trim line in
      if (String.length str =? 0)%nat then (s, [])
      else if equalsIgnoreCase str "stop" then
        (set_targets s (F32.of_int 0) (F32.of_int 0),
         [SerialPrint (Lit "STOP command received")])
      else
        match sscanf_d_d str with
        | Some (spL, spR) =>
            (set_targets s (F32.of_int spL) (F32.of_int spR),
             [SerialPrint (Fmt "Serial CMD: L=%d R=%d\n" [AInt spL; AInt spR])])
        | None =>
            (s, [SerialPrint (Lit "Invalid format. Use: <left> <right> or stop")])
        end
  end.

(** ** 13) HTTP endpoints *)

Record Request := mkRequest { uri : string; args : list (string * string) }.

Definition hasArg (rq : Request) (name : string) : bool :=
  existsb (fun kv => String.eqb (fst kv) name) (args rq).

Definition arg (rq : Request) (name : string) : string :=
  match find (fun kv => String.eqb (fst kv) name) (args rq) with
  | Some kv => snd kv
  | None => EmptyString
  end.

Definition handleCmd (rq : Request) (s : Sys) : Sys * list Output :=
  if negb (hasArg rq "l") || negb (hasArg rq "r") then
    (s, [HttpSend 400 "text/plain" (Lit "Error: missing l or r parameter")])
  else
    let l := constrain (toInt (arg rq "l")) (- CMD_CLAMP) CMD_CLAMP in
    let r := constrain (toInt (arg rq "r")) (- CMD_CLAMP) CMD_CLAMP in
    (set_targets s (F32.of_int l) (F32.of_int r),
     [HttpSend 200 "text/plain" (Fmt "OK L=%d R=%d" [AInt l; AInt r]);
      SerialPrint (Fmt "OK L=%d R=%d" [AInt l; AInt r])]).

Definition handleStop (s : Sys) : Sys * list Output :=
  (set_targets s (F32.of_int 0) (F32.of_int 0),
   [HttpSend 200 "text/plain" (Lit "OK STOP");
    SerialPrint (Lit "Web STOP command")]).

Definition handleTelemetry (s : Sys) : Sys * list Output :=
  (s, [HttpSend 200 "application/json"
         (TelemetryJson (target (M1 s)) (speed (M1 s))
                        (target (M2 s)) (speed (M2 s)))]).

(** [server.handleClient()]: serve the pending request, if any, through the
    handler registered for its path. *)
Definition handleClient (req : option Request) (s : Sys) : Sys * list Output :=
  match req with
  | None => (s, [])
  | Some rq =>
      if String.eqb (uri rq) "/" then
        (s, [HttpSend 200 "text/html; charset=utf-8" INDEX_HTML])
      else if String.eqb (uri rq) "/cmd" then handleCmd rq s
      else if String.eqb (uri rq) "/stop" then handleStop s
      else if String.eqb (uri rq) "/telemetry" then handleTelemetry s
      else (s, [HttpSend 404 "text/plain" (Lit "Not found")])
  end.

(** ** 14) Arduino entry points *)

(** One pass of [loop()].  [now] is the value returned by [millis()], a
    [uint32_t]; [req] and [line] are the pending HTTP request and serial
    line.  The result is undefined when a float-to-int conversion in
    [applyMotor] is. *)
Definition loop (now : Z) (req : option Request) (line : option string)
                (s : Sys) : option (Sys * list Output) :=
  let '(s, o1) := handleClient req s in
  let '(s, o2) := handleSerial line s in
  if wrap32u (now - lastMs s) >=? SAMPLE_MS then
    let m1 := updateSpeed (read_count s (pCount (M1 s))) (M1 s) in
    let m2 := updateSpeed (read_count s (pCount (M2 s))) (M2 s) in
    match pidStep m1 with
    | None => None
    | Some (m1', d1) =>
        match pidStep m2 with
        | None => None
        | Some (m2', d2) =>
            Some ({| M1 := m1'; M2 := m2';
                     encCount1 := encCount1 s; encCount2 := encCount2 s;
                     lastMs := now; drive1 := d1; drive2 := d2 |},
                  o1 ++ o2 ++
                  [SerialPrint
                     (Fmt "[L] tgt=%6.1f cur=%6.1f err=%6.1f | u=%7.1f duty=%4d  ||  "
                        [AFloat (target m1'); AFloat (speed m1');
                         AFloat (err m1'); AFloat (u m1'); AInt (duty m1')]);
                   SerialPrint
                     (Fmt "[R] tgt=%6.1f cur=%6.1f err=%6.1f | u=%7.1f duty=%4d\n"
                        [AFloat (target m2'); AFloat (speed m2');
                         AFloat (err m2'); AFloat (u m2'); AInt (duty m2')])])
        end
    end
  else Some (s, o1 ++ o2).

(** ** Executions *)

(** What can happen to the running sketch: an encoder edge interrupt with
    the two phase levels it reads, or one pass of [loop()].  An interrupt
    may arrive in the middle of a pass; a pass reads each counter once, in
    [updateSpeed] with interrupts masked, and an interrupt touches nothing
    but its counter, so such an execution has the same effect as one where
    the interrupt is served before or after the pass. *)
Inductive Event :=
| EvIsrA1 (a b : bool)
| EvIsrB1 (a b : bool)
| EvIsrA2 (a b : bool)
| EvIsrB2 (a b : bool)
| EvLoop (now : Z) (req : option Request) (line : option string).

Definition step (ev : Event) (s : Sys) : option (Sys * list Output) :=
  match ev with
  | EvIsrA1 a b => Some (isrA1 a b s, [])
  | EvIsrB1 a b => Some (isrB1 a b s, [])
  | EvIsrA2 a b => Some (isrA2 a b s, [])
  | EvIsrB2 a b => Some (isrB2 a b s, [])
  | EvLoop now req line => loop now req line s
  end.

Fixpoint run (evs : list Event) (s : Sys) : option Sys :=
  match evs with
  | [] => Some s
  | ev :: rest =>
      match step ev s with
      | None => None
      | Some (s', _) => run rest s'
      end
  end.

(** * Hardware configuration: 1) pin map, 7) LEDC wrappers, 8) GPIO and
    PWM setup

    The calls the sketch makes to the Arduino core are recorded as a list
    of operations. *)

Definition ENC_A1 : Z := 11.
Definition ENC_B1 : Z := 10.
Definition ENC_A2 : Z := 35.
Definition ENC_B2 : Z := 36.
Definition PWM_FREQ : Z := 5000.

Inductive PinMode := OUTPUT | INPUT_PULLUP.

(** The four interrupt service routines. *)
Inductive Isr := IsrA1 | IsrB1 | IsrA2 | IsrB2.

Inductive HwOp :=
| OpPinMode (pin : Z) (mode : PinMode)
| OpAttachInterruptChange (pin : Z) (isr : Isr)
| OpLedcAttach (pin freq resolution : Z)
| OpLedcSetup (channel freq resolution : Z)
| OpLedcAttachPin (pin channel : Z)
| OpDigitalWrite (pin : Z) (level : bool)
| OpLedcWrite (pin_or_channel duty : Z).

(** [setupLEDC]; [core3] tells whether the sketch is compiled against the
    Arduino core 3.x or later, which replaced [ledcSetup] and
    [ledcAttachPin] by [ledcAttach]. *)
Definition setupLEDC (core3 : bool) (pin channel freq resolution : Z) : list HwOp :=
  if core3 then [OpLedcAttach pin freq resolution]
  else [OpLedcSetup channel freq resolution; OpLedcAttachPin pin channel].

(** [writeLEDC]: the new API writes to the pin, the legacy one to the
    channel. *)
Definition writeLEDC (core3 : bool) (channel pin duty : Z) : HwOp :=
  if core3 then OpLedcWrite pin duty else OpLedcWrite channel duty.

(** The hardware calls of [setupPins], in order. *)
Definition setupPins (core3 : bool) (s : Sys) : list HwOp :=
  [OpPinMode (inA (M1 s)) OUTPUT; OpPinMode (inB (M1 s)) OUTPUT;
   OpPinMode (inA (M2 s)) OUTPUT; OpPinMode (inB (M2 s)) OUTPUT;
   OpPinMode (en (M1 s)) OUTPUT; OpPinMode (en (M2 s)) OUTPUT;
   OpPinMode ENC_A1 INPUT_PULLUP; OpPinMode ENC_B1 INPUT_PULLUP;
   OpPinMode ENC_A2 INPUT_PULLUP; OpPinMode ENC_B2 INPUT_PULLUP;
   OpAttachInterruptChange ENC_A1 IsrA1; OpAttachInterruptChange ENC_B1 IsrB1;
   OpAttachInterruptChange ENC_A2 IsrA2; OpAttachInterruptChange ENC_B2 IsrB2]
  ++ setupLEDC core3 (en (M1 s)) LEDC_CH_A PWM_FREQ PWM_BITS
  ++ setupLEDC core3 (en (M2 s)) LEDC_CH_B PWM_FREQ PWM_BITS.

(** What [setup()] does to the controller state and to the pins: the
    hardware calls of [setupPins], then both targets set to 0.  (Its serial
    banner and the start of the access point and of the HTTP server are
    left out.) *)
Definition setup (core3 : bool) (s : Sys) : Sys * list HwOp :=
  (set_targets s (F32.of_int 0) (F32.of_int 0), setupPins core3 s).

(** The hardware calls that end [applyMotor], lines 188-203: the two
    direction pins, then the PWM through [writeLEDC]. *)
Definition motor_writes (core3 : bool) (m : Motor) (d : Drive) : list HwOp :=
  [OpDigitalWrite (inA m) (pinA d); OpDigitalWrite (inB m) (pinB d);
   writeLEDC core3 (ledc_ch m) (en m) (pwm d)].

Definition is_output_mode (cfg : list HwOp) (pin : Z) : bool :=
  existsb (fun op => match op with
                     | OpPinMode p OUTPUT => p =? pin
                     | _ => false
                     end) cfg.

(** The pins attached to [channel] with the legacy API. *)
Definition pins_of_channel (cfg : list HwOp) (channel : Z) : list Z :=
  flat_map (fun op => match op with
                      | OpLedcAttachPin p c => if c =? channel then [p] else []
                      | _ => []
                      end) cfg.

(** What a PWM write addressed to [tgt] reaches under the configuration
    [cfg]: the pins whose PWM it sets and the resolution in bits.  With
    the new API [tgt] is a pin attached by [ledcAttach]; with the legacy
    API it is a channel set up by [ledcSetup], and the write reaches every
    pin attached to that channel. *)
Definition ledc_reach (cfg : list HwOp) (tgt : Z) : option (list Z * Z) :=
  match find (fun op => match op with
                        | OpLedcAttach p _ _ => p =? tgt
                        | OpLedcSetup c _ _ => c =? tgt
                        | _ => false
                        end) cfg with
  | Some (OpLedcAttach p _ r) => Some ([p], r)
  | Some (OpLedcSetup c _ r) => Some (pins_of_channel cfg c, r)
  | _ => None
  end.

(** A write made for motor [m] is prepared by the configuration [cfg]: a
    digital write goes to a pin declared as output; a PWM write reaches the
    enable pin of [m] and no other pin, with a duty that fits the
    resolution set up for it. *)
Definition write_prepared (cfg : list HwOp) (m : Motor) (op : HwOp) : bool :=
  match op with
  | OpDigitalWrite pin _ => is_output_mode cfg pin
  | OpLedcWrite tgt duty =>
      match ledc_reach cfg tgt with
      | Some ([p], r) => (p =? en m) && (0 <=? duty) && (duty <? 2 ^ r)
      | _ => false
      end
  | _ => true
  end.

(** The wiring of a motor: its pins, its PWM channel and its counter. *)
Definition wiring (m : Motor) : Z * Z * Z * Z * counter_ref :=
  (inA m, inB m, en m, ledc_ch m, pCount m).

(** * The web page and decimal text *)

(** The decimal text of an integer, as [%d] prints it and as the page's
    script writes the value of a slider into a URL. *)
Definition decimal (z : Z) : string := NilZero.string_of_int (Z.to_int z).

(** The text does not begin with a decimal digit. *)
Definition starts_nondigit (s : string) : bool :=
  match s with
  | String c _ => negb (isdigit c)
  | EmptyString => true
  end.

(** [sendCmd()] of the page served at "/" (web_ui.h): the request
    [/cmd?l=${l}&r=${r}] for the values [l] and [r] of the two sliders. *)
Definition sendCmd (l r : Z) : Request :=
  mkRequest "/cmd" [("l"%string, decimal l); ("r"%string, decimal r)].

(** * Specification-level definitions, following the wording of the spec *)

(** section 4.3 step 3: the saturation tests compare the previous duty with
    DUTY_MAX by equality. *)
Definition spec_saturating_high (m : Motor) : bool :=
  (duty m =? DUTY_MAX) && F32.ge (u m) (F32.of_int DUTY_MAX).

Definition spec_saturating_low (m : Motor) : bool :=
  (duty m =? DUTY_MAX) && F32.le (u m) (F32.of_int (- DUTY_MAX)).

(** section 4.3 step 4: when integration is skipped. *)
Definition spec_skip (m : Motor) (e : float) : bool :=
  (spec_saturating_high m && F32.gt e (F32.of_int 0)) ||
  (spec_saturating_low m && F32.lt e (F32.of_int 0)).

(** Clamping [x] to the interval [lo, hi]. *)
Definition spec_clamp (lo hi x : float) : float :=
  if F32.lt x lo then lo else if F32.gt x hi then hi else x.

(** section 4.3 steps 1 and 4: the integral after one step. *)
Definition spec_integral (m : Motor) : float :=
  let e := F32.sub (target m) (speed m) in
  if spec_skip m e then integ m
  else spec_clamp (F32.neg I_MAX) I_MAX (F32.add (integ m) (F32.mul Ki e)).

(** [-I_MAX <= x <= I_MAX]. *)
Definition integral_in_range (x : float) : bool :=
  F32.le (F32.neg I_MAX) x && F32.le x I_MAX.

(** section 4.3 steps 1 to 6: the state handed to the Actuation Mapper. *)
Definition spec_pid (m : Motor) : Motor :=
  let e := F32.sub (target m) (speed m) in
  let P := F32.mul Kp e in
  let D := F32.mul Kd (F32.sub e (errPrev m)) in
  let I := spec_integral m in
  {| inA := inA m; inB := inB m; en := en m; ledc_ch := ledc_ch m;
     pCount := pCount m; lastCount := lastCount m;
     target := target m; speed := speed m; err := e; errPrev := e;
     integ := I; deriv := D; u := F32.add (F32.add P I) D;
     duty := duty m; dir := dir m |}.

(** section 4.4: the nearest integer to a non-negative float, halves upward. *)
Definition round_half_up (x : float) : Z :=
  match x with
  | S754_finite false m e =>
      if 0 <=? e then Zpos m * 2 ^ e
      else (2 * Zpos m + 2 ^ (- e)) / 2 ^ (1 - e)
  | _ => 0
  end.

(** section 4.4: the smaller of the magnitude and DUTY_MAX. *)
Definition spec_min_mag (mag : float) : float :=
  if F32.lt (F32.of_int DUTY_MAX) mag then F32.of_int DUTY_MAX else mag.

(** section 4.4: the duty outside the dead zone,
    [round(MIN_DUTY_START + magnitude * (DUTY_MAX - MIN_DUTY_START) / DUTY_MAX)],
    read in binary32: the product, the quotient and the sum are each rounded
    to the nearest float before the sum is rounded to an integer. *)
Definition spec_duty (mag : float) : Z :=
  round_half_up
    (F32.add (F32.of_int MIN_DUTY_START)
       (F32.div (F32.mul (spec_min_mag mag)
                         (F32.of_int (DUTY_MAX - MIN_DUTY_START)))
                (F32.of_int DUTY_MAX))).

(** The rational number a finite float stands for, [m * 2^e] with its sign. *)
Definition Q_of_float (x : float) : Q :=
  match x with
  | S754_finite s m e => (inject_Z (cond_Zopp s (Zpos m)) * Qpower 2 e)%Q
  | _ => 0%Q
  end.

(** section 4.4 in exact arithmetic: the smaller of the magnitude and
    DUTY_MAX, as a rational. *)
Definition exact_min_mag (mag : float) : Q :=
  if F32.lt (F32.of_int DUTY_MAX) mag then inject_Z DUTY_MAX else Q_of_float mag.

(** section 4.4 in exact arithmetic: the value
    [MIN_DUTY_START + magnitude * (DUTY_MAX - MIN_DUTY_START) / DUTY_MAX],
    with no intermediate rounding. *)
Definition exact_dutyF (mag : float) : Q :=
  (inject_Z MIN_DUTY_START +
   exact_min_mag mag * inject_Z (DUTY_MAX - MIN_DUTY_START) / inject_Z DUTY_MAX)%Q.

(** section 4.4 in exact arithmetic: that value rounded to the nearest
    integer, halves upward. *)
Definition spec_duty_exact (mag : float) : Z :=
  Qfloor (exact_dutyF mag + (1 # 2))%Q.

(** Two motors agree on every field but [target]. *)
Definition same_but_target (m m' : Motor) : Prop :=
  inA m' = inA m /\ inB m' = inB m /\ en m' = en m /\ ledc_ch m' = ledc_ch m /\
  pCount m' = pCount m /\ lastCount m' = lastCount m /\ speed m' = speed m /\
  err m' = err m /\ errPrev m' = errPrev m /\ integ m' = integ m /\
  deriv m' = deriv m /\ u m' = u m /\ duty m' = duty m /\ dir m' = dir m.

(** What a stop command may change in the system: both targets become 0
    and nothing else moves. *)
Definition stop_effect (s s' : Sys) : Prop :=
  target (M1 s') = F32.of_int 0 /\ target (M2 s') = F32.of_int 0 /\
  same_but_target (M1 s) (M1 s') /\ same_but_target (M2 s) (M2 s') /\
  encCount1 s' = encCount1 s /\ encCount2 s' = encCount2 s /\
  lastMs s' = lastMs s /\ drive1 s' = drive1 s /\ drive2 s' = drive2 s.

(** One channel's share of a tick, with the code's own stages: Speed
    Estimator on the counter the motor points to, then the PID computation,
    then the Actuation Mapper. *)
Definition channel_tick (s : Sys) (m : Motor) : option (Motor * Drive) :=
  applyMotor (pid_update (updateSpeed (read_count s (pCount m)) m)).


(** * Rounding theory: definitions

    The integers below describe what the binary32 operations compute. *)

(** A shift record locates the rational A/B: its mantissa is the integer
    part and the round and sticky bits place the remainder against B/2. *)
Definition located (mrs : shr_record) (A B : Z) : Prop :=
  exists rho,
    A = shr_m mrs * B + rho /\ 0 <= rho < B /\
    shr_r mrs = (B <=? 2 * rho) /\
    shr_s mrs = negb ((rho =? 0) || (2 * rho =? B)).

(** Round-to-nearest-even of the rational A/B. *)
Definition rnq (A B : Z) : Z :=
  let m := A / B in
  match 2 * (A mod B) ?= B with
  | Lt => m
  | Eq => if Z.even m then m else m + 1
  | Gt => m + 1
  end.

(** The float a rounded mantissa [mant] at exponent [t] stands for. *)
Definition result_of (s : bool) (mant t : Z) : spec_float :=
  match mant with
  | Z0 => S754_zero s
  | Zpos p => if t <=? F32.emax - F32.prec then S754_finite s p t else S754_infinity s
  | Zneg _ => S754_nan
  end.

(** The float [f] with its sign replaced by [s]. *)
Definition with_sign (s : bool) (f : spec_float) : spec_float :=
  match f with
  | S754_zero _ => S754_zero s
  | S754_infinity _ => S754_infinity s
  | S754_finite _ m e => S754_finite s m e
  | S754_nan => S754_nan
  end.

(** Non-negative, valid, not a NaN. *)
Definition nnv (f : spec_float) : bool :=
  match f with
  | S754_zero s => negb s
  | S754_infinity s => negb s
  | S754_finite s m e => negb s && bounded F32.prec F32.emax m e
  | S754_nan => false
  end.

(** Order-preserving integer key of a non-negative float, in units of
    2^-149; the infinity sits just above the largest finite float. *)
Definition key (f : spec_float) : Z :=
  match f with
  | S754_zero _ => 0
  | S754_finite _ m e => Zpos m * 2 ^ (e + 149)
  | S754_infinity _ => 2 ^ 277
  | S754_nan => 0
  end.

(** The integer the cast produces from a non-negative float of key [k]. *)
Definition key_floor (k : Z) : Z := k / 2 ^ 149.

(** Positive, finite and valid. *)
Definition posfin (f : spec_float) : bool :=
  match f with
  | S754_finite false m e => bounded F32.prec F32.emax m e
  | _ => false
  end.

(** Positive, valid and normal (a full 24-bit mantissa). *)
Definition posnorm (f : spec_float) : bool :=
  match f with
  | S754_finite false m e => bounded F32.prec F32.emax m e && (2 ^ 23 <=? Zpos m)
  | _ => false
  end.

(** [x] is positive and finite and lies between [lo] and [hi]. *)
Definition between (lo hi x : float) : Prop :=
  posfin x = true /\ key lo <= key x <= key hi.

(** A float the program can hold as a number: a well-formed binary32 value
    that is not a NaN. *)
Definition is_number (x : float) : bool :=
  valid_binary F32.prec F32.emax x && negb (F32.is_nan x).

(** [x] is a number of magnitude at most [2^k]. *)
Definition mag_le (x : float) (k : Z) : Prop :=
  is_number x = true /\ key x <= 2 ^ (k + 149).

(** * The duty computation, stage by stage *)

(** The constants of [applyMotor], as floats. *)
Definition f_one : float := F32.of_int 1.
Definition f_max : float := F32.of_int PWM_MAX.
Definition f_span : float := F32.of_int (PWM_MAX - MIN_DUTY_START).
Definition f_min_start : float := F32.of_int MIN_DUTY_START.
Definition f_half : float := F32.dec 5 10.

(** The duty computation of [applyMotor] outside the dead zone, stage by
    stage, as a function of the magnitude. *)
Definition clampMag (mag : float) : float :=
  if F32.gt mag f_max then f_max else mag.

Definition dutyF_raw (mag : float) : float :=
  F32.add f_min_start (F32.div (F32.mul mag f_span) f_max).

Definition clampDutyF (dutyF : float) : float :=
  if F32.gt dutyF f_max then f_max else dutyF.

(** The duty of [applyMotor] as a function of the magnitude [fabsf(u)]. *)
Definition duty_of_mag (mag : float) : option Z :=
  if F32.lt mag f_one then Some 0
  else F32.to_int (F32.add (clampDutyF (dutyF_raw (clampMag mag))) f_half).

(** The float of the integer [j] is exact, and the binary32 value of
    [dutyF] at [j] lies within a sixteenth of a count of the exact value
    [(180 * 1023 + 843 * j) / 1023]; both sides are scaled by [1023 * 2^149]. *)
Definition grid_ok (j : Z) : bool :=
  posfin (F32.of_int j) && (key (F32.of_int j) =? j * 2 ^ 149) &&
  (Z.abs (1023 * key (dutyF_raw (F32.of_int j)) - (180 * 1023 + 843 * j) * 2 ^ 149)
     <=? 1023 * 2 ^ 145).

(** * Invariants of the running system: definitions *)

(** What holds of a motor in every reachable state: the duty and the
    integral are within their bounds and every float the next step reads is
    a number of bounded magnitude. *)
Definition motor_ok (m : Motor) : Prop :=
  0 <= duty m <= DUTY_MAX /\
  is_number (integ m) = true /\ integral_in_range (integ m) = true /\
  mag_le (target m) 31 /\ mag_le (errPrev m) 37 /\ is_number (u m) = true.

(** Both channels satisfy the invariant. *)
Definition sys_ok (s : Sys) : Prop := motor_ok (M1 s) /\ motor_ok (M2 s).

(** * Concrete states used to exercise the theorems *)

(** Channel 1 at rest with a target of 1000 counts/s. *)
Definition rest_1000 : Motor := set_target M1_init (F32.of_int 1000).

(** The outcome of a step, with a default for an undefined one. *)
Definition step_or (r : option (Motor * Drive)) : Motor * Drive :=
  match r with
  | Some md => md
  | None => (M1_init, mkDrive false false 0)
  end.

(** The state after the first step from rest: saturated at full duty. *)
Definition sat_state : Motor := Eval vm_compute in fst (step_or (pidStep rest_1000)).

(** The next two steps with the target still at 1000 and a silent encoder. *)
Definition sat_step2 : Motor * Drive := Eval vm_compute in step_or (pidStep sat_state).

Definition sat_input3 : Motor :=
  Eval vm_compute in updateSpeed 0 (set_target (fst sat_step2) (F32.of_int 1000)).

Definition sat_step3 : Motor * Drive := Eval vm_compute in step_or (pidStep sat_input3).

(** A motor whose effort is 1304, as in the first step of scenario 2. *)
Definition effort_1304 : Motor := Eval vm_compute in pid_update rest_1000.

(** A motor whose effort -0.5 lies in the dead zone. *)
Definition effort_half : Motor :=
  Eval vm_compute in
    {| inA := IN1; inB := IN2; en := ENA; ledc_ch := LEDC_CH_A;
       pCount := EncCount1; lastCount := 0;
       target := fzero; speed := fzero; err := fzero; errPrev := fzero;
       integ := fzero; deriv := fzero; u := F32.neg (F32.dec 5 10);
       duty := 0; dir := 1 |}.

(** A motor whose effort is -5. *)
Definition effort_neg5 : Motor :=
  Eval vm_compute in
    {| inA := IN1; inB := IN2; en := ENA; ledc_ch := LEDC_CH_A;
       pCount := EncCount1; lastCount := 0;
       target := fzero; speed := fzero; err := fzero; errPrev := fzero;
       integ := fzero; deriv := fzero; u := F32.of_int (-5);
       duty := 0; dir := 1 |}.

(** The outcomes of the Actuation Mapper on the efforts -5 and 1304. *)
Definition applied_neg5 : Motor * Drive := Eval vm_compute in step_or (applyMotor effort_neg5).

Definition applied_1304 : Motor * Drive := Eval vm_compute in step_or (applyMotor effort_1304).

(** A system running at targets (1500, -1500). *)
Definition running_1500 : Sys :=
  set_targets Sys_init (F32.of_int 1500) (F32.of_int (-1500)).

(** Three passes of [loop], 50 ms apart, with silent encoders: the page
    asks for a left target of 1000, then 182, then 186. *)
Definition near_tie_run : list Event :=
  [EvLoop 50 (Some (mkRequest "/cmd" [("l", "1000"); ("r", "0")]%string)) None;
   EvLoop 100 (Some (mkRequest "/cmd" [("l", "182"); ("r", "0")]%string)) None;
   EvLoop 150 (Some (mkRequest "/cmd" [("l", "186"); ("r", "0")]%string)) None].

(** The state that run ends in: the left effort is 15925772 * 2^-15, about
    486.016. *)
Definition near_tie_state : Sys :=
  Eval vm_compute in
    match run near_tie_run Sys_init with Some s => s | None => Sys_init end.

(** * Further definitions used to state properties *)

(** The motor with its effort replaced by [x]. *)
Definition set_u (m : Motor) (x : float) : Motor :=
  {| inA := inA m; inB := inB m; en := en m; ledc_ch := ledc_ch m;
     pCount := pCount m; lastCount := lastCount m;
     target := target m; speed := speed m; err := err m; errPrev := errPrev m;
     integ := integ m; deriv := deriv m; u := x;
     duty := duty m; dir := dir m |}.

(** A channel stalled after a stop: target and speed 0, no previous error,
    the integral still at its upper bound and the duty that of an effort
    equal to it. *)
Definition stalled_after_stop : Motor :=
  Eval vm_compute in
    {| inA := IN1; inB := IN2; en := ENA; ledc_ch := LEDC_CH_A;
       pCount := EncCount1; lastCount := 0;
       target := fzero; speed := fzero; err := fzero; errPrev := fzero;
       integ := I_MAX; deriv := fzero; u := I_MAX;
       duty := 427; dir := 1 |}.

(** A /cmd request whose arguments carry text after the digits. *)
Definition cmd_with_trailing_text : Request :=
  mkRequest "/cmd" [("l", "120abc"); ("r", "-7.5")]%string.

(** Nothing but the two targets differs between [s] and [s']. *)
Definition only_targets_differ (s s' : Sys) : Prop :=
  same_but_target (M1 s) (M1 s') /\ same_but_target (M2 s) (M2 s') /\
  encCount1 s' = encCount1 s /\ encCount2 s' = encCount2 s /\
  lastMs s' = lastMs s /\ drive1 s' = drive1 s /\ drive2 s' = drive2 s.

(** Lines 188-203 of [applyMotor] as a function of the state they read:
    what the direction pins and the PWM are given for a duty and a
    direction. *)
Definition drive_of (m : Motor) : Drive :=
  if duty m =? 0 then mkDrive false false (duty m)
  else if dir m >? 0 then mkDrive true false (duty m)
  else mkDrive false true (duty m).

(** The effect of an event on the two encoder counters, were it the only
    code to write them. *)
Definition isr_effect (c : Z * Z) (ev : Event) : Z * Z :=
  match ev with
  | EvIsrA1 a b => (isrA a b (fst c), snd c)
  | EvIsrB1 a b => (isrB a b (fst c), snd c)
  | EvIsrA2 a b => (fst c, isrA a b (snd c))
  | EvIsrB2 a b => (fst c, isrB a b (snd c))
  | EvLoop _ _ _ => c
  end.

(** The two phases of a quadrature encoder. *)
Inductive Phase := PhaseA | PhaseB.

(** The phase whose level changes next when the shaft turns in the sense
    [fwd] from the levels (a, b); forward is the Gray-code order
    00, 01, 11, 10 of (A, B). *)
Definition next_phase (fwd a b : bool) : Phase :=
  if Bool.eqb (Bool.eqb a b) fwd then PhaseB else PhaseA.

(** The interrupt raised by an edge on phase [ph] of the encoder behind
    counter [c]; the routine reads the levels present after the edge. *)
Definition edge_event (c : counter_ref) (ph : Phase) (a b : bool) : Event :=
  match c, ph with
  | EncCount1, PhaseA => EvIsrA1 a b
  | EncCount1, PhaseB => EvIsrB1 a b
  | EncCount2, PhaseA => EvIsrA2 a b
  | EncCount2, PhaseB => EvIsrB2 a b
  end.

(** The interrupts raised by [n] successive edges of one encoder turning
    in one sense from the levels (a, b). *)
Fixpoint rotation (c : counter_ref) (fwd : bool) (n : nat) (a b : bool)
  : list Event :=
  match n with
  | O => []
  | S k =>
      match next_phase fwd a b with
      | PhaseA => edge_event c PhaseA (negb a) b :: rotation c fwd k (negb a) b
      | PhaseB => edge_event c PhaseB a (negb b) :: rotation c fwd k a (negb b)
      end
  end.

(** The levels of the two phases after such a rotation. *)
Fixpoint levels_after (fwd : bool) (n : nat) (a b : bool) : bool * bool :=
  match n with
  | O => (a, b)
  | S k =>
      match next_phase fwd a b with
      | PhaseA => levels_after fwd k (negb a) b
      | PhaseB => levels_after fwd k a (negb b)
      end
  end.

(** The system with one counter moved by [d]. *)
Definition count_moved (c : counter_ref) (d : Z) (s : Sys) : Sys :=
  match c with
  | EncCount1 => set_counts s (encCount1 s + d) (encCount2 s)
  | EncCount2 => set_counts s (encCount1 s) (encCount2 s + d)
  end.

(** A serial line that asks for no motion: blank, a stop directive, or
    text the parser rejects. *)
Definition line_asks_no_motion (l : string) : bool :=
  (String.length (trim l) =? 0)%nat || equalsIgnoreCase (trim l) "stop" ||
  match sscanf_d_d (trim l) with None => true | Some _ => false end.

(** A pass of [loop()] whose commands, if any, ask for no motion: any
    request but a complete /cmd, any line but one carrying two integers. *)
Definition quiet (ev : Event) : bool :=
  match ev with
  | EvLoop _ req line =>
      match req with
      | Some rq => negb (String.eqb (uri rq) "/cmd") ||
                   negb (hasArg rq "l") || negb (hasArg rq "r")
      | None => true
      end &&
      match line with
      | Some l => line_asks_no_motion l
      | None => true
      end
  | _ => false
  end.

(** An event that brings no serial line. *)
Definition no_serial_line (ev : Event) : bool :=
  match ev with
  | EvLoop _ _ (Some _) => false
  | _ => true
  end.

(** The target is an integer setpoint within the safety bound. *)
Definition target_within_clamp (m : Motor) : Prop :=
  exists t, target m = F32.of_int t /\ - CMD_CLAMP <= t <= CMD_CLAMP.

(** What the pins of a channel show of its state: they are the function
    [drive_of] of the motor, and the duty is 0 or above MIN_DUTY_START. *)
Definition channel_out_ok (m : Motor) (d : Drive) : Prop :=
  d = drive_of m /\ (duty m = 0 \/ MIN_DUTY_START < duty m <= PWM_MAX).

(** A clock reading that is a [uint32_t]. *)
Definition well_timed (ev : Event) : bool :=
  match ev with
  | EvLoop now _ _ => (0 <=? now) && (now <? 2 ^ 32)
  | _ => true
  end.

(** Four edges of encoder 1 turning forward from the levels (0, 0), then a
    pass of [loop()] at 60 ms carrying an HTTP command. *)
Definition turn_then_command : list Event :=
  rotation EncCount1 true 4 false false ++
  [EvLoop 60 (Some (mkRequest "/cmd" [("l", "5000"); ("r", "-120")]%string)) None].

(** Passes of [loop()] that bring a stop request, a telemetry request, a
    blank line and a line the parser rejects. *)
Definition quiet_passes : list Event :=
  [EvLoop 10 (Some (mkRequest "/stop" [])) None;
   EvLoop 60 (Some (mkRequest "/telemetry" [])) (Some "   "%string);
   EvLoop 130 None (Some "go faster"%string);
   EvLoop 200 (Some (mkRequest "/cmd" [("l", "100")]%string)) (Some "Stop"%string)].

(** Both channels as they are before any command or motion: the initial
    motor records, silent counters and released pins. *)
Definition at_rest (s : Sys) : Prop :=
  M1 s = M1_init /\ M2 s = M2_init /\ encCount1 s = 0 /\ encCount2 s = 0 /\
  drive1 s = mkDrive false false 0 /\ drive2 s = mkDrive false false 0.

(** A pass of [loop()] a few milliseconds before the millisecond clock
    wraps around. *)
Definition pass_before_rollover : list Event :=
  [EvLoop (2 ^ 32 - 6) None None].

(** The channel is settled: its duty, its direction and its pins are what
    the Actuation Mapper makes of its effort, and its previous error is its
    error. *)
Definition settled (m : Motor) (d : Drive) : Prop :=
  applyMotor m = Some (m, d) /\ errPrev m = err m.

(** Every float of the motor record is finite. *)
Definition motor_finite (m : Motor) : Prop :=
  F32.is_finite (target m) = true /\ F32.is_finite (speed m) = true /\
  F32.is_finite (err m) = true /\ F32.is_finite (errPrev m) = true /\
  F32.is_finite (integ m) = true /\ F32.is_finite (deriv m) = true /\
  F32.is_finite (u m) = true.

(** Bounds on the magnitudes of the floats a tick writes besides those of
    [motor_ok]: speed, error, derivative term and effort. *)
Definition motor_mags (m : Motor) : Prop :=
  mag_le (speed m) 36 /\ mag_le (err m) 37 /\ mag_le (deriv m) 38 /\
  mag_le (u m) 39.

(** * Rounding theory: lemmas *)

(** Closed goals are settled by evaluation. *)
Ltac by_eval := vm_compute; first [reflexivity | discriminate].

Lemma fexp_eq (d : Z) : fexp F32.prec F32.emax d = Z.max (d - 24) (-149).
Proof. reflexivity. Qed.

Lemma digits2_pos_bounds (p : positive) :
  2 ^ (Zpos (digits2_pos p) - 1) <= Zpos p < 2 ^ Zpos (digits2_pos p).
Proof.
  induction p as [p IH | p IH |]; cbn [digits2_pos].
  - rewrite Pos2Z.inj_succ.
    replace (Z.succ (Zpos (digits2_pos p)) - 1) with (Z.succ (Zpos (digits2_pos p) - 1)) by lia.
    rewrite !Z.pow_succ_r by lia. lia.
  - rewrite Pos2Z.inj_succ.
    replace (Z.succ (Zpos (digits2_pos p)) - 1) with (Z.succ (Zpos (digits2_pos p) - 1)) by lia.
    rewrite !Z.pow_succ_r by lia. lia.
  - cbn. lia.
Qed.

Lemma pow2_pos (n : Z) : 0 <= n -> 0 < 2 ^ n.
Proof. intros. apply Z.pow_pos_nonneg; lia. Qed.

Lemma pow2_lt_inv (a b : Z) : 0 <= b -> 2 ^ a < 2 ^ b -> a < b.
Proof. intros Hb H. apply (Z.pow_lt_mono_r_iff 2); lia. Qed.

Lemma pow2_le (a b : Z) : 0 <= a <= b -> 2 ^ a <= 2 ^ b.
Proof. intros. apply Z.pow_le_mono_r; lia. Qed.

Lemma digits_unique (p : positive) (d : Z) :
  2 ^ (d - 1) <= Zpos p < 2 ^ d -> Zpos (digits2_pos p) = d.
Proof.
  intros [Hl Hu]. pose proof (digits2_pos_bounds p) as [Hl' Hu'].
  assert (0 < d).
  { destruct (Z.ltb_spec 0 d) as [|Hd]; auto.
    destruct (Z.eq_dec d 0) as [->|]; [cbn in Hu; lia|].
    rewrite Z.pow_neg_r in Hu by lia. lia. }
  assert (d - 1 < Zpos (digits2_pos p)) by (apply pow2_lt_inv; lia).
  assert (Zpos (digits2_pos p) - 1 < d) by (apply pow2_lt_inv; lia).
  lia.
Qed.

Lemma located_nonneg mrs A B : 0 <= A -> located mrs A B -> 0 <= shr_m mrs.
Proof. intros HA (rho & HAeq & Hr & _). nia. Qed.

Lemma located_div mrs A B : located mrs A B -> shr_m mrs = A / B.
Proof.
  intros (rho & HAeq & Hr & _).
  apply Z.div_unique with rho; [lia | lia].
Qed.

Lemma shr_1_located mrs A B :
  0 <= A -> located mrs A B -> located (shr_1 mrs) A (2 * B).
Proof.
  intros HA Hl. pose proof (located_nonneg _ _ _ HA Hl) as Hm.
  destruct Hl as (rho & HAeq & Hr & Hrb & Hsb).
  destruct mrs as [m r s]; cbn [shr_m shr_r shr_s] in *.
  assert (Hs' : orb r s = negb (rho =? 0)).
  { subst r s. destruct (Z.leb_spec B (2 * rho)), (Z.eqb_spec rho 0), (Z.eqb_spec (2 * rho) B); cbn; try reflexivity; lia. }
  assert (HB : 0 < B) by lia.
  destruct m as [|[p|p|]|p]; try lia; cbn [shr_1 shr_m shr_r shr_s]; rewrite Hs';
    [ exists rho | exists (B + rho) | exists rho | exists (B + rho) ];
    cbn [shr_m shr_r shr_s];
    (split; [lia | split; [lia | split]]);
    try (symmetry; first [ apply Z.leb_le; lia | apply Z.leb_gt; lia ]);
    (f_equal;
     destruct (Z.eqb_spec rho 0); [subst rho|];
     repeat match goal with
            | |- context [?a =? ?b] => destruct (Z.eqb_spec a b)
            end; cbn; auto; lia).
Qed.

Lemma iter_shr_located (p : positive) : forall mrs A B,
  0 <= A -> located mrs A B ->
  located (iter_pos shr_1 p mrs) A (B * 2 ^ Zpos p).
Proof.
  induction p as [p IH | p IH |]; intros mrs A B HA Hl; cbn [iter_pos].
  - replace (B * 2 ^ Zpos p~1) with (2 * B * 2 ^ Zpos p * 2 ^ Zpos p).
    + apply IH; auto. apply IH; auto. apply shr_1_located; auto.
    + replace (Zpos p~1) with (1 + Zpos p + Zpos p) by lia.
      rewrite !Z.pow_add_r by lia. change (2 ^ 1) with 2. ring.
  - replace (B * 2 ^ Zpos p~0) with (B * 2 ^ Zpos p * 2 ^ Zpos p).
    + apply IH; auto.
    + replace (Zpos p~0) with (Zpos p + Zpos p) by lia.
      rewrite !Z.pow_add_r by lia. ring.
  - replace (B * 2 ^ 1) with (2 * B) by (change (2 ^ 1) with 2; lia).
    apply shr_1_located; auto.
Qed.

Lemma located_mod mrs A B : located mrs A B -> exists rho, rho = A mod B /\
  0 <= rho < B /\ shr_r mrs = (B <=? 2 * rho) /\
  shr_s mrs = negb ((rho =? 0) || (2 * rho =? B)).
Proof.
  intros (rho & HAeq & Hr & H). exists rho. split; auto.
  apply Z.mod_unique with (shr_m mrs); lia.
Qed.

Lemma round_located mrs A B :
  located mrs A B ->
  round_nearest_even (shr_m mrs) (loc_of_shr_record mrs) = rnq A B.
Proof.
  intros Hl. pose proof (located_div _ _ _ Hl) as Hm.
  destruct (located_mod _ _ _ Hl) as (rho & Hrho & Hr & Hrb & Hsb).
  unfold rnq. rewrite <- Hm, <- Hrho.
  destruct mrs as [m r s]; cbn [shr_m shr_r shr_s loc_of_shr_record] in *.
  subst r s.
  destruct (Z.compare_spec (2 * rho) B);
    destruct (Z.leb_spec B (2 * rho)); try lia;
    destruct (Z.eqb_spec rho 0); try lia;
    destruct (Z.eqb_spec (2 * rho) B); try lia; cbn; reflexivity.
Qed.

Lemma rnq_bounds A B : 0 < B -> A / B <= rnq A B <= A / B + 1.
Proof.
  intros. unfold rnq.
  destruct (2 * (A mod B) ?= B); [destruct (Z.even (A / B))| |]; lia.
Qed.

Lemma rnq_exact k B : 0 < B -> rnq (k * B) B = k.
Proof.
  intros. unfold rnq. rewrite Z.mod_mul, Z.div_mul by lia.
  destruct (Z.compare_spec (2 * 0) B); auto; lia.
Qed.

Lemma div_le_cross A1 B1 A2 B2 :
  0 < B1 -> 0 < B2 -> A1 * B2 <= A2 * B1 -> A1 / B1 <= A2 / B2.
Proof.
  intros H1 H2 H.
  apply Z.div_le_lower_bound; [lia|].
  pose proof (Z.mul_div_le A1 B1 H1).
  assert (B2 * (A1 / B1) * B1 <= A2 * B1) by nia.
  nia.
Qed.

Lemma rnq_mono A1 B1 A2 B2 :
  0 < B1 -> 0 < B2 -> A1 * B2 <= A2 * B1 -> rnq A1 B1 <= rnq A2 B2.
Proof.
  intros H1 H2 H.
  pose proof (div_le_cross _ _ _ _ H1 H2 H) as Hq.
  pose proof (rnq_bounds A1 B1 H1). pose proof (rnq_bounds A2 B2 H2).
  destruct (Z.eq_dec (A1 / B1) (A2 / B2)) as [Heq|]; [|lia].
  unfold rnq in *. rewrite <- Heq in *.
  pose proof (Z.div_mod A1 B1 ltac:(lia)) as E1.
  pose proof (Z.div_mod A2 B2 ltac:(lia)) as E2.
  rewrite <- Heq in E2.
  pose proof (Z.mod_pos_bound A1 B1 H1). pose proof (Z.mod_pos_bound A2 B2 H2).
  set (q := A1 / B1) in *. set (r1 := A1 mod B1) in *. set (r2 := A2 mod B2) in *.
  assert (r1 * B2 <= r2 * B1) by nia.
  destruct (Z.compare_spec (2 * r1) B1), (Z.compare_spec (2 * r2) B2);
    destruct (Z.even q); try lia; nia.
Qed.

Lemma Zdigits2_bounds m : 0 < m -> 2 ^ (Zdigits2 m - 1) <= m < 2 ^ Zdigits2 m.
Proof. destruct m; try lia. intros _. apply digits2_pos_bounds. Qed.

Lemma Zdigits2_le m d : 0 <= d -> 0 <= m < 2 ^ d -> Zdigits2 m <= d.
Proof.
  intros Hd [H0 H]. destruct m as [|p|p]; cbn [Zdigits2]; try lia.
  pose proof (digits2_pos_bounds p) as [Hl _].
  assert (Zpos (digits2_pos p) - 1 < d) by (apply pow2_lt_inv; lia). lia.
Qed.

Lemma shr_fexp_located m e l A B :
  0 <= A -> located (shr_record_of_loc m l) A B ->
  let t := fexp F32.prec F32.emax (Zdigits2 m + e) in
  e <= t ->
  exists mrs, shr_fexp F32.prec F32.emax m e l = (mrs, t) /\ located mrs A (B * 2 ^ (t - e)).
Proof.
  intros HA Hl t Ht. unfold shr_fexp. fold t. unfold shr.
  destruct (t - e) as [|p|p] eqn:E; try lia.
  - exists (shr_record_of_loc m l). split; [f_equal; lia|].
    change (2 ^ 0) with 1. rewrite Z.mul_1_r. exact Hl.
  - exists (iter_pos shr_1 p (shr_record_of_loc m l)). split; [f_equal; lia|].
    apply iter_shr_located; auto.
Qed.

Lemma located_exact m : located (shr_record_of_loc m loc_Exact) m 1.
Proof. exists 0. cbn. repeat split; lia. Qed.

Lemma bra_shape s m e l A B :
  0 < m -> 0 < B -> located (shr_record_of_loc m l) A B ->
  let t := fexp F32.prec F32.emax (Zdigits2 m + e) in
  e <= t ->
  let mant := rnq A (B * 2 ^ (t - e)) in
  binary_round_aux F32.prec F32.emax s m e l =
    (if mant =? 2 ^ 24 then result_of s (2 ^ 23) (t + 1) else result_of s mant t)
  /\ 0 <= mant <= 2 ^ 24 /\ (-149 < t -> 2 ^ 23 <= mant).
Proof.
  intros Hm HB Hl t Ht mant.
  assert (HA : 0 <= A).
  { destruct Hl as (rho & HAeq & Hr & _).
    replace (shr_m (shr_record_of_loc m l)) with m in HAeq
      by (destruct l as [|[]]; reflexivity). nia. }
  assert (HmAB : m = A / B).
  { rewrite <- (located_div _ _ _ Hl). destruct l as [|[]]; reflexivity. }
  unfold binary_round_aux.
  destruct (shr_fexp_located m e l A B HA Hl Ht) as (mrs & -> & Hl').
  rewrite (round_located _ _ _ Hl'). clear mrs Hl'.
  change (rnq A (B * 2 ^ (fexp F32.prec F32.emax (Zdigits2 m + e) - e))) with mant.
  change (fexp F32.prec F32.emax (Zdigits2 m + e)) with t.
  pose proof (Zdigits2_bounds m Hm) as [Hdl Hdu].
  assert (Hd : 0 < Zdigits2 m) by (destruct m; cbn; lia).
  assert (Htd : t = Z.max (Zdigits2 m + e - 24) (-149)) by (unfold t; apply fexp_eq).
  clearbody t.
  assert (Hn : 0 <= t - e) by lia.
  assert (Hpn : 0 < 2 ^ (t - e)) by (apply pow2_pos; auto).
  assert (Hdiv : A / (B * 2 ^ (t - e)) = m / 2 ^ (t - e)).
  { rewrite HmAB. rewrite Z.div_div by lia. reflexivity. }
  assert (Hup : m / 2 ^ (t - e) < 2 ^ 24).
  { apply Z.div_lt_upper_bound; [lia|].
    rewrite <- Z.pow_add_r by lia.
    apply Z.lt_le_trans with (2 ^ Zdigits2 m); [lia|]. apply pow2_le. lia. }
  assert (Hm0 : 0 <= m / 2 ^ (t - e)) by (apply Z.div_pos; lia).
  pose proof (rnq_bounds A (B * 2 ^ (t - e)) ltac:(nia)) as Hb. fold mant in Hb.
  rewrite Hdiv in Hb.
  assert (Hlow : -149 < t -> 2 ^ 23 <= mant).
  { intros Hnorm. assert (t - e = Zdigits2 m - 24) by lia.
    assert (2 ^ 23 <= m / 2 ^ (t - e)); [|lia].
    apply Z.div_le_lower_bound; [lia|].
    rewrite <- Z.pow_add_r by lia.
    replace (t - e + 23) with (Zdigits2 m - 1) by lia. lia. }
  clearbody mant.
  split; [|split; [lia | exact Hlow]].
  destruct (Z.eqb_spec mant (2 ^ 24)) as [E|NE].
  - rewrite E. unfold shr_fexp.
    replace (Zdigits2 (2 ^ 24)) with 25 by reflexivity.
    rewrite fexp_eq.
    replace (Z.max (25 + t - 24) (-149) - t) with 1 by lia.
    cbn [shr shr_record_of_loc iter_pos]. reflexivity.
  - assert (Hlt : mant < 2 ^ 24) by lia.
    assert (Hdm : Zdigits2 mant <= 24) by (apply Zdigits2_le; lia).
    unfold shr_fexp. rewrite fexp_eq. unfold shr.
    destruct (Z.max (Zdigits2 mant + t - 24) (-149) - t) eqn:E; try lia;
      cbn [shr_record_of_loc shr_m]; unfold result_of; destruct mant; try lia; reflexivity.
Qed.

Lemma bounded_spec m e :
  bounded F32.prec F32.emax m e = true <->
  Z.max (Zpos (digits2_pos m) + e - 24) (-149) = e /\ e <= 104.
Proof.
  unfold bounded, canonical_mantissa. rewrite fexp_eq.
  rewrite andb_true_iff, Z.eqb_eq, Z.leb_le. reflexivity.
Qed.

Lemma pow2_add a b : 0 <= a -> 0 <= b -> 2 ^ (a + b) = 2 ^ a * 2 ^ b.
Proof. intros. apply Z.pow_add_r; lia. Qed.

Lemma pow2_mul_lt m d k : 0 <= d -> 0 <= k -> 0 <= m < 2 ^ d -> m * 2 ^ k < 2 ^ (d + k).
Proof. intros. rewrite pow2_add by lia. pose proof (pow2_pos k). nia. Qed.

Lemma pow2_mul_le m d k : 0 <= d -> 0 <= k -> 0 <= m <= 2 ^ d -> m * 2 ^ k <= 2 ^ (d + k).
Proof. intros. rewrite pow2_add by lia. pose proof (pow2_pos k). nia. Qed.

Lemma pow2_mul_ge m d k : 0 <= d -> 0 <= k -> 2 ^ d <= m -> 2 ^ (d + k) <= m * 2 ^ k.
Proof. intros. rewrite pow2_add by lia. pose proof (pow2_pos k). nia. Qed.

Lemma bounded_facts m e :
  bounded F32.prec F32.emax m e = true ->
  -149 <= e <= 104 /\ Zpos m < 2 ^ 24 /\ (-149 < e -> 2 ^ 23 <= Zpos m).
Proof.
  rewrite bounded_spec. intros [Hc He].
  pose proof (digits2_pos_bounds m) as [Hl Hu].
  split; [lia|]. split.
  - apply Z.lt_le_trans with (1 := Hu). apply pow2_le. lia.
  - intros Hn. replace 23 with (Zpos (digits2_pos m) - 1) by lia. exact Hl.
Qed.

Lemma key_finite_bounds s m e :
  bounded F32.prec F32.emax m e = true ->
  0 < key (S754_finite s m e) < 2 ^ 277.
Proof.
  intros Hb. destruct (bounded_facts _ _ Hb) as (He & Hm & _). cbn [key].
  split.
  - pose proof (pow2_pos (e + 149)). nia.
  - apply Z.lt_le_trans with (2 ^ (24 + (e + 149))).
    + apply pow2_mul_lt; lia.
    + apply pow2_le. lia.
Qed.

Lemma key_finite_lt s1 m1 e1 s2 m2 e2 :
  bounded F32.prec F32.emax m1 e1 = true -> bounded F32.prec F32.emax m2 e2 = true ->
  e1 < e2 -> key (S754_finite s1 m1 e1) < key (S754_finite s2 m2 e2).
Proof.
  intros H1 H2 He.
  destruct (bounded_facts _ _ H1) as (He1 & Hm1 & _).
  destruct (bounded_facts _ _ H2) as (He2 & _ & Hm2).
  cbn [key].
  apply Z.lt_le_trans with (2 ^ (24 + (e1 + 149))).
  - apply pow2_mul_lt; lia.
  - apply Z.le_trans with (2 ^ (23 + (e2 + 149))).
    + apply pow2_le; lia.
    + apply pow2_mul_ge; lia.
Qed.

Lemma nnv_compare f g :
  nnv f = true -> nnv g = true ->
  SFcompare f g = Some (key f ?= key g).
Proof.
  intros Hf Hg.
  destruct f as [[]|[]| |[] m1 e1], g as [[]|[]| |[] m2 e2]; try discriminate;
    cbn [nnv negb andb] in Hf, Hg; cbn [SFcompare]; try reflexivity;
    try (pose proof (key_finite_bounds false m1 e1 Hf) as [Hf0 Hf1]);
    try (pose proof (key_finite_bounds false m2 e2 Hg) as [Hg0 Hg1]);
    f_equal; symmetry.
  - apply Z.compare_lt_iff. exact Hg0.
  - apply Z.compare_gt_iff. exact Hg1.
  - apply Z.compare_gt_iff. exact Hf0.
  - apply Z.compare_lt_iff. exact Hf1.
  - destruct (Z.compare_spec e1 e2) as [E|L|G].
    + subst e2. cbn [key]. rewrite Pos.compare_cont_spec. cbn [Pos.switch_Eq].
      destruct (bounded_facts _ _ Hf) as (He & _).
      pose proof (pow2_pos (e1 + 149) ltac:(lia)).
      destruct (Pos.compare_spec m1 m2) as [E|L|G].
      * subst m2. apply Z.compare_refl.
      * apply Z.compare_lt_iff. nia.
      * apply Z.compare_gt_iff. nia.
    + apply Z.compare_lt_iff. apply key_finite_lt; auto.
    + apply Z.compare_gt_iff. apply key_finite_lt; auto.
Qed.

Lemma nnv_leb f g : nnv f = true -> nnv g = true -> SFleb f g = (key f <=? key g).
Proof.
  intros Hf Hg. unfold SFleb. rewrite (nnv_compare f g Hf Hg).
  unfold Z.leb. destruct (key f ?= key g); reflexivity.
Qed.

Lemma nnv_ltb f g : nnv f = true -> nnv g = true -> SFltb f g = (key f <? key g).
Proof.
  intros Hf Hg. unfold SFltb. rewrite (nnv_compare f g Hf Hg).
  unfold Z.ltb. destruct (key f ?= key g); reflexivity.
Qed.

Lemma result_key mant t :
  -149 <= t -> 0 <= mant <= 2 ^ 24 -> (-149 < t -> 2 ^ 23 <= mant) ->
  let F := if mant =? 2 ^ 24 then result_of false (2 ^ 23) (t + 1)
           else result_of false mant t in
  nnv F = true /\ key F = Z.min (2 ^ 277) (mant * 2 ^ (t + 149)).
Proof.
  intros Ht Hm Hn F. subst F.
  destruct (Z.eqb_spec mant (2 ^ 24)) as [E|NE].
  - subst mant. change (2 ^ 23) with 8388608. unfold result_of.
    change (F32.emax - F32.prec) with 104.
    destruct (Z.leb_spec (t + 1) 104) as [L|G]; cbn [nnv key negb andb].
    + split.
      * apply bounded_spec. change (Zpos (digits2_pos 8388608)) with 24. lia.
      * replace (t + 1 + 149) with (1 + (t + 149)) by lia.
        rewrite pow2_add by lia. change (2 ^ 1) with 2.
        change 8388608 with (2 ^ 23). change (2 ^ 24) with (2 * 2 ^ 23).
        rewrite Z.min_r; [ring|].
        apply Z.le_trans with (2 ^ (24 + (t + 149))).
        -- change (2 * 2 ^ 23) with (2 ^ 24). apply pow2_mul_le; lia.
        -- apply pow2_le. lia.
    + split; [reflexivity|].
      rewrite Z.min_l; [reflexivity|].
      apply Z.le_trans with (2 ^ (24 + (t + 149))).
      * apply pow2_le. lia.
      * apply pow2_mul_ge; lia.
  - destruct mant as [|p|p]; try lia; unfold result_of.
    + cbn [nnv key negb]. split; [reflexivity|]. rewrite Z.min_r; [reflexivity|].
      rewrite Z.mul_0_l. apply Z.lt_le_incl, pow2_pos. lia.
    + change (F32.emax - F32.prec) with 104.
      destruct (Z.leb_spec t 104) as [L|G]; cbn [nnv key negb andb].
      * split.
        -- apply bounded_spec. split; [|lia].
           pose proof (Zdigits2_le (Zpos p) 24 ltac:(lia) ltac:(lia)) as Hd.
           cbn [Zdigits2] in Hd.
           destruct (Z.eq_dec t (-149)) as [->|]; [lia|].
           assert (Zpos (digits2_pos p) = 24); [|lia].
           apply digits_unique. change (24 - 1) with 23. lia.
        -- rewrite Z.min_r; [reflexivity|].
           apply Z.lt_le_incl.
           apply Z.lt_le_trans with (2 ^ (24 + (t + 149))).
           ++ apply pow2_mul_lt; lia.
           ++ apply pow2_le. lia.
      * split; [reflexivity|].
        rewrite Z.min_l; [reflexivity|].
        apply Z.le_trans with (2 ^ (23 + (t + 149))).
        -- apply pow2_le. lia.
        -- apply pow2_mul_ge; lia.
Qed.

Lemma fexp_ge d : -149 <= fexp F32.prec F32.emax d.
Proof. rewrite fexp_eq. lia. Qed.

Lemma bra_key m e l A B :
  0 < m -> 0 < B -> located (shr_record_of_loc m l) A B ->
  let t := fexp F32.prec F32.emax (Zdigits2 m + e) in
  e <= t ->
  nnv (binary_round_aux F32.prec F32.emax false m e l) = true /\
  key (binary_round_aux F32.prec F32.emax false m e l) =
    Z.min (2 ^ 277) (rnq A (B * 2 ^ (t - e)) * 2 ^ (t + 149)).
Proof.
  intros Hm HB Hl t Ht.
  destruct (bra_shape false m e l A B Hm HB Hl Ht) as (-> & Hb & Hn).
  apply result_key; auto. apply fexp_ge.
Qed.

Lemma located_bounds m l A B :
  0 < B -> located (shr_record_of_loc m l) A B -> m * B <= A < (m + 1) * B.
Proof.
  intros HB (rho & HAeq & Hr & _).
  replace (shr_m (shr_record_of_loc m l)) with m in HAeq
    by (destruct l as [|[]]; reflexivity).
  nia.
Qed.

(** Rounding is monotone: if the located value [A1/B1 * 2^e1] is at most
    [A2/B2 * 2^e2], the rounded floats are in the same order. *)
Lemma bra_mono m1 e1 l1 A1 B1 m2 e2 l2 A2 B2 p q :
  0 < m1 -> 0 < B1 -> located (shr_record_of_loc m1 l1) A1 B1 ->
  0 < m2 -> 0 < B2 -> located (shr_record_of_loc m2 l2) A2 B2 ->
  e1 <= fexp F32.prec F32.emax (Zdigits2 m1 + e1) ->
  e2 <= fexp F32.prec F32.emax (Zdigits2 m2 + e2) ->
  0 <= p -> 0 <= q -> p - q = e1 - e2 ->
  A1 * B2 * 2 ^ p <= A2 * B1 * 2 ^ q ->
  key (binary_round_aux F32.prec F32.emax false m1 e1 l1) <=
  key (binary_round_aux F32.prec F32.emax false m2 e2 l2).
Proof.
  intros Hm1 HB1 Hl1 Hm2 HB2 Hl2 Ht1 Ht2 Hp Hq Hpq H.
  destruct (bra_key m1 e1 l1 A1 B1 Hm1 HB1 Hl1 Ht1) as (_ & ->).
  destruct (bra_key m2 e2 l2 A2 B2 Hm2 HB2 Hl2 Ht2) as (_ & ->).
  destruct (bra_shape false m1 e1 l1 A1 B1 Hm1 HB1 Hl1 Ht1) as (_ & Hb1 & _).
  destruct (bra_shape false m2 e2 l2 A2 B2 Hm2 HB2 Hl2 Ht2) as (_ & _ & Hn2).
  pose proof (located_bounds _ _ _ _ HB1 Hl1) as [HA1 _].
  pose proof (located_bounds _ _ _ _ HB2 Hl2) as [_ HA2].
  pose proof (Zdigits2_bounds m1 Hm1) as [Hd1 _].
  pose proof (Zdigits2_bounds m2 Hm2) as [_ Hd2].
  assert (Hdp1 : 0 < Zdigits2 m1) by (destruct m1; cbn; lia).
  assert (Hdp2 : 0 < Zdigits2 m2) by (destruct m2; cbn; lia).
  pose proof (pow2_pos p Hp) as Hpp. pose proof (pow2_pos q Hq) as Hqq.
  assert (HD : Zdigits2 m1 + e1 <= Zdigits2 m2 + e2).
  { assert (2 ^ (Zdigits2 m1 - 1 + p) < 2 ^ (Zdigits2 m2 + q)).
    { rewrite !pow2_add by lia.
      set (P1 := 2 ^ (Zdigits2 m1 - 1)) in *. set (P2 := 2 ^ Zdigits2 m2) in *.
      set (X := 2 ^ p) in *. set (Y := 2 ^ q) in *.
      assert (S1 : P1 * B1 * (B2 * X) <= m1 * B1 * (B2 * X))
        by (apply Z.mul_le_mono_nonneg_r; nia).
      assert (S2 : m1 * B1 * (B2 * X) <= A1 * (B2 * X))
        by (apply Z.mul_le_mono_nonneg_r; nia).
      assert (S3 : A2 * (B1 * Y) < (m2 + 1) * B2 * (B1 * Y))
        by (apply Z.mul_lt_mono_pos_r; nia).
      assert (S4 : (m2 + 1) * B2 * (B1 * Y) <= P2 * B2 * (B1 * Y))
        by (apply Z.mul_le_mono_nonneg_r; nia).
      assert (S5 : P1 * X * (B1 * B2) < P2 * Y * (B1 * B2)) by lia.
      apply Z.mul_lt_mono_pos_r in S5; [exact S5 | nia]. }
    assert (Zdigits2 m1 - 1 + p < Zdigits2 m2 + q) by (apply pow2_lt_inv; lia).
    lia. }
  revert Ht1 Ht2 Hb1 Hn2. rewrite !fexp_eq.
  set (t1 := Z.max (Zdigits2 m1 + e1 - 24) (-149)).
  set (t2 := Z.max (Zdigits2 m2 + e2 - 24) (-149)).
  intros Ht1 Ht2 Hb1 Hn2.
  assert (Ht : t1 <= t2) by (unfold t1, t2; lia).
  apply Z.min_le_compat_l.
  destruct (Z.eq_dec t1 t2) as [E|NE].
  - rewrite <- E in *.
    apply Z.mul_le_mono_nonneg_r; [apply Z.lt_le_incl, pow2_pos; unfold t1; lia|].
    pose proof (pow2_pos (t1 - e1) ltac:(lia)) as Hn1p.
    pose proof (pow2_pos (t1 - e2) ltac:(lia)) as Hn2p.
    apply rnq_mono; try nia.
    assert (HK : 2 ^ p * 2 ^ (t1 - e1) = 2 ^ q * 2 ^ (t1 - e2)).
    { rewrite <- !pow2_add by lia. f_equal. lia. }
    assert (A1 * (B2 * 2 ^ (t1 - e2)) * (2 ^ p * 2 ^ (t1 - e1)) <=
            A2 * (B1 * 2 ^ (t1 - e1)) * (2 ^ p * 2 ^ (t1 - e1))).
    { rewrite HK at 2.
      replace (A1 * (B2 * 2 ^ (t1 - e2)) * (2 ^ p * 2 ^ (t1 - e1)))
        with (A1 * B2 * 2 ^ p * (2 ^ (t1 - e1) * 2 ^ (t1 - e2))) by ring.
      replace (A2 * (B1 * 2 ^ (t1 - e1)) * (2 ^ q * 2 ^ (t1 - e2)))
        with (A2 * B1 * 2 ^ q * (2 ^ (t1 - e1) * 2 ^ (t1 - e2))) by ring.
      apply Z.mul_le_mono_nonneg_r; [nia | exact H]. }
    apply Z.mul_le_mono_pos_r with (2 ^ p * 2 ^ (t1 - e1)); [nia | assumption].
  - assert (-149 <= t1) by (unfold t1; lia).
    apply Z.le_trans with (2 ^ (24 + (t1 + 149))).
    + apply pow2_mul_le; lia.
    + apply Z.le_trans with (2 ^ (23 + (t2 + 149))).
      * apply pow2_le; lia.
      * apply pow2_mul_ge; lia.
Qed.

Lemma shl_align_spec m e e' :
  e' <= e ->
  Zpos (fst (shl_align m e e')) = Zpos m * 2 ^ (e - e') /\ snd (shl_align m e e') = e'.
Proof.
  intros H. unfold shl_align.
  destruct (e' - e) as [|d|d] eqn:E; try lia; cbn [fst snd].
  - replace (e - e') with 0 by lia. change (2 ^ 0) with 1. lia.
  - change (Pos.iter xO m d) with (shift_pos d m).
    rewrite shift_pos_correct.
    replace (e - e') with (Zpos d) by lia.
    split; [|reflexivity].
    unfold Zpower_pos. rewrite Z.mul_comm. reflexivity.
Qed.

Lemma digits_shift (m mz : positive) k :
  0 <= k -> Zpos mz = Zpos m * 2 ^ k ->
  Zpos (digits2_pos mz) = Zpos (digits2_pos m) + k.
Proof.
  intros Hk E. apply digits_unique.
  pose proof (digits2_pos_bounds m) as [Hl Hu].
  pose proof (pow2_pos k Hk).
  rewrite E. split.
  - replace (Zpos (digits2_pos m) + k - 1) with (Zpos (digits2_pos m) - 1 + k) by lia.
    rewrite pow2_add by lia. nia.
  - rewrite pow2_add by lia. nia.
Qed.

Lemma binary_round_as_bra m e :
  exists mz k, 0 <= k /\ Zpos mz = Zpos m * 2 ^ k /\
    (forall s, binary_round F32.prec F32.emax s m e =
       binary_round_aux F32.prec F32.emax s (Zpos mz) (e - k) loc_Exact) /\
    e - k <= fexp F32.prec F32.emax (Zdigits2 (Zpos mz) + (e - k)).
Proof.
  unfold binary_round.
  set (t := fexp F32.prec F32.emax (Zpos (digits2_pos m) + e)).
  destruct (Z.le_gt_cases e t) as [L|G].
  - exists m, 0. split; [lia|]. split; [change (2 ^ 0) with 1; lia|].
    rewrite Z.sub_0_r. split.
    + intros s. unfold shl_align. destruct (t - e) eqn:E; try lia; reflexivity.
    + cbn [Zdigits2]. fold t. lia.
  - destruct (shl_align_spec m e t ltac:(lia)) as [Hm He].
    destruct (shl_align m e t) as [mz ez]. cbn [fst snd] in *. subst ez.
    exists mz, (e - t). split; [lia|]. split; [exact Hm|].
    replace (e - (e - t)) with t by lia. split; [reflexivity|].
    cbn [Zdigits2]. rewrite (digits_shift m mz (e - t)) by (auto; lia).
    replace (Zpos (digits2_pos m) + (e - t) + t) with (Zpos (digits2_pos m) + e) by lia.
    fold t. lia.
Qed.

Lemma binary_round_nnv m e : nnv (binary_round F32.prec F32.emax false m e) = true.
Proof.
  destruct (binary_round_as_bra m e) as (mz & k & Hk & Hm & Hbr & Ht). rewrite Hbr.
  apply (bra_key (Zpos mz) (e - k) loc_Exact (Zpos mz) 1); auto; try lia.
  apply located_exact.
Qed.

Lemma binary_round_mono m1 e1 m2 e2 p q :
  0 <= p -> 0 <= q -> p - q = e1 - e2 ->
  Zpos m1 * 2 ^ p <= Zpos m2 * 2 ^ q ->
  key (binary_round F32.prec F32.emax false m1 e1) <= key (binary_round F32.prec F32.emax false m2 e2).
Proof.
  intros Hp Hq Hpq H.
  destruct (binary_round_as_bra m1 e1) as (mz1 & k1 & Hk1 & Hm1 & Hbr1 & Ht1). rewrite Hbr1.
  destruct (binary_round_as_bra m2 e2) as (mz2 & k2 & Hk2 & Hm2 & Hbr2 & Ht2). rewrite Hbr2.
  apply (bra_mono _ _ _ (Zpos mz1) 1 _ _ _ (Zpos mz2) 1 (p + k2) (q + k1));
    auto using located_exact; try lia.
  rewrite Hm1, Hm2, !Z.mul_1_r, !pow2_add by lia.
  pose proof (pow2_pos k1 Hk1). pose proof (pow2_pos k2 Hk2).
  replace (Zpos m1 * 2 ^ k1 * (2 ^ p * 2 ^ k2)) with (Zpos m1 * 2 ^ p * (2 ^ k1 * 2 ^ k2)) by ring.
  replace (Zpos m2 * 2 ^ k2 * (2 ^ q * 2 ^ k1)) with (Zpos m2 * 2 ^ q * (2 ^ k1 * 2 ^ k2)) by ring.
  apply Z.mul_le_mono_nonneg_r; [nia | exact H].
Qed.

Lemma posfin_nnv f : posfin f = true -> nnv f = true.
Proof. destruct f as [| | |[] m e]; try discriminate. auto. Qed.

Lemma posnorm_posfin f : posnorm f = true -> posfin f = true.
Proof.
  destruct f as [| | |[] m e]; try discriminate. cbn.
  rewrite andb_true_iff. tauto.
Qed.

Lemma key_range f : nnv f = true -> 0 <= key f <= 2 ^ 277.
Proof.
  destruct f as [[]|[]| |[] m e]; try discriminate; cbn [nnv negb andb]; intros H.
  - cbn [key]. split; [lia|]. apply Z.lt_le_incl, pow2_pos. lia.
  - cbn [key]. split; [|lia]. apply Z.lt_le_incl, pow2_pos. lia.
  - pose proof (key_finite_bounds false m e H). lia.
Qed.

Lemma posfin_of_key f : nnv f = true -> 0 < key f < 2 ^ 277 -> posfin f = true.
Proof.
  destruct f as [[]|[]| |[] m e]; try discriminate; cbn [nnv negb andb key posfin];
    intros H Hk; auto; lia.
Qed.

Lemma add_as_round ma ea mb eb :
  bounded F32.prec F32.emax ma ea = true -> bounded F32.prec F32.emax mb eb = true ->
  exists M, Zpos M * 2 ^ (Z.min ea eb + 149) =
              key (S754_finite false ma ea) + key (S754_finite false mb eb) /\
    SFadd F32.prec F32.emax (S754_finite false ma ea) (S754_finite false mb eb) =
      binary_round F32.prec F32.emax false M (Z.min ea eb).
Proof.
  intros Ha Hb.
  destruct (bounded_facts _ _ Ha) as (Hea & _). destruct (bounded_facts _ _ Hb) as (Heb & _).
  cbn [SFadd cond_Zopp key]. set (ez := Z.min ea eb).
  destruct (shl_align_spec ma ea ez ltac:(unfold ez; lia)) as [Ha' _].
  destruct (shl_align_spec mb eb ez ltac:(unfold ez; lia)) as [Hb' _].
  exists (fst (shl_align ma ea ez) + fst (shl_align mb eb ez))%positive.
  split; [|reflexivity].
  rewrite Pos2Z.inj_add, Ha', Hb'.
  replace (ea + 149) with ((ea - ez) + (ez + 149)) by lia.
  replace (eb + 149) with ((eb - ez) + (ez + 149)) by lia.
  rewrite (pow2_add (ea - ez) (ez + 149)), (pow2_add (eb - ez) (ez + 149))
    by (unfold ez; lia).
  ring.
Qed.

Lemma add_nnv a b : posfin a = true -> posfin b = true -> nnv (SFadd F32.prec F32.emax a b) = true.
Proof.
  destruct a as [| | |[] ma ea], b as [| | |[] mb eb]; try discriminate; cbn [posfin].
  intros Ha Hb. destruct (add_as_round ma ea mb eb Ha Hb) as (M & _ & ->).
  apply binary_round_nnv.
Qed.

Lemma add_key_mono a1 b1 a2 b2 :
  posfin a1 = true -> posfin b1 = true -> posfin a2 = true -> posfin b2 = true ->
  key a1 + key b1 <= key a2 + key b2 ->
  key (SFadd F32.prec F32.emax a1 b1) <= key (SFadd F32.prec F32.emax a2 b2).
Proof.
  destruct a1 as [| | |[] ma1 ea1], b1 as [| | |[] mb1 eb1]; try discriminate;
  destruct a2 as [| | |[] ma2 ea2], b2 as [| | |[] mb2 eb2]; try discriminate; cbn [posfin].
  intros Ha1 Hb1 Ha2 Hb2 H.
  destruct (add_as_round ma1 ea1 mb1 eb1 Ha1 Hb1) as (M1 & E1 & ->).
  destruct (add_as_round ma2 ea2 mb2 eb2 Ha2 Hb2) as (M2 & E2 & ->).
  destruct (bounded_facts _ _ Ha1) as (? & _). destruct (bounded_facts _ _ Hb1) as (? & _).
  destruct (bounded_facts _ _ Ha2) as (? & _). destruct (bounded_facts _ _ Hb2) as (? & _).
  apply binary_round_mono with (p := Z.min ea1 eb1 + 149) (q := Z.min ea2 eb2 + 149); lia.
Qed.

Lemma mul_enough mx ex mc ec :
  2 ^ 23 <= Zpos mc ->
  ex + ec <= fexp F32.prec F32.emax (Zdigits2 (Zpos (mx * mc)) + (ex + ec)).
Proof.
  intros Hc. rewrite fexp_eq. cbn [Zdigits2].
  pose proof (digits2_pos_bounds (mx * mc)) as [_ Hu].
  assert (23 < Zpos (digits2_pos (mx * mc))).
  { apply pow2_lt_inv; [lia|]. rewrite Pos2Z.inj_mul in Hu. nia. }
  lia.
Qed.

Lemma mul_nnv x c : posfin x = true -> posnorm c = true -> nnv (SFmul F32.prec F32.emax x c) = true.
Proof.
  destruct x as [| | |[] mx ex], c as [| | |[] mc ec]; try discriminate; cbn [posfin posnorm].
  rewrite andb_true_iff, Z.leb_le. intros Hx [Hc Hn]. cbn [SFmul xorb].
  apply (bra_key _ _ loc_Exact (Zpos (mx * mc)) 1); auto using located_exact; try lia.
  apply mul_enough; auto.
Qed.

Lemma mul_key_mono x1 x2 c :
  posfin x1 = true -> posfin x2 = true -> posnorm c = true ->
  key x1 <= key x2 ->
  key (SFmul F32.prec F32.emax x1 c) <= key (SFmul F32.prec F32.emax x2 c).
Proof.
  destruct x1 as [| | |[] m1 e1], x2 as [| | |[] m2 e2], c as [| | |[] mc ec];
    try discriminate; cbn [posfin posnorm].
  rewrite andb_true_iff, Z.leb_le. intros H1 H2 [Hc Hn] H. cbn [SFmul xorb key] in *.
  destruct (bounded_facts _ _ H1) as (? & _). destruct (bounded_facts _ _ H2) as (? & _).
  apply (bra_mono _ _ _ (Zpos (m1 * mc)) 1 _ _ _ (Zpos (m2 * mc)) 1 (e1 + 149) (e2 + 149));
    auto using located_exact, mul_enough; try lia.
  rewrite !Pos2Z.inj_mul, !Z.mul_1_r. nia.
Qed.

Lemma new_location_located mc q r :
  0 < mc -> 0 <= r < mc ->
  located (shr_record_of_loc q (new_location mc r)) (q * mc + r) mc.
Proof.
  intros Hc Hr. exists r.
  assert (Hm : forall l, shr_m (shr_record_of_loc q l) = q) by (intros [|[]]; reflexivity).
  rewrite Hm. split; [reflexivity|]. split; [exact Hr|].
  unfold new_location, new_location_even, new_location_odd.
  destruct (Z.even mc) eqn:Ev; destruct (Z.eqb_spec r 0) as [R0|R0];
    try (subst r; cbn [shr_record_of_loc shr_r shr_s orb negb];
         destruct (Z.leb_spec mc (2 * 0)); try lia; auto).
  - destruct (Z.compare_spec (2 * r) mc); cbn [shr_record_of_loc shr_r shr_s];
      destruct (Z.leb_spec mc (2 * r)); try lia;
      destruct (Z.eqb_spec (2 * r) mc); try lia; auto.
  - assert (2 * r <> mc).
    { intros E. rewrite <- E, Z.even_mul in Ev. discriminate. }
    destruct (Z.compare_spec (2 * r + 1) mc); cbn [shr_record_of_loc shr_r shr_s];
      destruct (Z.leb_spec mc (2 * r)); try lia;
      destruct (Z.eqb_spec (2 * r) mc); try lia; auto.
Qed.

Lemma div_core mx ex mc ec :
  bounded F32.prec F32.emax mx ex = true -> bounded F32.prec F32.emax mc ec = true ->
  2 ^ 23 <= Zpos mc ->
  key (S754_finite false mc ec) <= key (S754_finite false mx ex) * 2 ^ 100 ->
  exists q e' l s,
    SFdiv_core_binary F32.prec F32.emax (Zpos mx) ex (Zpos mc) ec = (q, e', l) /\
    0 <= s /\ s + e' = ex - ec /\
    located (shr_record_of_loc q l) (Zpos mx * 2 ^ s) (Zpos mc) /\
    0 < q /\ e' <= fexp F32.prec F32.emax (Zdigits2 q + e').
Proof.
  intros Hx Hc Hn Hk. cbn [key] in Hk.
  destruct (bounded_facts _ _ Hx) as (Hex & Hmx & _).
  destruct (bounded_facts _ _ Hc) as (Hec & Hmc & _).
  pose proof (digits2_pos_bounds mx) as [Hdl Hdu].
  set (d1 := Zpos (digits2_pos mx)) in *.
  assert (Hd1 : 0 < d1 <= 24).
  { split; [unfold d1; lia|].
    assert (d1 - 1 < 24) by (apply pow2_lt_inv; lia). lia. }
  assert (Hd2 : Zpos (digits2_pos mc) = 24) by (apply digits_unique; change (24 - 1) with 23; lia).
  assert (Hnu : -125 < d1 + ex - ec - 48).
  { assert (2 ^ (23 + (ec + 149)) < 2 ^ (d1 + (ex + 149 + 100))).
    { apply Z.le_lt_trans with (Zpos mc * 2 ^ (ec + 149)).
      - apply pow2_mul_ge; lia.
      - apply Z.le_lt_trans with (1 := Hk).
        rewrite <- Z.mul_assoc, <- pow2_add by lia.
        apply pow2_mul_lt; lia. }
    assert (23 + (ec + 149) < d1 + (ex + 149 + 100)) by (apply pow2_lt_inv; lia).
    lia. }
  unfold SFdiv_core_binary. cbn [Zdigits2]. fold d1. rewrite Hd2, fexp_eq.
  set (e' := Z.min (Z.max (d1 + ex - (24 + ec) - 24) (-149)) (ex - ec)).
  assert (He' : e' = d1 + ex - ec - 48) by (unfold e'; lia).
  set (s := ex - ec - e').
  assert (Hs : s = 48 - d1) by (unfold s; lia).
  assert (Hm' : match s with
                | 0 => Zpos mx
                | Zpos _ => Z.shiftl (Zpos mx) s
                | Zneg _ => 0
                end = Zpos mx * 2 ^ s).
  { destruct s eqn:E; try lia. apply Z.shiftl_mul_pow2. lia. }
  rewrite Hm'.
  pose proof (Z_div_mod (Zpos mx * 2 ^ s) (Zpos mc) ltac:(lia)) as Hdm.
  destruct (Z.div_eucl (Zpos mx * 2 ^ s) (Zpos mc)) as [q r].
  destruct Hdm as [Hq Hr].
  exists q, e', (new_location (Zpos mc) r), s.
  split; [reflexivity|]. split; [lia|]. split; [unfold s; lia|].
  assert (H47 : 2 ^ 47 <= Zpos mx * 2 ^ s).
  { replace 47 with ((d1 - 1) + s) by lia. apply pow2_mul_ge; lia. }
  assert (Hq23 : 2 ^ 23 <= q).
  { assert (2 ^ 23 * Zpos mc < 2 ^ 47).
    { change (2 ^ 47) with (2 ^ 23 * 2 ^ 24). nia. }
    nia. }
  split.
  - rewrite Hq. replace (Zpos mc * q + r) with (q * Zpos mc + r) by ring.
    apply new_location_located; lia.
  - split; [lia|]. rewrite fexp_eq.
    pose proof (Zdigits2_bounds q ltac:(lia)) as [_ Hqu].
    assert (23 < Zdigits2 q) by (apply pow2_lt_inv; [destruct q; cbn; lia | lia]).
    lia.
Qed.

Lemma div_nnv x c :
  posfin x = true -> posnorm c = true -> key c <= key x * 2 ^ 100 ->
  nnv (SFdiv F32.prec F32.emax x c) = true.
Proof.
  destruct x as [| | |[] mx ex], c as [| | |[] mc ec]; try discriminate; cbn [posfin posnorm].
  rewrite andb_true_iff, Z.leb_le. intros Hx [Hc Hn] Hk. cbn [SFdiv xorb].
  destruct (div_core mx ex mc ec Hx Hc Hn Hk) as (q & e' & l & s & -> & Hs & Hse & Hl & Hq & Ht).
  apply (bra_key q e' l (Zpos mx * 2 ^ s) (Zpos mc) Hq ltac:(lia) Hl Ht).
Qed.

Lemma div_key_mono x1 x2 c :
  posfin x1 = true -> posfin x2 = true -> posnorm c = true ->
  key c <= key x1 * 2 ^ 100 ->
  key x1 <= key x2 ->
  key (SFdiv F32.prec F32.emax x1 c) <= key (SFdiv F32.prec F32.emax x2 c).
Proof.
  destruct x1 as [| | |[] m1 e1], x2 as [| | |[] m2 e2], c as [| | |[] mc ec];
    try discriminate; cbn [posfin posnorm].
  rewrite andb_true_iff, Z.leb_le. intros H1 H2 [Hc Hn] Hk H.
  assert (Hk2 : key (S754_finite false mc ec) <= key (S754_finite false m2 e2) * 2 ^ 100).
  { apply Z.le_trans with (1 := Hk). apply Z.mul_le_mono_nonneg_r; [|exact H].
    apply Z.lt_le_incl, pow2_pos; lia. }
  cbn [SFdiv xorb].
  destruct (div_core m1 e1 mc ec H1 Hc Hn Hk) as (q1 & e1' & l1 & s1 & -> & Hs1 & Hse1 & Hl1 & Hq1 & Ht1).
  destruct (div_core m2 e2 mc ec H2 Hc Hn Hk2) as (q2 & e2' & l2 & s2 & -> & Hs2 & Hse2 & Hl2 & Hq2 & Ht2).
  destruct (bounded_facts _ _ H1) as (? & _). destruct (bounded_facts _ _ H2) as (? & _).
  cbn [key] in H.
  apply (bra_mono q1 e1' l1 (Zpos m1 * 2 ^ s1) (Zpos mc)
                  q2 e2' l2 (Zpos m2 * 2 ^ s2) (Zpos mc)
                  (e1 + 149 + s2) (e2 + 149 + s1)
                  Hq1 ltac:(lia) Hl1 Hq2 ltac:(lia) Hl2 Ht1 Ht2); try lia.
  rewrite (pow2_add (e1 + 149) s2), (pow2_add (e2 + 149) s1) by lia.
  pose proof (pow2_pos s1 Hs1). pose proof (pow2_pos s2 Hs2).
  replace (Zpos m1 * 2 ^ s1 * Zpos mc * (2 ^ (e1 + 149) * 2 ^ s2))
    with (Zpos m1 * 2 ^ (e1 + 149) * (2 ^ s1 * 2 ^ s2 * Zpos mc)) by ring.
  replace (Zpos m2 * 2 ^ s2 * Zpos mc * (2 ^ (e2 + 149) * 2 ^ s1))
    with (Zpos m2 * 2 ^ (e2 + 149) * (2 ^ s1 * 2 ^ s2 * Zpos mc)) by ring.
  apply Z.mul_le_mono_nonneg_r; [nia | exact H].
Qed.

(** ** Exactly representable values and the rounding cast *)

Lemma binary_round_exact m e :
  Zpos m < 2 ^ 24 -> -149 <= e -> Zpos m * 2 ^ (e + 149) < 2 ^ 277 ->
  key (binary_round F32.prec F32.emax false m e) = Zpos m * 2 ^ (e + 149).
Proof.
  intros Hm He Hov.
  destruct (binary_round_as_bra m e) as (mz & k & Hk & Hmz & Hbr & Ht). rewrite Hbr.
  destruct (bra_key (Zpos mz) (e - k) loc_Exact (Zpos mz) 1 ltac:(lia) ltac:(lia)
              (located_exact _) Ht) as [_ ->].
  revert Ht. rewrite fexp_eq. cbn [Zdigits2].
  rewrite (digits_shift m mz k Hk Hmz).
  pose proof (Zdigits2_le (Zpos m) 24 ltac:(lia) ltac:(lia)) as Hd. cbn [Zdigits2] in Hd.
  set (t := Z.max (Zpos (digits2_pos m) + k + (e - k) - 24) (-149)).
  intros Ht.
  assert (Hte : t <= e) by (unfold t; lia).
  assert (Htk : 0 <= t - (e - k)) by lia.
  assert (Hdiv : Zpos mz = Zpos m * 2 ^ (e - t) * 2 ^ (t - (e - k))).
  { rewrite Hmz, <- Z.mul_assoc, <- pow2_add by lia. do 2 f_equal. lia. }
  rewrite Z.mul_1_l, Hdiv, rnq_exact by (apply pow2_pos; lia).
  rewrite <- Z.mul_assoc, <- pow2_add by (unfold t; lia).
  replace (e - t + (t + 149)) with (e + 149) by lia.
  apply Z.min_r. lia.
Qed.

Lemma binary_round_floor M ez K mw ew :
  -149 <= ez -> 0 < K < 2 ^ 24 -> Zpos mw < 2 ^ 24 -> -149 <= ew ->
  K * 2 ^ 149 <= Zpos M * 2 ^ (ez + 149) ->
  Zpos M * 2 ^ (ez + 149) <= Zpos mw * 2 ^ (ew + 149) ->
  Zpos mw * 2 ^ (ew + 149) < (K + 1) * 2 ^ 149 ->
  key_floor (key (binary_round F32.prec F32.emax false M ez)) = K.
Proof.
  intros Hez HK Hmw Hew Hlo Hmid Hhi.
  assert (HU : 0 < 2 ^ 149) by (apply pow2_pos; lia).
  assert (H277 : 2 ^ 24 * 2 ^ 149 <= 2 ^ 277).
  { rewrite <- pow2_add by lia. apply pow2_le. lia. }
  assert (HKp : Zpos (Z.to_pos K) = K) by (apply Z2Pos.id; lia).
  assert (L : K * 2 ^ 149 <= key (binary_round F32.prec F32.emax false M ez)).
  { apply Z.le_trans with (key (binary_round F32.prec F32.emax false (Z.to_pos K) 0)).
    - rewrite binary_round_exact; rewrite ?HKp; change (0 + 149) with 149; nia.
    - apply binary_round_mono with (p := 149) (q := ez + 149); lia. }
  assert (R : key (binary_round F32.prec F32.emax false M ez) < (K + 1) * 2 ^ 149).
  { apply Z.le_lt_trans with (key (binary_round F32.prec F32.emax false mw ew)).
    - apply binary_round_mono with (p := ez + 149) (q := ew + 149); lia.
    - rewrite binary_round_exact; lia. }
  unfold key_floor. symmetry.
  apply Z.div_unique with (key (binary_round F32.prec F32.emax false M ez) - K * 2 ^ 149);
    lia.
Qed.

Lemma round_half_up_key d :
  posfin d = true -> round_half_up d = (key d + 2 ^ 148) / 2 ^ 149.
Proof.
  destruct d as [| | |[] m e]; try discriminate. cbn [posfin round_half_up key].
  intros Hb. destruct (bounded_facts _ _ Hb) as (He & _).
  destruct (Z.leb_spec 0 e) as [L|G].
  - rewrite (pow2_add e 149) by lia.
    rewrite Z.mul_assoc, Z.div_add_l by (apply Z.pow_nonzero; lia).
    rewrite Z.div_small; [lia|].
    split; [apply Z.lt_le_incl, pow2_pos; lia|].
    apply Z.pow_lt_mono_r; lia.
  - assert (E1 : 2 * (Zpos m * 2 ^ (e + 149) + 2 ^ 148) =
                 (2 * Zpos m + 2 ^ (- e)) * 2 ^ (e + 149)).
    { rewrite Z.mul_add_distr_r, <- (pow2_add (- e) (e + 149)) by lia.
      replace (- e + (e + 149)) with (1 + 148) by lia.
      rewrite (pow2_add 1 148) by lia. change (2 ^ 1) with 2. ring. }
    assert (E2 : 2 * 2 ^ 149 = 2 ^ (1 - e) * 2 ^ (e + 149)).
    { rewrite <- (pow2_add (1 - e) (e + 149)) by lia.
      replace (1 - e + (e + 149)) with (1 + 149) by lia.
      rewrite (pow2_add 1 149) by lia. reflexivity. }
    rewrite <- (Z.div_mul_cancel_l (Zpos m * 2 ^ (e + 149) + 2 ^ 148) (2 ^ 149) 2)
      by (try apply Z.pow_nonzero; lia).
    rewrite E1, E2.
    rewrite Z.div_mul_cancel_r by (apply Z.pow_nonzero; lia). reflexivity.
Qed.

(** On the range of [dutyF], adding 0.5 in binary32 and truncating is
    rounding to the nearest integer, halves upward. *)
Lemma half_floor d :
  posfin d = true ->
  128 * 2 ^ 149 <= key d <= 1023 * 2 ^ 149 ->
  key_floor (key (F32.add d f_half)) = (key d + 2 ^ 148) / 2 ^ 149.
Proof.
  destruct d as [| | |[] md ed]; try discriminate. cbn [posfin].
  intros Hb [Hlo Hhi].
  destruct (bounded_facts _ _ Hb) as (He & Hmd & Hnorm).
  cbn [key] in Hlo, Hhi.
  assert (Hed : -16 <= ed <= -14).
  { split.
    - destruct (Z.le_gt_cases (-16) ed) as [|G]; [assumption|exfalso].
      assert (Zpos md * 2 ^ (ed + 149) < 2 ^ (24 + (ed + 149))) by (apply pow2_mul_lt; lia).
      assert (2 ^ (24 + (ed + 149)) <= 2 ^ 156) by (apply pow2_le; lia).
      change (2 ^ 156) with (128 * 2 ^ 149) in *. lia.
    - destruct (Z.le_gt_cases ed (-14)) as [|G]; [assumption|exfalso].
      assert (2 ^ (23 + (ed + 149)) <= Zpos md * 2 ^ (ed + 149)) by (apply pow2_mul_ge; lia).
      assert (2 ^ 159 <= 2 ^ (23 + (ed + 149))) by (apply pow2_le; lia).
      change (2 ^ 159) with (1024 * 2 ^ 149) in *. lia. }
  assert (Hh : bounded F32.prec F32.emax 8388608 (-24) = true) by reflexivity.
  destruct (add_as_round md ed 8388608 (-24) Hb Hh) as (M & EM & EA).
  change f_half with (S754_finite false 8388608 (-24)). unfold F32.add. rewrite EA.
  replace (Z.min ed (-24)) with (-24) in * by lia.
  cbn [key] in *. change (-24 + 149) with 125 in *.
  change (8388608 * 2 ^ 125) with (2 ^ 148) in EM.
  set (N := Zpos md * 2 ^ (ed + 149) + 2 ^ 148) in *.
  pose proof (Z.div_mod N (2 ^ 149) ltac:(apply Z.pow_nonzero; lia)) as HN.
  pose proof (Z.mod_pos_bound N (2 ^ 149) ltac:(apply pow2_pos; lia)) as HR.
  set (K := N / 2 ^ 149) in *. set (R := N mod 2 ^ 149) in *.
  assert (HK : 128 <= K <= 1023).
  { unfold N in HN.
    change (2 ^ 148) with 356811923176489970264571492362373784095686656 in *.
    change (2 ^ 149) with 713623846352979940529142984724747568191373312 in *.
    lia. }
  assert (Hmd23 : 2 ^ 23 <= Zpos md) by (apply Hnorm; lia).
  change (2 ^ 23) with 8388608 in Hmd23. change (2 ^ 24) with 16777216 in Hmd.
  assert (Hcase : ed = -16 \/ ed = -15 \/ ed = -14) by lia.
  destruct Hcase as [-> | [-> | ->]].
  - change (-16 + 149) with 133 in *. unfold N in HN.
    change (2 ^ 133) with 10889035741470030830827987437816582766592 in *.
    change (2 ^ 148) with 356811923176489970264571492362373784095686656 in *.
    change (2 ^ 149) with 713623846352979940529142984724747568191373312 in *.
    destruct (Z.le_gt_cases K 255) as [A|B].
    + apply binary_round_floor with (mw := Z.to_pos ((K + 1) * 65536 - 1)) (ew := -16);
        rewrite ?Z2Pos.id by lia; change (-16 + 149) with 133; change (-24 + 149) with 125;
        change (2 ^ 133) with 10889035741470030830827987437816582766592;
        change (2 ^ 149) with 713623846352979940529142984724747568191373312;
        change (2 ^ 24) with 16777216; try lia.
    + apply binary_round_floor with (mw := 513%positive) (ew := -1);
        change (-1 + 149) with 148; change (-24 + 149) with 125;
        change (2 ^ 148) with 356811923176489970264571492362373784095686656;
        change (2 ^ 149) with 713623846352979940529142984724747568191373312;
        change (2 ^ 24) with 16777216; try lia.
  - change (-15 + 149) with 134 in *. unfold N in HN.
    change (2 ^ 134) with 21778071482940061661655974875633165533184 in *.
    change (2 ^ 148) with 356811923176489970264571492362373784095686656 in *.
    change (2 ^ 149) with 713623846352979940529142984724747568191373312 in *.
    destruct (Z.le_gt_cases K 511) as [A|B].
    + apply binary_round_floor with (mw := Z.to_pos ((K + 1) * 32768 - 1)) (ew := -15);
        rewrite ?Z2Pos.id by lia; change (-15 + 149) with 134; change (-24 + 149) with 125;
        change (2 ^ 134) with 21778071482940061661655974875633165533184;
        change (2 ^ 149) with 713623846352979940529142984724747568191373312;
        change (2 ^ 24) with 16777216; try lia.
    + apply binary_round_floor with (mw := 1025%positive) (ew := -1);
        change (-1 + 149) with 148; change (-24 + 149) with 125;
        change (2 ^ 148) with 356811923176489970264571492362373784095686656;
        change (2 ^ 149) with 713623846352979940529142984724747568191373312;
        change (2 ^ 24) with 16777216; try lia.
  - change (-14 + 149) with 135 in *. unfold N in HN.
    change (2 ^ 135) with 43556142965880123323311949751266331066368 in *.
    change (2 ^ 148) with 356811923176489970264571492362373784095686656 in *.
    change (2 ^ 149) with 713623846352979940529142984724747568191373312 in *.
    apply binary_round_floor with (mw := Z.to_pos ((K + 1) * 16384 - 1)) (ew := -14);
      rewrite ?Z2Pos.id by lia; change (-14 + 149) with 135; change (-24 + 149) with 125;
      change (2 ^ 135) with 43556142965880123323311949751266331066368;
      change (2 ^ 149) with 713623846352979940529142984724747568191373312;
      change (2 ^ 24) with 16777216; try lia.
Qed.

(** ** Signed values: well-formedness and magnitude *)

Lemma with_sign_number s f : nnv f = true -> is_number (with_sign s f) = true.
Proof.
  destruct f as [[]|[]| |[] m e]; try discriminate; try reflexivity.
  cbn [nnv negb andb]. intros H.
  unfold is_number. cbn [with_sign valid_binary F32.is_nan negb].
  rewrite H. reflexivity.
Qed.

Lemma with_sign_key s f : key (with_sign s f) = key f.
Proof. destruct f; reflexivity. Qed.

Lemma result_with_sign s mant t :
  (if mant =? 2 ^ 24 then result_of s (2 ^ 23) (t + 1) else result_of s mant t) =
  with_sign s (if mant =? 2 ^ 24 then result_of false (2 ^ 23) (t + 1)
               else result_of false mant t).
Proof.
  destruct (mant =? 2 ^ 24).
  - change (2 ^ 23) with 8388608. unfold result_of. destruct (_ <=? _); reflexivity.
  - unfold result_of. destruct mant; try reflexivity. destruct (_ <=? _); reflexivity.
Qed.

Lemma bra_with_sign s m e l A B :
  0 < m -> 0 < B -> located (shr_record_of_loc m l) A B ->
  e <= fexp F32.prec F32.emax (Zdigits2 m + e) ->
  binary_round_aux F32.prec F32.emax s m e l =
  with_sign s (binary_round_aux F32.prec F32.emax false m e l).
Proof.
  intros Hm HB Hl Ht.
  destruct (bra_shape s m e l A B Hm HB Hl Ht) as (-> & _).
  destruct (bra_shape false m e l A B Hm HB Hl Ht) as (-> & _).
  apply result_with_sign.
Qed.

Lemma bra_number s m e l A B :
  0 < m -> 0 < B -> located (shr_record_of_loc m l) A B ->
  e <= fexp F32.prec F32.emax (Zdigits2 m + e) ->
  is_number (binary_round_aux F32.prec F32.emax s m e l) = true /\
  key (binary_round_aux F32.prec F32.emax s m e l) =
    key (binary_round_aux F32.prec F32.emax false m e l).
Proof.
  intros Hm HB Hl Ht. rewrite (bra_with_sign s m e l A B Hm HB Hl Ht).
  split; [|apply with_sign_key].
  apply with_sign_number. apply (bra_key m e l A B Hm HB Hl Ht).
Qed.

Lemma binary_round_number s m e :
  is_number (binary_round F32.prec F32.emax s m e) = true /\
  key (binary_round F32.prec F32.emax s m e) =
    key (binary_round F32.prec F32.emax false m e).
Proof.
  destruct (binary_round_as_bra m e) as (mz & k & Hk & Hm & Hbr & Ht).
  rewrite !Hbr.
  apply (bra_number s (Zpos mz) (e - k) loc_Exact (Zpos mz) 1); auto; try lia.
  apply located_exact.
Qed.

Lemma pow2_float_key j :
  -149 <= j <= 127 ->
  key (binary_round F32.prec F32.emax false 1 j) = 2 ^ (j + 149).
Proof.
  intros Hj.
  rewrite binary_round_exact;
    [ apply Z.mul_1_l
    | change (2 ^ 24) with 16777216; lia
    | lia
    | rewrite Z.mul_1_l; apply Z.pow_lt_mono_r; lia ].
Qed.

Lemma binary_round_mag m e j :
  -149 <= e -> -149 <= j <= 127 ->
  Zpos m * 2 ^ (e + 149) <= 2 ^ (j + 149) ->
  key (binary_round F32.prec F32.emax false m e) <= 2 ^ (j + 149).
Proof.
  intros He Hj H. rewrite <- (pow2_float_key j Hj).
  apply binary_round_mono with (p := e + 149) (q := j + 149); lia.
Qed.

Lemma normalize_mag z e j :
  -149 <= e -> -149 <= j <= 127 ->
  Z.abs z * 2 ^ (e + 149) <= 2 ^ (j + 149) ->
  mag_le (binary_normalize F32.prec F32.emax z e false) j.
Proof.
  intros He Hj H. unfold mag_le.
  destruct z as [|p|p]; cbn [binary_normalize Z.abs] in *.
  - split; [reflexivity|]. cbn [key]. apply Z.lt_le_incl, pow2_pos. lia.
  - split; [apply binary_round_number|]. apply binary_round_mag; auto.
  - destruct (binary_round_number true p e) as [Hn ->].
    split; [exact Hn|]. apply binary_round_mag; auto.
Qed.

Lemma of_int_mag z k :
  0 <= k <= 127 -> Z.abs z <= 2 ^ k -> mag_le (F32.of_int z) k.
Proof.
  intros Hk H. unfold F32.of_int. apply normalize_mag; try lia.
  change (0 + 149) with 149. rewrite pow2_add by lia.
  apply Z.mul_le_mono_nonneg_r; [apply Z.lt_le_incl, pow2_pos; lia | exact H].
Qed.

Lemma mag_le_weaken x j k : j <= k -> -149 <= j -> mag_le x j -> mag_le x k.
Proof.
  intros Hjk Hj [H1 H2]. split; [exact H1|].
  apply Z.le_trans with (1 := H2). apply pow2_le. lia.
Qed.

Lemma is_number_finite s m e :
  is_number (S754_finite s m e) = true -> bounded F32.prec F32.emax m e = true.
Proof. unfold is_number. cbn. rewrite andb_true_r. auto. Qed.

Lemma mag_le_not_inf s k : k <= 127 -> ~ mag_le (S754_infinity s) k.
Proof.
  intros Hk [_ H]. cbn [key] in H.
  assert (2 ^ (k + 149) < 2 ^ 277) by (apply Z.pow_lt_mono_r; lia). lia.
Qed.

Lemma mag_le_zero s k : -149 <= k -> mag_le (S754_zero s) k.
Proof.
  intros Hk. split; [reflexivity|]. cbn [key]. apply Z.lt_le_incl, pow2_pos. lia.
Qed.

Lemma cond_Zopp_abs s z : Z.abs (cond_Zopp s z) = Z.abs z.
Proof. destruct s; cbn; [apply Z.abs_opp | reflexivity]. Qed.

Lemma add_mag x y k :
  -149 <= k -> k + 1 <= 127 -> mag_le x k -> mag_le y k ->
  mag_le (F32.add x y) (k + 1).
Proof.
  intros Hk0 Hk Hx Hy.
  destruct x as [sx|sx| |sx mx ex];
    [ | exfalso; apply (mag_le_not_inf sx k); [lia | exact Hx]
      | destruct Hx as [Hx _]; discriminate Hx | ];
  (destruct y as [sy|sy| |sy my ey];
    [ | exfalso; apply (mag_le_not_inf sy k); [lia | exact Hy]
      | destruct Hy as [Hy _]; discriminate Hy | ]).
  - unfold F32.add. cbn [SFadd]. destruct sx, sy; apply mag_le_zero; lia.
  - unfold F32.add. cbn [SFadd]. apply mag_le_weaken with k; auto; lia.
  - unfold F32.add. cbn [SFadd]. apply mag_le_weaken with k; auto; lia.
  - destruct Hx as [Hnx Hkx], Hy as [Hny Hky].
    apply is_number_finite in Hnx, Hny.
    destruct (bounded_facts _ _ Hnx) as (Hex & _).
    destruct (bounded_facts _ _ Hny) as (Hey & _).
    unfold F32.add. cbn [SFadd key] in *.
    set (ez := Z.min ex ey).
    destruct (shl_align_spec mx ex ez ltac:(unfold ez; lia)) as [Ha _].
    destruct (shl_align_spec my ey ez ltac:(unfold ez; lia)) as [Hb _].
    apply normalize_mag; try (unfold ez; lia).
    eapply Z.le_trans.
    { apply Z.mul_le_mono_nonneg_r; [apply Z.lt_le_incl, pow2_pos; unfold ez; lia|].
      apply Z.abs_triangle. }
    rewrite !cond_Zopp_abs. cbn [Z.abs]. rewrite Ha, Hb.
    rewrite Z.mul_add_distr_r, <- !Z.mul_assoc.
    rewrite <- (pow2_add (ex - ez) (ez + 149)), <- (pow2_add (ey - ez) (ez + 149))
      by (unfold ez; lia).
    replace (ex - ez + (ez + 149)) with (ex + 149) by lia.
    replace (ey - ez + (ez + 149)) with (ey + 149) by lia.
    replace (k + 1 + 149) with (1 + (k + 149)) by lia.
    rewrite (pow2_add 1 (k + 149)) by lia. change (2 ^ 1) with 2. lia.
Qed.

Lemma sub_as_add x y : F32.sub x y = F32.add x (F32.neg y).
Proof.
  unfold F32.sub, F32.add, F32.neg.
  destruct x as [[]|[]| |sx mx ex], y as [[]|[]| |sy my ey]; try reflexivity.
  cbn [SFsub SFadd SFopp]. f_equal. unfold Z.sub. f_equal.
  destruct sy; reflexivity.
Qed.

Lemma neg_mag x k : mag_le x k -> mag_le (F32.neg x) k.
Proof. unfold mag_le, F32.neg. destruct x; auto. Qed.

Lemma sub_mag x y k :
  -149 <= k -> k + 1 <= 127 -> mag_le x k -> mag_le y k ->
  mag_le (F32.sub x y) (k + 1).
Proof.
  intros. rewrite sub_as_add. apply add_mag; auto using neg_mag.
Qed.

Lemma bra_mag m e l A B j p q :
  0 < m -> 0 < B -> located (shr_record_of_loc m l) A B ->
  e <= fexp F32.prec F32.emax (Zdigits2 m + e) ->
  -149 <= j <= 127 -> 0 <= p -> 0 <= q -> p - q = e - j ->
  A * 2 ^ p <= B * 2 ^ q ->
  key (binary_round_aux F32.prec F32.emax false m e l) <= 2 ^ (j + 149).
Proof.
  intros Hm HB Hl Ht Hj Hp Hq Hpq H.
  rewrite <- (pow2_float_key j Hj).
  destruct (binary_round_as_bra 1 j) as (mz & k & Hk & Hmz & Hbr & Htz).
  rewrite Hbr.
  apply (bra_mono m e l A B (Zpos mz) (j - k) loc_Exact (Zpos mz) 1 (p + k) q);
    auto using located_exact; try lia.
  rewrite Hmz, Z.mul_1_r, Z.mul_1_l, pow2_add by lia.
  pose proof (pow2_pos k Hk).
  replace (A * (2 ^ p * 2 ^ k)) with (A * 2 ^ p * 2 ^ k) by ring.
  replace (2 ^ k * B * 2 ^ q) with (B * 2 ^ q * 2 ^ k) by ring.
  apply Z.mul_le_mono_nonneg_r; lia.
Qed.

Lemma mul_enough_l mc ec mx ex :
  2 ^ 23 <= Zpos mc ->
  ec + ex <= fexp F32.prec F32.emax (Zdigits2 (Zpos (mc * mx)) + (ec + ex)).
Proof.
  intros Hc. rewrite fexp_eq. cbn [Zdigits2].
  pose proof (digits2_pos_bounds (mc * mx)) as [_ Hu].
  assert (23 < Zpos (digits2_pos (mc * mx))).
  { apply pow2_lt_inv; [lia|]. rewrite Pos2Z.inj_mul in Hu. nia. }
  lia.
Qed.

(** Multiplying by a normal constant of magnitude at most 1. *)
Lemma mul_mag c x k :
  posnorm c = true -> key c <= 2 ^ 149 -> -149 <= k <= 127 ->
  mag_le x k -> mag_le (F32.mul c x) k.
Proof.
  intros Hc Hkc Hk Hx.
  destruct c as [| | |[] mc ec]; try discriminate. cbn [posnorm] in Hc.
  apply andb_prop in Hc as [Hcb Hcn]. apply Z.leb_le in Hcn.
  destruct (bounded_facts _ _ Hcb) as (Hec & _).
  destruct x as [sx|sx| |sx mx ex].
  - unfold F32.mul. cbn [SFmul]. apply mag_le_zero. lia.
  - exfalso. apply (mag_le_not_inf sx k); [lia | exact Hx].
  - destruct Hx as [Hx _]. discriminate Hx.
  - destruct Hx as [Hnx Hkx]. apply is_number_finite in Hnx.
    destruct (bounded_facts _ _ Hnx) as (Hex & _).
    unfold F32.mul. cbn [SFmul key] in *.
    pose proof (mul_enough_l mc ec mx ex Hcn) as Ht.
    destruct (bra_number (xorb false sx) (Zpos (mc * mx)) (ec + ex) loc_Exact
                (Zpos (mc * mx)) 1 ltac:(lia) ltac:(lia) (located_exact _) Ht)
      as [Hn Hkey].
    split; [exact Hn|]. rewrite Hkey.
    apply (bra_mag _ _ _ (Zpos (mc * mx)) 1 k (ec + 149 + (ex + 149)) (k + 298));
      auto using located_exact; try lia.
    rewrite Pos2Z.inj_mul, Z.mul_1_l, (pow2_add (ec + 149) (ex + 149)) by lia.
    replace (k + 298) with (149 + (k + 149)) by lia.
    rewrite (pow2_add 149 (k + 149)) by lia.
    pose proof (pow2_pos (ec + 149) ltac:(lia)).
    pose proof (pow2_pos (ex + 149) ltac:(lia)).
    replace (Zpos mc * Zpos mx * (2 ^ (ec + 149) * 2 ^ (ex + 149)))
      with ((Zpos mc * 2 ^ (ec + 149)) * (Zpos mx * 2 ^ (ex + 149))) by ring.
    apply Z.mul_le_mono_nonneg; nia.
Qed.

(** Dividing by a normal constant of magnitude at least [2^-a]. *)
Lemma div_mag x c i a :
  posnorm c = true -> 2 ^ 149 <= key c * 2 ^ a -> 0 <= a ->
  -149 <= i -> i + a <= 127 ->
  mag_le x i ->
  (forall s m e, x = S754_finite s m e -> key c <= key x * 2 ^ 100) ->
  mag_le (F32.div x c) (i + a).
Proof.
  intros Hc Hca Ha Hi Hia Hx Hnu.
  destruct c as [| | |[] mc ec]; try discriminate. cbn [posnorm] in Hc.
  apply andb_prop in Hc as [Hcb Hcn]. apply Z.leb_le in Hcn.
  destruct (bounded_facts _ _ Hcb) as (Hec & _).
  destruct x as [sx|sx| |sx mx ex].
  - unfold F32.div. cbn [SFdiv]. apply mag_le_zero. lia.
  - exfalso. apply (mag_le_not_inf sx i); [lia | exact Hx].
  - destruct Hx as [Hx _]. discriminate Hx.
  - destruct Hx as [Hnx Hkx]. apply is_number_finite in Hnx.
    destruct (bounded_facts _ _ Hnx) as (Hex & _).
    specialize (Hnu sx mx ex eq_refl).
    destruct (div_core mx ex mc ec Hnx Hcb Hcn Hnu)
      as (q & e' & l & s & Hcore & Hs & Hse & Hl & Hq & Ht).
    unfold F32.div. cbn [SFdiv]. rewrite Hcore.
    destruct (bra_number (xorb sx false) q e' l (Zpos mx * 2 ^ s) (Zpos mc)
                Hq ltac:(lia) Hl Ht) as [Hn Hkey].
    split; [exact Hn|]. rewrite Hkey. cbn [key] in *.
    apply (bra_mag q e' l (Zpos mx * 2 ^ s) (Zpos mc) (i + a)
             (ex + 298) (i + a + ec + 298 + s) Hq ltac:(lia) Hl Ht); try lia.
    pose proof (pow2_pos s Hs) as Hps.
    pose proof (pow2_pos (ex + 149) ltac:(lia)).
    pose proof (pow2_pos (ec + 149) ltac:(lia)).
    pose proof (pow2_pos a Ha).
    replace (ex + 298) with ((ex + 149) + 149) by lia.
    replace (i + a + ec + 298 + s) with ((i + 149) + ((ec + 149) + (a + s))) by lia.
    rewrite (pow2_add (ex + 149) 149), (pow2_add (i + 149) (ec + 149 + (a + s))),
      (pow2_add (ec + 149) (a + s)), (pow2_add a s) by lia.
    replace (Zpos mx * 2 ^ s * (2 ^ (ex + 149) * 2 ^ 149))
      with ((Zpos mx * 2 ^ (ex + 149)) * 2 ^ 149 * 2 ^ s) by ring.
    replace (Zpos mc * (2 ^ (i + 149) * (2 ^ (ec + 149) * (2 ^ a * 2 ^ s))))
      with (2 ^ (i + 149) * (Zpos mc * 2 ^ (ec + 149) * 2 ^ a) * 2 ^ s) by ring.
    apply Z.mul_le_mono_nonneg_r; [lia|].
    apply Z.mul_le_mono_nonneg; lia.
Qed.

Lemma of_int_key_lower z : z <> 0 -> 2 ^ 149 <= key (F32.of_int z).
Proof.
  intros Hz. change (2 ^ 149) with (2 ^ (0 + 149)).
  rewrite <- (pow2_float_key 0) by lia. unfold F32.of_int.
  destruct z as [|p|p]; [contradiction| |]; cbn [binary_normalize].
  - apply binary_round_mono with (p := 149) (q := 149); lia.
  - destruct (binary_round_number true p 0) as [_ ->].
    apply binary_round_mono with (p := 149) (q := 149); lia.
Qed.

Lemma speed_mag z :
  Z.abs z <= 2 ^ 31 -> mag_le (F32.div (F32.of_int z) Ts) 36.
Proof.
  intros Hz. change 36 with (31 + 5).
  apply div_mag; [by_eval | by_eval | lia | lia | lia | | ].
  - apply of_int_mag; lia.
  - intros s m e E.
    assert (z <> 0) by (intros ->; discriminate E).
    pose proof (of_int_key_lower z H).
    apply Z.le_trans with (2 ^ 149 * 2 ^ 100); [by_eval|].
    apply Z.mul_le_mono_nonneg_r; [apply Z.lt_le_incl, pow2_pos; lia | exact H0].
Qed.

Lemma wrap32s_range z : Z.abs (wrap32s z) <= 2 ^ 31.
Proof.
  unfold wrap32s.
  pose proof (Z.mod_pos_bound (z + 2 ^ 31) (2 ^ 32) ltac:(lia)). lia.
Qed.

(** ** Comparisons and the integral clamp *)

Lemma I_MAX_value : I_MAX = S754_finite false 9830400 (-15).
Proof. reflexivity. Qed.

Lemma compare_cont_antisym_eq m1 m2 :
  Pos.compare_cont Eq m2 m1 = CompOpp (Pos.compare_cont Eq m1 m2).
Proof. symmetry. apply (Pos.compare_cont_antisym m1 m2 Eq). Qed.

Lemma SFcompare_antisym x y :
  SFcompare y x = option_map CompOpp (SFcompare x y).
Proof.
  destruct x as [[]|[]| |[] m1 e1], y as [[]|[]| |[] m2 e2]; try reflexivity;
    cbn [SFcompare option_map]; f_equal;
    rewrite (Z.compare_antisym e1 e2);
    destruct (e1 ?= e2); cbn [CompOpp]; try reflexivity;
    rewrite (compare_cont_antisym_eq m1 m2);
    destruct (Pos.compare_cont Eq m1 m2); reflexivity.
Qed.

(** For numbers, [not (y < x)] is [x <= y]. *)
Lemma not_lt_le x y :
  F32.is_nan x = false -> F32.is_nan y = false ->
  SFltb y x = false -> SFleb x y = true.
Proof.
  intros Hx Hy. unfold SFltb, SFleb. rewrite (SFcompare_antisym x y).
  destruct (SFcompare x y) as [[]|] eqn:E; cbn; try reflexivity; try discriminate.
  destruct x as [[]|[]| |[] ? ?], y as [[]|[]| |[] ? ?]; discriminate.
Qed.

Lemma clampI_in_range x :
  F32.is_nan x = false -> integral_in_range (clampI x) = true.
Proof.
  intros Hx. unfold integral_in_range, clampI, F32.gt, F32.lt, F32.le.
  destruct (SFltb I_MAX x) eqn:Hhi.
  - reflexivity.
  - destruct (SFltb x (F32.neg I_MAX)) eqn:Hlo.
    + reflexivity.
    + rewrite (not_lt_le x I_MAX Hx eq_refl Hhi).
      rewrite (not_lt_le (F32.neg I_MAX) x eq_refl Hx Hlo). reflexivity.
Qed.

Lemma clampI_number x : is_number x = true -> is_number (clampI x) = true.
Proof.
  intros Hx. unfold clampI.
  destruct (F32.gt x I_MAX); [reflexivity|].
  destruct (F32.lt x (F32.neg I_MAX)); [reflexivity | exact Hx].
Qed.

Lemma is_number_not_nan x : is_number x = true -> F32.is_nan x = false.
Proof.
  unfold is_number. destruct x; cbn [F32.is_nan negb]; try reflexivity.
  rewrite andb_false_r. discriminate.
Qed.

(** A number within the integral bounds has magnitude at most I_MAX. *)
Lemma in_range_key x :
  is_number x = true -> integral_in_range x = true -> key x <= key I_MAX.
Proof.
  intros Hn Hr. unfold integral_in_range, F32.le in Hr.
  apply andb_prop in Hr as [Hlo Hhi].
  destruct x as [s|[]| |[] m e]; try discriminate.
  - (* negative: compare the magnitudes through the lower bound *)
    apply is_number_finite in Hn.
    assert (E : SFleb (F32.neg I_MAX) (S754_finite true m e) =
                SFleb (S754_finite false m e) I_MAX).
    { rewrite I_MAX_value. unfold SFleb, F32.neg. cbn [SFopp SFcompare negb].
      rewrite (Z.compare_antisym (-15) e).
      destruct (-15 ?= e); cbn [CompOpp]; try reflexivity.
      rewrite (compare_cont_antisym_eq 9830400 m).
      destruct (Pos.compare_cont Eq 9830400 m); reflexivity. }
    rewrite E in Hlo. rewrite nnv_leb in Hlo; [|exact Hn|by_eval].
    apply Z.leb_le in Hlo. exact Hlo.
  - apply is_number_finite in Hn.
    rewrite nnv_leb in Hhi; [|exact Hn|by_eval].
    apply Z.leb_le in Hhi. exact Hhi.
Qed.

Lemma in_range_mag x :
  is_number x = true -> integral_in_range x = true -> mag_le x 9.
Proof.
  intros Hn Hr. split; [exact Hn|].
  apply Z.le_trans with (1 := in_range_key x Hn Hr). by_eval.
Qed.

(** * The duty computation

    ** The float-to-int cast in key space *)

Lemma to_int_key f :
  nnv f = true -> key f < 2 ^ 180 ->
  F32.to_int f = Some (key f / 2 ^ 149).
Proof.
  destruct f as [[]|[]| |[] m e]; cbn [nnv negb andb key]; try discriminate.
  - intros _ _. reflexivity.
  - intros Hb Hk. destruct (bounded_facts _ _ Hb) as (He & _).
    assert (Hv : F32.trunc_abs m e = Zpos m * 2 ^ (e + 149) / 2 ^ 149).
    { unfold F32.trunc_abs. destruct e as [|p|p].
      - rewrite Z.shiftl_0_r. change (0 + 149) with 149.
        rewrite Z.div_mul by (apply Z.pow_nonzero; lia). reflexivity.
      - rewrite Z.shiftl_mul_pow2 by lia.
        rewrite (pow2_add (Zpos p) 149) by lia.
        rewrite Z.mul_assoc, Z.div_mul by (apply Z.pow_nonzero; lia). reflexivity.
      - rewrite Z.shiftr_div_pow2 by lia.
        assert (E : 2 ^ 149 = 2 ^ (Zneg p + 149) * 2 ^ Zpos p).
        { rewrite <- pow2_add by lia. f_equal. lia. }
        rewrite E, Z.mul_comm.
        rewrite Z.div_mul_cancel_l; auto; apply Z.pow_nonzero; lia. }
    unfold F32.to_int. rewrite Hv.
    set (z := Zpos m * 2 ^ (e + 149) / 2 ^ 149).
    assert (0 <= z < 2 ^ 31).
    { unfold z. split.
      - apply Z.div_pos; [|apply pow2_pos; lia].
        pose proof (pow2_pos (e + 149) ltac:(lia)). nia.
      - apply Z.div_lt_upper_bound; [apply pow2_pos; lia|].
        rewrite <- pow2_add by lia. exact Hk. }
    unfold INT_MIN, INT_MAX.
    destruct (Z.leb_spec (- 2 ^ 31) z); [|lia].
    destruct (Z.leb_spec z (2 ^ 31 - 1)); [reflexivity|lia].
Qed.

(** ** Interval propagation through the operations *)

Lemma between_posfin lo hi x : between lo hi x -> posfin x = true.
Proof. intros [H _]. exact H. Qed.

Lemma posfin_key f : posfin f = true -> 0 < key f < 2 ^ 277.
Proof.
  destruct f as [| | |[] m e]; try discriminate. cbn [posfin].
  apply key_finite_bounds.
Qed.

Lemma between_of_bounds lo hi x :
  posfin lo = true -> posfin hi = true -> nnv x = true ->
  key lo <= key x <= key hi -> between lo hi x.
Proof.
  intros Hlo Hhi Hx Hk. split; [|exact Hk].
  apply posfin_of_key; auto.
  pose proof (posfin_key lo Hlo). pose proof (posfin_key hi Hhi). lia.
Qed.

Lemma mul_between lo hi c x :
  posfin lo = true -> posfin hi = true -> posnorm c = true ->
  posfin (F32.mul lo c) = true -> posfin (F32.mul hi c) = true ->
  between lo hi x -> between (F32.mul lo c) (F32.mul hi c) (F32.mul x c).
Proof.
  intros Hlo Hhi Hc Hlo' Hhi' [Hx Hk].
  apply between_of_bounds; auto.
  - apply mul_nnv; auto.
  - split; apply mul_key_mono; auto; lia.
Qed.

Lemma div_between lo hi c x :
  posfin lo = true -> posfin hi = true -> posnorm c = true ->
  key c <= key lo * 2 ^ 100 ->
  posfin (F32.div lo c) = true -> posfin (F32.div hi c) = true ->
  between lo hi x -> between (F32.div lo c) (F32.div hi c) (F32.div x c).
Proof.
  intros Hlo Hhi Hc Hu Hlo' Hhi' [Hx Hk].
  assert (Hux : key c <= key x * 2 ^ 100).
  { apply Z.le_trans with (1 := Hu).
    apply Z.mul_le_mono_nonneg_r; [apply Z.lt_le_incl, pow2_pos|]; lia. }
  apply between_of_bounds; auto.
  - apply div_nnv; auto.
  - split; apply div_key_mono; auto; lia.
Qed.

Lemma add_between_r lo hi c x :
  posfin lo = true -> posfin hi = true -> posfin c = true ->
  posfin (F32.add c lo) = true -> posfin (F32.add c hi) = true ->
  between lo hi x -> between (F32.add c lo) (F32.add c hi) (F32.add c x).
Proof.
  intros Hlo Hhi Hc Hlo' Hhi' [Hx Hk].
  apply between_of_bounds; auto.
  - apply add_nnv; auto.
  - split; apply add_key_mono; auto; lia.
Qed.

Lemma add_between_l lo hi c x :
  posfin lo = true -> posfin hi = true -> posfin c = true ->
  posfin (F32.add lo c) = true -> posfin (F32.add hi c) = true ->
  between lo hi x -> between (F32.add lo c) (F32.add hi c) (F32.add x c).
Proof.
  intros Hlo Hhi Hc Hlo' Hhi' [Hx Hk].
  apply between_of_bounds; auto.
  - apply add_nnv; auto.
  - split; apply add_key_mono; auto; lia.
Qed.

(** ** The duty computation on magnitudes between 1 and PWM_MAX *)

Lemma mul_stage mag :
  between f_one f_max mag ->
  between (F32.mul f_one f_span) (F32.mul f_max f_span) (F32.mul mag f_span).
Proof.
  intros H. apply mul_between; [by_eval | by_eval | by_eval | by_eval | by_eval | exact H].
Qed.

Lemma div_stage mag :
  between f_one f_max mag ->
  between (F32.div (F32.mul f_one f_span) f_max)
          (F32.div (F32.mul f_max f_span) f_max)
          (F32.div (F32.mul mag f_span) f_max).
Proof.
  intros H.
  apply div_between;
    [by_eval | by_eval | by_eval | by_eval | by_eval | by_eval | apply mul_stage, H].
Qed.

Lemma dutyF_raw_between mag :
  between f_one f_max mag ->
  between (dutyF_raw f_one) (dutyF_raw f_max) (dutyF_raw mag).
Proof.
  intros H. unfold dutyF_raw.
  apply add_between_r;
    [by_eval | by_eval | by_eval | by_eval | by_eval | apply div_stage, H].
Qed.

Lemma dutyF_raw_mono mag1 mag2 :
  between f_one f_max mag1 -> between f_one f_max mag2 ->
  key mag1 <= key mag2 ->
  key (dutyF_raw mag1) <= key (dutyF_raw mag2).
Proof.
  intros H1 H2 H.
  pose proof (mul_stage _ H1) as [Hp1 [Hk1 _]]. pose proof (mul_stage _ H2) as [Hp2 _].
  pose proof (div_stage _ H1) as [Hq1 _]. pose proof (div_stage _ H2) as [Hq2 _].
  unfold dutyF_raw.
  assert (Hc : posfin f_min_start = true) by by_eval.
  assert (Hn : posnorm f_max = true) by by_eval.
  assert (Hs : posnorm f_span = true) by by_eval.
  apply add_key_mono; auto.
  apply Z.add_le_mono_l.
  apply div_key_mono; auto.
  - apply Z.le_trans with (key (F32.mul f_one f_span) * 2 ^ 100); [by_eval|].
    apply Z.mul_le_mono_nonneg_r; [apply Z.lt_le_incl, pow2_pos; lia | exact Hk1].
  - apply mul_key_mono; auto; [apply H1 | apply H2].
Qed.

Lemma clampDutyF_id mag :
  between f_one f_max mag -> clampDutyF (dutyF_raw mag) = dutyF_raw mag.
Proof.
  intros H. destruct (dutyF_raw_between mag H) as [Hp [_ Hk]].
  assert (Hn : nnv f_max = true) by by_eval.
  unfold clampDutyF, F32.gt.
  rewrite nnv_ltb; [|exact Hn|apply posfin_nnv, Hp].
  destruct (Z.ltb_spec (key f_max) (key (dutyF_raw mag))) as [L|G];
    [|reflexivity].
  exfalso. revert L. apply Z.le_ngt. apply Z.le_trans with (1 := Hk). by_eval.
Qed.

Lemma half_stage mag :
  between f_one f_max mag ->
  between (F32.add (dutyF_raw f_one) f_half) (F32.add (dutyF_raw f_max) f_half)
          (F32.add (dutyF_raw mag) f_half).
Proof.
  intros H.
  apply add_between_l;
    [by_eval | by_eval | by_eval | by_eval | by_eval | apply dutyF_raw_between, H].
Qed.

Lemma duty_tail mag :
  between f_one f_max mag ->
  F32.to_int (F32.add (clampDutyF (dutyF_raw mag)) f_half) =
    Some (key_floor (key (F32.add (dutyF_raw mag) f_half))) /\
  MIN_DUTY_START < key_floor (key (F32.add (dutyF_raw mag) f_half)) <= PWM_MAX.
Proof.
  intros H. destruct (half_stage mag H) as [Hp [Hlo Hhi]].
  rewrite (clampDutyF_id mag H).
  assert (Hhi' : key (F32.add (dutyF_raw mag) f_half) < 1024 * 2 ^ 149).
  { apply Z.le_lt_trans with (1 := Hhi). by_eval. }
  split.
  - apply to_int_key; [apply posfin_nnv, Hp|].
    apply Z.lt_le_trans with (1 := Hhi'). by_eval.
  - unfold key_floor. split.
    + apply Z.lt_le_trans with (key_floor (key (F32.add (dutyF_raw f_one) f_half)));
        [by_eval|].
      apply Z.div_le_mono; [apply pow2_pos; lia | exact Hlo].
    + apply Z.le_trans with (key_floor (key (F32.add (dutyF_raw f_max) f_half)));
        [|by_eval].
      apply Z.div_le_mono; [apply pow2_pos; lia | exact Hhi].
Qed.

Lemma duty_tail_mono mag1 mag2 :
  between f_one f_max mag1 -> between f_one f_max mag2 ->
  key mag1 <= key mag2 ->
  key_floor (key (F32.add (dutyF_raw mag1) f_half)) <=
  key_floor (key (F32.add (dutyF_raw mag2) f_half)).
Proof.
  intros H1 H2 H. unfold key_floor.
  apply Z.div_le_mono; [apply pow2_pos; lia|].
  assert (Hh : posfin f_half = true) by by_eval.
  apply add_key_mono; auto.
  - apply (dutyF_raw_between _ H1).
  - apply (dutyF_raw_between _ H2).
  - apply Z.add_le_mono_r. apply dutyF_raw_mono; auto.
Qed.

Lemma lt_one_key mag :
  nnv mag = true -> F32.lt mag f_one = (key mag <? key f_one).
Proof. intros H. unfold F32.lt. apply nnv_ltb; [exact H | by_eval]. Qed.

Lemma clampMag_key mag :
  nnv mag = true -> key (clampMag mag) = Z.min (key mag) (key f_max).
Proof.
  intros H. unfold clampMag, F32.gt. rewrite nnv_ltb; [|by_eval|exact H].
  destruct (Z.ltb_spec (key f_max) (key mag)); lia.
Qed.

Lemma clampMag_between mag :
  nnv mag = true -> F32.lt mag f_one = false -> between f_one f_max (clampMag mag).
Proof.
  intros H Hlt. rewrite lt_one_key in Hlt by exact H. apply Z.ltb_ge in Hlt.
  assert (H1 : posfin f_one = true) by by_eval.
  assert (Hm : posfin f_max = true) by by_eval.
  assert (Hle : key f_one <= key f_max) by by_eval.
  apply between_of_bounds; auto.
  - unfold clampMag. destruct (F32.gt mag f_max); [apply posfin_nnv, Hm | exact H].
  - rewrite clampMag_key by exact H. lia.
Qed.

(** The duty produced for every non-negative magnitude. *)
Lemma duty_of_mag_nnv mag :
  nnv mag = true ->
  exists d, duty_of_mag mag = Some d /\
    (F32.lt mag f_one = true -> d = 0) /\
    (F32.lt mag f_one = false ->
       d = key_floor (key (F32.add (dutyF_raw (clampMag mag)) f_half)) /\
       MIN_DUTY_START < d <= PWM_MAX).
Proof.
  intros H. unfold duty_of_mag.
  destruct (F32.lt mag f_one) eqn:Hlt.
  - exists 0. repeat split; congruence.
  - destruct (duty_tail _ (clampMag_between mag H Hlt)) as [E B].
    rewrite E. eexists. split; [reflexivity|]. split; [discriminate|].
    intros _. split; [reflexivity | exact B].
Qed.

Lemma duty_of_mag_mono mag1 mag2 d1 d2 :
  nnv mag1 = true -> nnv mag2 = true ->
  F32.le f_one mag1 = true -> F32.le mag1 mag2 = true ->
  duty_of_mag mag1 = Some d1 -> duty_of_mag mag2 = Some d2 ->
  d1 <= d2.
Proof.
  intros H1 H2 Hge Hle E1 E2.
  assert (Hn1 : nnv f_one = true) by by_eval.
  unfold F32.le in Hge, Hle.
  rewrite nnv_leb in Hge by auto. rewrite nnv_leb in Hle by auto.
  apply Z.leb_le in Hge, Hle.
  assert (L1 : F32.lt mag1 f_one = false)
    by (rewrite lt_one_key by auto; apply Z.ltb_ge; lia).
  assert (L2 : F32.lt mag2 f_one = false)
    by (rewrite lt_one_key by auto; apply Z.ltb_ge; lia).
  destruct (duty_of_mag_nnv mag1 H1) as (d1' & E1' & _ & B1).
  destruct (duty_of_mag_nnv mag2 H2) as (d2' & E2' & _ & B2).
  rewrite E1 in E1'. rewrite E2 in E2'.
  injection E1' as <-. injection E2' as <-.
  destruct (B1 L1) as [-> _]. destruct (B2 L2) as [-> _].
  apply duty_tail_mono; auto using clampMag_between.
  rewrite !clampMag_key by auto. lia.
Qed.

(** * The Actuation Mapper *)

Lemma is_number_abs x : is_number x = true -> nnv (F32.fabsf x) = true.
Proof.
  unfold is_number. destruct x as [s|s| |s m e]; cbn; try reflexivity; try discriminate.
  rewrite andb_true_r. auto.
Qed.

Lemma applyMotor_duty m :
  applyMotor m =
    match duty_of_mag (F32.fabsf (u m)) with
    | None => None
    | Some dt =>
        let d := if F32.ge (u m) (F32.of_int 0) then 1 else -1 in
        Some ({| inA := inA m; inB := inB m; en := en m; ledc_ch := ledc_ch m;
                 pCount := pCount m; lastCount := lastCount m;
                 target := target m; speed := speed m; err := err m;
                 errPrev := errPrev m; integ := integ m; deriv := deriv m;
                 u := u m; duty := dt; dir := d |},
              if dt =? 0 then mkDrive false false dt
              else if d >? 0 then mkDrive true false dt
              else mkDrive false true dt)
    end.
Proof. reflexivity. Qed.

Lemma spec_duty_code mag :
  nnv mag = true -> F32.lt mag f_one = false ->
  key_floor (key (F32.add (dutyF_raw (clampMag mag)) f_half)) = spec_duty mag.
Proof.
  intros H Hlt.
  pose proof (dutyF_raw_between _ (clampMag_between mag H Hlt)) as [Hp [Hlo Hhi]].
  change (spec_duty mag) with (round_half_up (dutyF_raw (clampMag mag))).
  rewrite round_half_up_key by exact Hp.
  apply half_floor; [exact Hp|]. split.
  - apply Z.le_trans with (2 := Hlo). by_eval.
  - apply Z.le_trans with (1 := Hhi). by_eval.
Qed.

(** ** The duty against the formula in exact arithmetic *)

(** The check holds at every integer magnitude from 1 to PWM_MAX. *)
Lemma grid_all : forallb grid_ok (map Z.of_nat (seq 1 1023)) = true.
Proof. vm_compute. reflexivity. Qed.

Lemma grid_point j :
  1 <= j <= 1023 ->
  between f_one f_max (F32.of_int j) /\ key (F32.of_int j) = j * 2 ^ 149 /\
  Z.abs (1023 * key (dutyF_raw (F32.of_int j)) - (180 * 1023 + 843 * j) * 2 ^ 149)
    <= 1023 * 2 ^ 145.
Proof.
  intros Hj.
  assert (G : grid_ok j = true).
  { pose proof grid_all as A. rewrite forallb_forall in A. apply A.
    replace j with (Z.of_nat (Z.to_nat j)) by lia.
    apply in_map, in_seq. lia. }
  unfold grid_ok in G. apply andb_prop in G. destruct G as [G G3].
  apply andb_prop in G. destruct G as [G1 G2].
  apply Z.eqb_eq in G2. apply Z.leb_le in G3.
  split; [|split; assumption].
  split; [exact G1|]. rewrite G2.
  replace (key f_one) with (1 * 2 ^ 149) by by_eval.
  replace (key f_max) with (1023 * 2 ^ 149) by by_eval.
  assert (0 < 2 ^ 149) by (apply pow2_pos; lia). nia.
Qed.

(** Between two integers [dutyF] is caught by its values at both, so it
    stays within one count of the exact value, both scaled by
    [1023 * 2^149]. *)
Lemma dutyF_raw_near mag :
  between f_one f_max mag ->
  Z.abs (1023 * key (dutyF_raw mag) - (180 * 1023 * 2 ^ 149 + 843 * key mag))
    < 1023 * 2 ^ 149.
Proof.
  intros H. pose proof H as [Hp [Hlo Hhi]].
  replace (key f_one) with (1 * 2 ^ 149) in Hlo by by_eval.
  replace (key f_max) with (1023 * 2 ^ 149) in Hhi by by_eval.
  assert (HU : 0 < 2 ^ 149) by (apply pow2_pos; lia).
  assert (H145 : 2 ^ 149 = 16 * 2 ^ 145) by reflexivity.
  set (k := key mag / 2 ^ 149).
  pose proof (Z.div_mod (key mag) (2 ^ 149) ltac:(lia)) as Hdm.
  pose proof (Z.mod_pos_bound (key mag) (2 ^ 149) HU) as Hr.
  fold k in Hdm.
  assert (Hk : 1 <= k <= 1023) by nia.
  destruct (grid_point k Hk) as (Bk & Kk & Gk).
  pose proof (dutyF_raw_mono _ _ Bk H ltac:(lia)) as Mlo.
  destruct (Z.eq_dec k 1023) as [E|NE].
  - pose proof (dutyF_raw_mono _ _ H Bk ltac:(lia)) as Mhi.
    assert (key (dutyF_raw mag) = key (dutyF_raw (F32.of_int k))) by lia.
    lia.
  - destruct (grid_point (k + 1) ltac:(lia)) as (Bk1 & Kk1 & Gk1).
    pose proof (dutyF_raw_mono _ _ H Bk1 ltac:(lia)) as Mhi.
    lia.
Qed.

(** Numerators less than a divisor apart have quotients at most 1 apart. *)
Lemma div_close x y c : 0 < c -> Z.abs (x - y) < c -> Z.abs (x / c - y / c) <= 1.
Proof.
  intros Hc H.
  assert (A : x / c <= y / c + 1).
  { rewrite <- (Z.div_add y 1 c) by lia. apply Z.div_le_mono; lia. }
  assert (B : y / c <= x / c + 1).
  { rewrite <- (Z.div_add x 1 c) by lia. apply Z.div_le_mono; lia. }
  lia.
Qed.

Lemma Qpower2_units e :
  -149 <= e -> (Qpower 2 e == (2 ^ (e + 149)) # (2 ^ 149))%Q.
Proof.
  intros He.
  replace e with ((e + 149) + (-149)) at 1 by lia.
  rewrite Qpower_plus by discriminate.
  change 2%Q with (inject_Z 2) at 1.
  rewrite <- Zpower_Qpower by lia.
  change (Qpower 2 (-149)) with (/ Qpower_positive 2 149)%Q.
  assert (E : (/ Qpower_positive 2 149 == 1 # (2 ^ 149))%Q) by (vm_compute; reflexivity).
  rewrite E. unfold Qeq, Qmult, inject_Z. cbn [Qnum Qden]. 
  rewrite Pos.mul_1_l. ring.
Qed.

(** The key of a positive finite float is its value in units of 2^-149. *)
Lemma Q_of_float_key x :
  posfin x = true -> (Q_of_float x == key x # (2 ^ 149))%Q.
Proof.
  destruct x as [| | |[] m e]; try discriminate. cbn [posfin Q_of_float key cond_Zopp].
  intros Hb. destruct (bounded_facts _ _ Hb) as (He & _).
  rewrite Qpower2_units by lia.
  unfold Qeq, Qmult, inject_Z. cbn [Qnum Qden]. rewrite Pos.mul_1_l. ring.
Qed.

Lemma exact_min_mag_key mag :
  nnv mag = true -> F32.lt mag f_one = false ->
  (exact_min_mag mag == key (clampMag mag) # (2 ^ 149))%Q.
Proof.
  intros H Hlt. pose proof (clampMag_between mag H Hlt) as [Hp _].
  revert Hp. unfold exact_min_mag, clampMag, F32.gt, F32.lt.
  change (F32.of_int DUTY_MAX) with f_max.
  destruct (SFltb f_max mag).
  - intros _. vm_compute. reflexivity.
  - apply Q_of_float_key.
Qed.

Lemma dutyF_exact_frac (K : Z) (U : positive) :
  (inject_Z MIN_DUTY_START +
     (K # U) * inject_Z (DUTY_MAX - MIN_DUTY_START) / inject_Z DUTY_MAX + (1 # 2) ==
   (2 * (180 * 1023 * Zpos U + 843 * K) + 1023 * Zpos U) # (2 * (1023 * U)))%Q.
Proof.
  change (inject_Z MIN_DUTY_START) with (180 # 1)%Q.
  change (inject_Z (DUTY_MAX - MIN_DUTY_START)) with (843 # 1)%Q.
  change (inject_Z DUTY_MAX) with (1023 # 1)%Q.
  cbv beta iota delta [Qeq Qplus Qmult Qdiv Qinv Qnum Qden].
  rewrite ?Pos2Z.inj_mul. ring.
Qed.

(** The exactly rounded formula as an integer quotient. *)
Lemma spec_duty_exact_key mag :
  nnv mag = true -> F32.lt mag f_one = false ->
  spec_duty_exact mag =
    (2 * (180 * 1023 * 2 ^ 149 + 843 * key (clampMag mag)) + 1023 * 2 ^ 149)
      / (2 * (1023 * 2 ^ 149)).
Proof.
  intros H Hlt. unfold spec_duty_exact, exact_dutyF.
  rewrite (Qfloor_comp _ _
             (Qplus_comp _ _ (Qplus_comp _ _ (Qeq_refl _) _ _
                (Qdiv_comp _ _ (Qmult_comp _ _ (exact_min_mag_key mag H Hlt) _ _ (Qeq_refl _))
                   _ _ (Qeq_refl _))) _ _ (Qeq_refl _))).
  rewrite (Qfloor_comp _ _ (dutyF_exact_frac _ _)).
  reflexivity.
Qed.

(** The duty the code computes is within one count of the exactly rounded
    formula. *)
Lemma duty_near_exact mag :
  nnv mag = true -> F32.lt mag f_one = false ->
  Z.abs (key_floor (key (F32.add (dutyF_raw (clampMag mag)) f_half)) - spec_duty_exact mag)
    <= 1.
Proof.
  intros H Hlt.
  pose proof (clampMag_between mag H Hlt) as Hb.
  pose proof (dutyF_raw_between _ Hb) as [Hp [Hlo Hhi]].
  rewrite (half_floor _ Hp).
  2:{ split.
      - apply Z.le_trans with (2 := Hlo). by_eval.
      - apply Z.le_trans with (1 := Hhi). by_eval. }
  rewrite (spec_duty_exact_key mag H Hlt).
  pose proof (dutyF_raw_near _ Hb) as Hn.
  set (F := key (dutyF_raw (clampMag mag))) in *.
  set (K := key (clampMag mag)) in *.
  assert (HU : 0 < 2 ^ 149) by (apply pow2_pos; lia).
  assert (H148 : 2 ^ 149 = 2 * 2 ^ 148) by reflexivity.
  replace ((F + 2 ^ 148) / 2 ^ 149)
    with ((1023 * (2 * F + 2 ^ 149)) / (2 * (1023 * 2 ^ 149))).
  - apply div_close; lia.
  - replace (2 * (1023 * 2 ^ 149)) with ((1023 * 2) * 2 ^ 149) by ring.
    replace (1023 * (2 * F + 2 ^ 149)) with ((1023 * 2) * (F + 2 ^ 148)) by lia.
    apply Z.div_mul_cancel_l; lia.
Qed.

(** C5: For every effort u the Actuation Mapper yields direction +1 when
    u >= 0 and -1 otherwise; when |u| < 1 the duty is 0 and both direction
    pins are released; otherwise the duty is
    round(MIN_DUTY_START + min(|u|, DUTY_MAX) * (DUTY_MAX - MIN_DUTY_START)
    / DUTY_MAX) with the product, the quotient and the sum each rounded to
    binary32, which is within one count of the formula evaluated in exact
    arithmetic; it is at least MIN_DUTY_START and the pins follow the
    direction; in every case 0 <= duty <= DUTY_MAX and the duty is what is
    written to the PWM. *)
Theorem actuation_mapper_contract (m : Motor) :
  is_number (u m) = true ->
  exists m' d,
    applyMotor m = Some (m', d) /\
    dir m' = (if F32.ge (u m) (F32.of_int 0) then 1 else -1) /\
    pwm d = duty m' /\
    (F32.lt (F32.fabsf (u m)) (F32.of_int 1) = true ->
       duty m' = 0 /\ pinA d = false /\ pinB d = false) /\
    (F32.lt (F32.fabsf (u m)) (F32.of_int 1) = false ->
       duty m' = spec_duty (F32.fabsf (u m)) /\
       Z.abs (duty m' - spec_duty_exact (F32.fabsf (u m))) <= 1 /\
       MIN_DUTY_START <= duty m' /\
       pinA d = (dir m' >? 0) /\ pinB d = negb (dir m' >? 0)) /\
    0 <= duty m' <= DUTY_MAX.
Proof.
  intros Hu. pose proof (is_number_abs _ Hu) as Hn.
  destruct (duty_of_mag_nnv _ Hn) as (dt & E & Hz & Hnz).
  rewrite applyMotor_duty, E. cbv zeta.
  eexists _, _. split; [reflexivity|]. cbn [dir duty].
  split; [reflexivity|]. split; [destruct (dt =? 0); [|destruct (_ >? 0)]; reflexivity|].
  change (F32.of_int 1) with f_one.
  destruct (F32.lt (F32.fabsf (u m)) f_one) eqn:Hlt.
  - rewrite (Hz eq_refl). cbn. repeat split; try discriminate; unfold DUTY_MAX; by_eval.
  - destruct (Hnz eq_refl) as [Ed B].
    split; [discriminate|]. split.
    + intros _. pose proof (duty_near_exact _ Hn Hlt) as Hx.
      rewrite <- (spec_duty_code _ Hn Hlt), <- Ed. rewrite <- Ed in Hx.
      split; [reflexivity|]. split; [exact Hx|]. split; [lia|].
      destruct (Z.eqb_spec dt 0) as [Z0|_]; [unfold MIN_DUTY_START in B; lia|].
      destruct (_ >? 0); split; reflexivity.
    + unfold DUTY_MAX, MIN_DUTY_START in *. lia.
Qed.

Lemma actuation_mapper_contract_witness :
  (exists m' d, applyMotor effort_1304 = Some (m', d) /\ duty m' = 1023 /\ dir m' = 1) /\
  (exists m' d, applyMotor effort_half = Some (m', d) /\ duty m' = 0 /\ dir m' = -1 /\
                pinA d = false /\ pinB d = false).
Proof.
  split.
  - destruct (actuation_mapper_contract effort_1304 eq_refl)
      as (m' & d & E & Hd & _ & _ & Hnz & _).
    exists m', d. split; [exact E|].
    destruct (Hnz eq_refl) as (Ed & _). split; [rewrite Ed; reflexivity | exact Hd].
  - destruct (actuation_mapper_contract effort_half eq_refl)
      as (m' & d & E & Hd & _ & Hz & _ & _).
    exists m', d. split; [exact E|].
    destruct (Hz eq_refl) as (Ed & Ha & Hb). repeat split; assumption.
Defined.

(** The formula of section 4.4 in exact arithmetic is not what the code
    computes.  After the three commands of [near_tie_run] the left effort
    lies outside the dead zone, the exact value of the formula lies strictly
    between 579.5 and 580.5, so it rounds to 580 whatever the treatment of
    halves, and the Actuation Mapper has produced the duty 581: in binary32
    the quotient rounds up to 400.5, the sum is 580.5 and the cast of
    580.5 + 0.5 gives 581. *)
Lemma actuation_duty_off_exact_formula :
  run near_tie_run Sys_init = Some near_tie_state /\
  is_number (u (M1 near_tie_state)) = true /\
  F32.lt (F32.fabsf (u (M1 near_tie_state))) (F32.of_int 1) = false /\
  applyMotor (M1 near_tie_state) = Some (M1 near_tie_state, drive1 near_tie_state) /\
  duty (M1 near_tie_state) = 581 /\
  pwm (drive1 near_tie_state) = 581 /\
  (inject_Z 580 - (1 # 2) < exact_dutyF (F32.fabsf (u (M1 near_tie_state))))%Q /\
  (exact_dutyF (F32.fabsf (u (M1 near_tie_state))) < inject_Z 580 + (1 # 2))%Q /\
  spec_duty_exact (F32.fabsf (u (M1 near_tie_state))) = 580 /\
  duty (M1 near_tie_state) <> spec_duty_exact (F32.fabsf (u (M1 near_tie_state))).
Proof.
  repeat split; try (vm_compute; reflexivity). vm_compute. discriminate.
Qed.

Lemma applyMotor_duty_of m m' d :
  applyMotor m = Some (m', d) -> duty_of_mag (F32.fabsf (u m)) = Some (duty m').
Proof.
  rewrite applyMotor_duty.
  destruct (duty_of_mag (F32.fabsf (u m))) as [dt|]; [|discriminate].
  cbv zeta. intros E. injection E as <- _. reflexivity.
Qed.

(** C6: The duty is monotonically non-decreasing in |u| for |u| >= 1, and
    it is 0 exactly when |u| < 1. *)
Theorem duty_monotone_in_magnitude (m1 m2 m1' m2' : Motor) (d1 d2 : Drive) :
  is_number (u m1) = true -> is_number (u m2) = true ->
  applyMotor m1 = Some (m1', d1) -> applyMotor m2 = Some (m2', d2) ->
  (F32.le (F32.of_int 1) (F32.fabsf (u m1)) = true ->
   F32.le (F32.fabsf (u m1)) (F32.fabsf (u m2)) = true ->
   duty m1' <= duty m2') /\
  (duty m1' = 0 <-> F32.lt (F32.fabsf (u m1)) (F32.of_int 1) = true).
Proof.
  intros H1 H2 E1 E2.
  apply is_number_abs in H1, H2.
  apply applyMotor_duty_of in E1, E2.
  split.
  - intros Hge Hle. apply (duty_of_mag_mono _ _ _ _ H1 H2 Hge Hle E1 E2).
  - destruct (duty_of_mag_nnv _ H1) as (dt & E & Hz & Hnz).
    rewrite E1 in E. injection E as <-.
    change (F32.of_int 1) with f_one.
    destruct (F32.lt (F32.fabsf (u m1)) f_one).
    + split; auto.
    + destruct (Hnz eq_refl) as [_ B]. unfold MIN_DUTY_START in B.
      split; [lia | discriminate].
Qed.

Lemma duty_monotone_in_magnitude_witness :
  duty (fst applied_neg5) = 184 /\ duty (fst applied_1304) = 1023 /\
  duty (fst applied_neg5) <= duty (fst applied_1304) /\
  (duty (fst applied_neg5) = 0 <->
   F32.lt (F32.fabsf (u effort_neg5)) (F32.of_int 1) = true).
Proof.
  assert (E1 : applyMotor effort_neg5 = Some (fst applied_neg5, snd applied_neg5))
    by (vm_compute; reflexivity).
  assert (E2 : applyMotor effort_1304 = Some (fst applied_1304, snd applied_1304))
    by (vm_compute; reflexivity).
  assert (N1 : is_number (u effort_neg5) = true) by (vm_compute; reflexivity).
  assert (N2 : is_number (u effort_1304) = true) by (vm_compute; reflexivity).
  destruct (duty_monotone_in_magnitude _ _ _ _ _ _ N1 N2 E1 E2) as [Hm Hz].
  split; [reflexivity|]. split; [reflexivity|].
  split; [apply Hm; vm_compute; reflexivity | exact Hz].
Defined.

(** * The PID step *)

Lemma applyMotor_frame m m' d :
  applyMotor m = Some (m', d) ->
  inA m' = inA m /\ inB m' = inB m /\ en m' = en m /\ ledc_ch m' = ledc_ch m /\
  pCount m' = pCount m /\ lastCount m' = lastCount m /\ target m' = target m /\
  speed m' = speed m /\ err m' = err m /\ errPrev m' = errPrev m /\
  integ m' = integ m /\ deriv m' = deriv m /\ u m' = u m.
Proof.
  unfold applyMotor.
  destruct (if F32.lt (F32.fabsf (u m)) (F32.of_int 1) then _ else _) as [dt|];
    [|discriminate].
  intros E. injection E as <- _. cbn. repeat split.
Qed.

Lemma clampI_spec x : clampI x = spec_clamp (F32.neg I_MAX) I_MAX x.
Proof.
  unfold clampI, spec_clamp, F32.gt, F32.lt, F32.neg. rewrite I_MAX_value.
  destruct x as [[]|[]| |[] m e]; try reflexivity;
    cbn [SFopp SFltb SFcompare negb];
    repeat match goal with
           | |- context [match ?c with Eq => _ | Lt => _ | Gt => _ end] =>
               destruct c; cbn [SFltb SFcompare]
           end; reflexivity.
Qed.

Lemma saturatingHigh_spec m :
  duty m <= DUTY_MAX -> saturatingHigh m = spec_saturating_high m.
Proof.
  intros H. unfold saturatingHigh, spec_saturating_high, DUTY_MAX in *.
  f_equal. rewrite Z.geb_leb.
  destruct (Z.leb_spec PWM_MAX (duty m)), (Z.eqb_spec (duty m) PWM_MAX); auto; lia.
Qed.

Lemma saturatingLow_spec m :
  duty m <= DUTY_MAX -> saturatingLow m = spec_saturating_low m.
Proof.
  intros H. unfold saturatingLow, spec_saturating_low, DUTY_MAX in *.
  f_equal. rewrite Z.geb_leb.
  destruct (Z.leb_spec PWM_MAX (duty m)), (Z.eqb_spec (duty m) PWM_MAX); auto; lia.
Qed.

(** [pidStep] is the Actuation Mapper applied to the state section 4.3 describes. *)
Lemma pidStep_spec m :
  duty m <= DUTY_MAX -> pidStep m = applyMotor (spec_pid m).
Proof.
  intros H. unfold pidStep, pid_update, spec_pid, spec_integral, spec_skip.
  rewrite (saturatingHigh_spec m H), (saturatingLow_spec m H), clampI_spec.
  set (e := F32.sub (target m) (speed m)).
  destruct (spec_saturating_high m && F32.gt e (F32.of_int 0));
    destruct (spec_saturating_low m && F32.lt e (F32.of_int 0)); reflexivity.
Qed.

Lemma pidStep_integ m m' d :
  duty m <= DUTY_MAX -> pidStep m = Some (m', d) -> integ m' = spec_integral m.
Proof.
  intros H E. rewrite (pidStep_spec m H) in E.
  apply applyMotor_frame in E. apply E.
Qed.

Lemma spec_skip_keeps m :
  spec_skip m (F32.sub (target m) (speed m)) = true -> spec_integral m = integ m.
Proof. intros H. unfold spec_integral. rewrite H. reflexivity. Qed.

(** C1: In every PID step the integral update is skipped exactly when the
    channel was saturating high (previous duty equal to DUTY_MAX and previous
    effort at least DUTY_MAX) with a positive error, or saturating low with a
    negative error; otherwise Ki * error is added and the sum is clamped to
    [-I_MAX, I_MAX].  When the channel is saturating high with a positive
    error at two consecutive steps, the integral after the second step equals
    the integral after the first. *)
Theorem pid_integral_anti_windup (m m1 : Motor) (d1 : Drive) :
  duty m <= DUTY_MAX ->
  pidStep m = Some (m1, d1) ->
  integ m1 = spec_integral m /\
  (spec_skip m (F32.sub (target m) (speed m)) = true -> integ m1 = integ m) /\
  (spec_skip m (F32.sub (target m) (speed m)) = false ->
     integ m1 = spec_clamp (F32.neg I_MAX) I_MAX
                  (F32.add (integ m)
                     (F32.mul Ki (F32.sub (target m) (speed m))))) /\
  forall (t : float) (cnt : Z) (m2 : Motor) (d2 : Drive),
    let n := updateSpeed cnt (set_target m1 t) in
    spec_saturating_high m = true ->
    F32.gt (F32.sub (target m) (speed m)) (F32.of_int 0) = true ->
    spec_saturating_high m1 = true ->
    F32.gt (F32.sub (target n) (speed n)) (F32.of_int 0) = true ->
    pidStep n = Some (m2, d2) ->
    integ m1 = integ m /\ integ m2 = integ m1.
Proof.
  intros Hd E. pose proof (pidStep_integ m m1 d1 Hd E) as Hi.
  split; [exact Hi|]. split; [|split].
  - intros Hs. rewrite Hi. apply spec_skip_keeps, Hs.
  - intros Hs. rewrite Hi. unfold spec_integral. rewrite Hs. reflexivity.
  - intros t cnt m2 d2 n Hs0 He0 Hs1 He E2.
    split.
    { rewrite Hi. apply spec_skip_keeps. unfold spec_skip.
      rewrite Hs0, He0. reflexivity. }
    assert (Hd1 : duty n <= DUTY_MAX).
    { unfold spec_saturating_high in Hs1. apply andb_prop in Hs1 as [Hq _].
      apply Z.eqb_eq in Hq. unfold n. cbn [duty updateSpeed set_target].
      rewrite Hq. apply Z.le_refl. }
    rewrite (pidStep_integ n m2 d2 Hd1 E2).
    rewrite spec_skip_keeps; [reflexivity|].
    unfold spec_skip.
    change (spec_saturating_high n) with (spec_saturating_high m1).
    rewrite Hs1, He. reflexivity.
Qed.

Lemma pid_integral_anti_windup_witness :
  integ (fst sat_step2) = spec_integral sat_state /\
  integ (fst sat_step2) = integ sat_state /\
  integ (fst sat_step3) = integ (fst sat_step2).
Proof.
  assert (Hd : duty sat_state <= DUTY_MAX) by (vm_compute; discriminate).
  assert (E1 : pidStep sat_state = Some (fst sat_step2, snd sat_step2))
    by (vm_compute; reflexivity).
  destruct (pid_integral_anti_windup sat_state (fst sat_step2) (snd sat_step2) Hd E1)
    as (H1 & _ & _ & H4).
  split; [exact H1|].
  apply (H4 (F32.of_int 1000) 0 (fst sat_step3) (snd sat_step3));
    vm_compute; reflexivity.
Defined.

(** * Scenario 2: the first step from rest *)

(** C7: With Kp = 1, Ki = 0.40, Kd = 0.004, I_MAX = 300, DUTY_MAX = 1023 and
    MIN_DUTY_START = 180, the first PID step from rest with target 1000 and
    measured speed 0 gives error 1000, P = 1000, an integral of 400 clamped
    to 300, D = 4 and u = 1304, and the Actuation Mapper then produces full
    duty 1023 with direction +1. *)
Theorem first_step_from_rest :
  Kp = F32.of_int 1 /\ Ki = F32.dec 40 100 /\ Kd = F32.dec 4 1000 /\
  I_MAX = F32.of_int 300 /\ DUTY_MAX = 1023 /\ MIN_DUTY_START = 180 /\
  integ rest_1000 = F32.of_int 0 /\ errPrev rest_1000 = F32.of_int 0 /\
  duty rest_1000 = 0 /\ u rest_1000 = F32.of_int 0 /\
  target rest_1000 = F32.of_int 1000 /\ speed rest_1000 = F32.of_int 0 /\
  F32.mul Kp (F32.of_int 1000) = F32.of_int 1000 /\
  F32.add (integ rest_1000) (F32.mul Ki (F32.of_int 1000)) = F32.of_int 400 /\
  clampI (F32.of_int 400) = F32.of_int 300 /\
  exists m' d,
    pidStep rest_1000 = Some (m', d) /\
    err m' = F32.of_int 1000 /\ integ m' = F32.of_int 300 /\
    deriv m' = F32.of_int 4 /\ u m' = F32.of_int 1304 /\
    duty m' = 1023 /\ dir m' = 1 /\ pwm d = 1023.
Proof.
  repeat (split; [reflexivity|]).
  exists sat_state, (mkDrive true false 1023).
  repeat split; reflexivity.
Qed.

(** * Command sources *)

Lemma set_target_frame m t : same_but_target m (set_target m t).
Proof. unfold same_but_target. cbn. repeat split. Qed.

(** C8: A stop command, the serial line "stop" or the HTTP request /stop,
    sets both targets to 0 and changes no other field of either motor
    (integral, duty, direction, speed, error, previous error and effort
    included), nor the counters, the tick reference or the pins. *)
Theorem stop_only_resets_targets (s : Sys) (line : string) (rq : Request) :
  (equalsIgnoreCase (trim line) "stop" = true ->
   stop_effect s (fst (handleSerial (Some line) s))) /\
  (uri rq = "/stop"%string ->
   stop_effect s (fst (handleClient (Some rq) s))).
Proof.
  assert (H : stop_effect s (set_targets s (F32.of_int 0) (F32.of_int 0))).
  { unfold stop_effect, same_but_target. cbn. repeat split. }
  split.
  - intros Hstop. unfold handleSerial.
    destruct (String.length (trim line) =? 0)%nat eqn:L.
    + apply Nat.eqb_eq in L.
      destruct (trim line); [discriminate Hstop | discriminate L].
    + rewrite Hstop. exact H.
  - intros Huri. unfold handleClient. rewrite Huri. exact H.
Qed.

Lemma stop_only_resets_targets_witness :
  stop_effect running_1500 (fst (handleSerial (Some "  STOP "%string) running_1500)) /\
  stop_effect running_1500
    (fst (handleClient (Some (mkRequest "/stop" [])) running_1500)).
Proof.
  destruct (stop_only_resets_targets running_1500 "  STOP "%string
              (mkRequest "/stop" [])) as [H1 H2].
  split; [apply H1 | apply H2]; reflexivity.
Defined.

Lemma constrain_bounds amt low high :
  low <= high -> low <= constrain amt low high <= high.
Proof.
  intros H. unfold constrain.
  destruct (Z.ltb_spec amt low); [lia|].
  rewrite Z.gtb_ltb. destruct (Z.ltb_spec high amt); lia.
Qed.

(** The HTTP /cmd handler clamps both setpoints to the safety bound. *)
Lemma handleCmd_clamps rq s :
  hasArg rq "l" = true -> hasArg rq "r" = true ->
  exists l r, - CMD_CLAMP <= l <= CMD_CLAMP /\ - CMD_CLAMP <= r <= CMD_CLAMP /\
    target (M1 (fst (handleCmd rq s))) = F32.of_int l /\
    target (M2 (fst (handleCmd rq s))) = F32.of_int r.
Proof.
  intros Hl Hr. unfold handleCmd. rewrite Hl, Hr. cbn [negb orb fst].
  eexists _, _. split; [|split; [|split; reflexivity]];
    apply constrain_bounds; unfold CMD_CLAMP; lia.
Qed.

(** C3: The serial command parser stores the setpoints it reads without
    clamping them: the line "2500 0" leaves target 2500 in the left
    channel, above the safety bound of 2000 that the HTTP /cmd handler
    enforces on the same pair. *)
Theorem serial_command_not_clamped :
  CMD_CLAMP = 2000 /\
  target (M1 (fst (handleSerial (Some "2500 0"%string) Sys_init))) = F32.of_int 2500 /\
  target (M2 (fst (handleSerial (Some "2500 0"%string) Sys_init))) = F32.of_int 0 /\
  F32.gt (target (M1 (fst (handleSerial (Some "2500 0"%string) Sys_init))))
         (F32.of_int CMD_CLAMP) = true /\
  target (M1 (fst (handleClient
                     (Some (mkRequest "/cmd" [("l", "2500"); ("r", "0")]%string))
                     Sys_init))) = F32.of_int 2000.
Proof. repeat split; reflexivity. Qed.

(** A serial line that is neither a stop directive nor two integers is
    rejected: the state is unchanged and a diagnostic is printed. *)
Lemma handleSerial_rejects line s :
  String.length (trim line) <> 0%nat ->
  equalsIgnoreCase (trim line) "stop" = false ->
  sscanf_d_d (trim line) = None ->
  handleSerial (Some line) s =
    (s, [SerialPrint (Lit "Invalid format. Use: <left> <right> or stop")]).
Proof.
  intros Hlen Hstop Hscan. unfold handleSerial.
  destruct (Nat.eqb_spec (String.length (trim line)) 0); [contradiction|].
  rewrite Hstop, Hscan. reflexivity.
Qed.

(** An HTTP /cmd request lacking [l] or [r] is rejected with status 400. *)
Lemma handleCmd_rejects_missing rq s :
  hasArg rq "l" = false \/ hasArg rq "r" = false ->
  handleCmd rq s =
    (s, [HttpSend 400 "text/plain" (Lit "Error: missing l or r parameter")]).
Proof.
  intros H. unfold handleCmd.
  destruct H as [-> | ->]; cbn [negb orb]; [|rewrite orb_true_r]; reflexivity.
Qed.

(** C4: An HTTP /cmd request whose [l] and [r] arguments are not numbers is
    not rejected: both targets are overwritten with 0 and the reply is a
    success, whereas the same text on the serial line leaves the state
    unchanged and prints a diagnostic. *)
Theorem http_non_numeric_not_rejected :
  let rq := mkRequest "/cmd" [("l", "abc"); ("r", "xyz")]%string in
  target (M1 running_1500) = F32.of_int 1500 /\
  target (M2 running_1500) = F32.of_int (-1500) /\
  sscanf_d_d "abc xyz" = None /\
  handleSerial (Some "abc xyz"%string) running_1500 =
    (running_1500,
     [SerialPrint (Lit "Invalid format. Use: <left> <right> or stop")]) /\
  target (M1 (fst (handleClient (Some rq) running_1500))) = F32.of_int 0 /\
  target (M2 (fst (handleClient (Some rq) running_1500))) = F32.of_int 0 /\
  snd (handleClient (Some rq) running_1500) =
    [HttpSend 200 "text/plain" (Fmt "OK L=%d R=%d" [AInt 0; AInt 0]);
     SerialPrint (Fmt "OK L=%d R=%d" [AInt 0; AInt 0])].
Proof. repeat split; reflexivity. Qed.

(** * The control scheduler *)



(** * Invariants of the running system *)

Lemma Kp_unit : posnorm Kp = true /\ key Kp <= 2 ^ 149.
Proof. split; by_eval. Qed.

Lemma Ki_unit : posnorm Ki = true /\ key Ki <= 2 ^ 149.
Proof. split; by_eval. Qed.

Lemma Kd_unit : posnorm Kd = true /\ key Kd <= 2 ^ 149.
Proof. split; by_eval. Qed.

Lemma motor_ok_init a b e ch c : motor_ok (Motor_init a b e ch c).
Proof.
  unfold motor_ok. cbn [Motor_init duty integ target errPrev u].
  repeat split; try reflexivity; try (unfold DUTY_MAX; by_eval);
    try (apply Z.lt_le_incl, pow2_pos; lia).
Qed.

Lemma motor_ok_set_target m z :
  Z.abs z <= 2 ^ 31 -> motor_ok m -> motor_ok (set_target m (F32.of_int z)).
Proof.
  intros Hz (Hd & Hi & Hr & _ & He & Hu). unfold motor_ok.
  cbn [set_target duty integ target errPrev u].
  repeat split; try assumption; try apply Hd; try apply He;
    apply (of_int_mag z 31); lia.
Qed.

(** The PID computation keeps the invariant and yields an effort that is a
    number. *)
Lemma pid_update_ok m :
  motor_ok m -> mag_le (speed m) 36 -> motor_ok (pid_update m).
Proof.
  intros (Hd & Hi & Hr & Ht & He & Hu) Hs.
  destruct Kp_unit as [Hp1 Hp2], Ki_unit as [Hi1 Hi2], Kd_unit as [Hd1 Hd2].
  set (e := F32.sub (target m) (speed m)).
  assert (Hme : mag_le e 37).
  { apply (sub_mag _ _ 36); try lia; [|exact Hs].
    apply mag_le_weaken with 31; auto; lia. }
  assert (HP : mag_le (F32.mul Kp e) 37) by (apply mul_mag; auto; lia).
  assert (HI : mag_le (F32.mul Ki e) 37) by (apply mul_mag; auto; lia).
  assert (Hsum : mag_le (F32.add (integ m) (F32.mul Ki e)) 38).
  { apply (add_mag _ _ 37); try lia; [|exact HI].
    apply mag_le_weaken with 9; try lia. apply in_range_mag; auto. }
  set (integ' := integ (pid_update m)).
  assert (HI' : is_number integ' = true /\ integral_in_range integ' = true).
  { unfold integ', pid_update. cbn [integ]. fold e.
    destruct (if saturatingLow m && F32.lt e (F32.of_int 0) then false
              else if saturatingHigh m && F32.gt e (F32.of_int 0) then false
                   else true).
    - split; [apply clampI_number, Hsum|].
      apply clampI_in_range, is_number_not_nan, Hsum.
    - split; assumption. }
  destruct HI' as [HIn HIr].
  assert (HPI : mag_le (F32.add (F32.mul Kp e) integ') 38).
  { apply (add_mag _ _ 37); try lia; [exact HP|].
    apply mag_le_weaken with 9; try lia. apply in_range_mag; auto. }
  assert (HD : mag_le (F32.mul Kd (F32.sub e (errPrev m))) 38).
  { apply mul_mag; auto; try lia. apply (sub_mag _ _ 37); auto; lia. }
  assert (HU : mag_le (F32.add (F32.add (F32.mul Kp e) integ')
                         (F32.mul Kd (F32.sub e (errPrev m)))) 39).
  { apply (add_mag _ _ 38); auto; lia. }
  unfold motor_ok. repeat split; try apply Hd; try apply Ht;
    try exact HIn; try exact HIr; try apply Hme; try apply HU.
Qed.

(** On an effort that is a number the Actuation Mapper is defined; its
    duty is 0 in the dead zone and above MIN_DUTY_START outside. *)
Lemma applyMotor_defined m :
  is_number (u m) = true ->
  exists m' d, applyMotor m = Some (m', d) /\
    (F32.lt (F32.fabsf (u m)) f_one = true -> duty m' = 0) /\
    (F32.lt (F32.fabsf (u m)) f_one = false ->
       MIN_DUTY_START < duty m' <= PWM_MAX).
Proof.
  intros Hu. pose proof (is_number_abs _ Hu) as Hn.
  destruct (duty_of_mag_nnv _ Hn) as (dt & E & Hz & Hnz).
  rewrite applyMotor_duty, E. cbv zeta.
  eexists _, _. split; [reflexivity|]. cbn [duty].
  split; [exact Hz | intros H; apply (Hnz H)].
Qed.

Lemma applyMotor_ok m :
  motor_ok m -> exists m' d, applyMotor m = Some (m', d) /\ motor_ok m'.
Proof.
  intros (Hd & Hi & Hr & Ht & He & Hu).
  destruct (applyMotor_defined m Hu) as (m' & d & E & Hz & Hnz).
  assert (Hduty : 0 <= duty m' <= DUTY_MAX).
  { destruct (F32.lt (F32.fabsf (u m)) f_one).
    - rewrite (Hz eq_refl). unfold DUTY_MAX. split; by_eval.
    - specialize (Hnz eq_refl). unfold DUTY_MAX, MIN_DUTY_START in *. lia. }
  exists m', d. split; [exact E|].
  destruct (applyMotor_frame m m' d E)
    as (_ & _ & _ & _ & _ & _ & Et & _ & _ & Ee & Ei & _ & Eu).
  unfold motor_ok. rewrite Et, Ee, Ei, Eu. repeat split; try assumption;
    try apply Hduty; try apply Ht; try apply He.
Qed.

Lemma updateSpeed_ok cnt m :
  motor_ok m -> motor_ok (updateSpeed cnt m) /\ mag_le (speed (updateSpeed cnt m)) 36.
Proof.
  intros H. split; [exact H|].
  cbn [updateSpeed speed]. apply speed_mag, wrap32s_range.
Qed.

(** One channel's share of a tick is always defined and keeps the invariant. *)
Lemma channel_tick_ok s m :
  motor_ok m -> exists m' d, channel_tick s m = Some (m', d) /\ motor_ok m'.
Proof.
  intros H. unfold channel_tick.
  destruct (updateSpeed_ok (read_count s (pCount m)) m H) as [H1 H2].
  apply applyMotor_ok, pid_update_ok; assumption.
Qed.

Lemma scan_int_range s v r : scan_int s = Some (v, r) -> Z.abs v <= 2 ^ 31.
Proof.
  unfold scan_int.
  destruct (match ltrim s with
            | String "-"%char r0 => (true, r0)
            | String "+"%char r0 => (false, r0)
            | _ => (false, ltrim s)
            end) as [negative s1].
  destruct s1 as [|c s1']; [discriminate|].
  destruct (isdigit c); [|discriminate].
  destruct (scan_digits (String c s1') 0) as [w rest].
  intros E. injection E as <- _.
  unfold saturate32, INT_MIN, INT_MAX. lia.
Qed.

Lemma sys_ok_set_targets s l r :
  Z.abs l <= 2 ^ 31 -> Z.abs r <= 2 ^ 31 -> sys_ok s ->
  sys_ok (set_targets s (F32.of_int l) (F32.of_int r)).
Proof.
  intros Hl Hr [H1 H2]. split; cbn [set_targets M1 M2];
    apply motor_ok_set_target; assumption.
Qed.

Lemma handleSerial_ok line s : sys_ok s -> sys_ok (fst (handleSerial line s)).
Proof.
  intros H. unfold handleSerial.
  destruct line as [line|]; [|exact H].
  destruct (String.length (trim line) =? 0)%nat; [exact H|].
  destruct (equalsIgnoreCase (trim line) "stop").
  - apply sys_ok_set_targets; auto; cbn; lia.
  - unfold sscanf_d_d.
    destruct (scan_int (trim line)) as [[a r]|] eqn:Ea; [|exact H].
    destruct (scan_int (ltrim r)) as [[b r']|] eqn:Eb; [|exact H].
    apply sys_ok_set_targets; auto; eapply scan_int_range; eassumption.
Qed.

Lemma handleClient_ok req s : sys_ok s -> sys_ok (fst (handleClient req s)).
Proof.
  intros H. unfold handleClient.
  destruct req as [rq|]; [|exact H].
  destruct (String.eqb (uri rq) "/"); [exact H|].
  destruct (String.eqb (uri rq) "/cmd").
  - unfold handleCmd.
    destruct (negb (hasArg rq "l") || negb (hasArg rq "r")); [exact H|].
    cbn [fst].
    pose proof (constrain_bounds (toInt (arg rq "l")) (- CMD_CLAMP) CMD_CLAMP
                  ltac:(unfold CMD_CLAMP; lia)).
    pose proof (constrain_bounds (toInt (arg rq "r")) (- CMD_CLAMP) CMD_CLAMP
                  ltac:(unfold CMD_CLAMP; lia)).
    unfold CMD_CLAMP in *.
    apply sys_ok_set_targets; auto; change (2 ^ 31) with 2147483648; lia.
  - destruct (String.eqb (uri rq) "/stop").
    + apply sys_ok_set_targets; auto; cbn; lia.
    + destruct (String.eqb (uri rq) "/telemetry"); exact H.
Qed.

(** One pass of [loop()] from a state satisfying the invariant is defined
    and ends in such a state. *)
Lemma loop_ok now req line s :
  sys_ok s -> exists s' o, loop now req line s = Some (s', o) /\ sys_ok s'.
Proof.
  intros H. unfold loop.
  pose proof (handleClient_ok req s H) as Ha.
  destruct (handleClient req s) as [sa o1]. cbn [fst] in Ha.
  pose proof (handleSerial_ok line sa Ha) as Hb.
  destruct (handleSerial line sa) as [sb o2]. cbn [fst] in Hb.
  destruct (wrap32u (now - lastMs sb) >=? SAMPLE_MS).
  - destruct Hb as [H1 H2].
    destruct (channel_tick_ok sb (M1 sb) H1) as (m1' & d1 & E1 & K1).
    destruct (channel_tick_ok sb (M2 sb) H2) as (m2' & d2 & E2 & K2).
    unfold channel_tick in E1, E2. unfold pidStep. rewrite E1, E2.
    eexists _, _. split; [reflexivity|]. split; assumption.
  - eexists _, _. split; [reflexivity|]. exact Hb.
Qed.

Lemma step_ok ev s :
  sys_ok s -> exists s' o, step ev s = Some (s', o) /\ sys_ok s'.
Proof.
  intros H. destruct ev; cbn [step];
    try (eexists _, _; split; [reflexivity | exact H]).
  apply loop_ok, H.
Qed.

(** Every finite execution is defined and keeps the invariant. *)
Lemma run_ok evs : forall s,
  sys_ok s -> exists s', run evs s = Some s' /\ sys_ok s'.
Proof.
  induction evs as [|ev evs IH]; intros s H; cbn [run].
  - exists s. split; [reflexivity | exact H].
  - destruct (step_ok ev s H) as (s1 & o & -> & H1). apply IH, H1.
Qed.

Lemma sys_ok_init : sys_ok Sys_init.
Proof. split; apply motor_ok_init. Qed.

(** C2: After every finite execution from the initial state, whatever
    commands arrive and whatever the encoders count, the run is defined and
    the integral of each channel satisfies -I_MAX <= integral <= I_MAX;
    steps that skip the integration leave it unchanged, hence in range. *)
Theorem integral_stays_in_range (evs : list Event) :
  exists s, run evs Sys_init = Some s /\
    (F32.le (F32.neg I_MAX) (integ (M1 s)) = true /\
     F32.le (integ (M1 s)) I_MAX = true) /\
    (F32.le (F32.neg I_MAX) (integ (M2 s)) = true /\
     F32.le (integ (M2 s)) I_MAX = true).
Proof.
  destruct (run_ok evs Sys_init sys_ok_init) as (s & E & [H1 H2]).
  exists s. split; [exact E|].
  destruct H1 as (_ & _ & R1 & _), H2 as (_ & _ & R2 & _).
  unfold integral_in_range in R1, R2.
  apply andb_prop in R1, R2. split; assumption.
Qed.

(** C10: In every reachable state the duty of each channel lies between 0
    and DUTY_MAX, so the implemented saturation tests, written with
    [duty >= PWM_MAX], agree with the specified ones, written with
    [duty == DUTY_MAX]. *)
Theorem saturation_tests_agree (evs : list Event) :
  exists s, run evs Sys_init = Some s /\
    forall m, m = M1 s \/ m = M2 s ->
      0 <= duty m <= DUTY_MAX /\
      saturatingHigh m = spec_saturating_high m /\
      saturatingLow m = spec_saturating_low m.
Proof.
  destruct (run_ok evs Sys_init sys_ok_init) as (s & E & [H1 H2]).
  exists s. split; [exact E|].
  intros m [-> | ->]; [destruct H1 as (Hd & _) | destruct H2 as (Hd & _)];
    (split; [exact Hd|]; split;
     [apply saturatingHigh_spec | apply saturatingLow_spec]; apply Hd).
Qed.

(** * The speed estimate *)

(** Two positive finite floats with the same key are the same float. *)
Lemma key_inj f g : posfin f = true -> posfin g = true -> key f = key g -> f = g.
Proof.
  destruct f as [| | |[] m1 e1]; try discriminate.
  destruct g as [| | |[] m2 e2]; try discriminate.
  cbn [posfin]. intros H1 H2 K.
  assert (E : e1 = e2).
  { destruct (Z.lt_trichotomy e1 e2) as [L|[L|L]]; [|exact L|].
    - pose proof (key_finite_lt false m1 e1 false m2 e2 H1 H2 L). lia.
    - pose proof (key_finite_lt false m2 e2 false m1 e1 H2 H1 L). lia. }
  subst e2. cbn [key] in K.
  destruct (bounded_facts _ _ H1) as (He & _).
  assert (0 < 2 ^ (e1 + 149)) by (apply pow2_pos; lia).
  assert (Zpos m1 = Zpos m2) by nia. congruence.
Qed.

(** A quotient that lies less than half a unit below an integer rounds to
    that integer. *)
Lemma rnq_below N C r : 0 < r -> 2 * r < C -> rnq (N * C - r) C = N.
Proof.
  intros Hr Hc. unfold rnq.
  assert (Ed : (N * C - r) / C = N - 1).
  { symmetry. apply (Z.div_unique _ _ _ (C - r)); [lia | ring]. }
  assert (Em : (N * C - r) mod C = C - r).
  { symmetry. apply (Z.mod_unique _ _ (N - 1)); [lia | ring]. }
  rewrite Ed, Em.
  destruct (Z.compare_spec (2 * (C - r)) C); try lia.
Qed.

(** No power of two is a multiple of five. *)
Lemma pow2_mod5 k : 0 <= k -> 2 ^ k mod 5 <> 0.
Proof.
  revert k. apply natlike_ind; [discriminate|].
  intros k Hk IH. rewrite Z.pow_succ_r by exact Hk.
  revert IH. generalize (2 ^ k). intros x IH.
  pose proof (Z.div_mod x 5 ltac:(lia)).
  pose proof (Z.mod_pos_bound x 5 ltac:(lia)).
  pose proof (Z.div_mod (2 * x) 5 ltac:(lia)).
  pose proof (Z.mod_pos_bound (2 * x) 5 ltac:(lia)).
  lia.
Qed.

(** An integer below 2^24 is a float: its key and its canonical form. *)
Lemma of_int_small z :
  0 < z < 2 ^ 24 ->
  exists m e, F32.of_int z = S754_finite false m e /\
    bounded F32.prec F32.emax m e = true /\
    Zpos m * 2 ^ (e + 149) = z * 2 ^ 149.
Proof.
  intros Hz. destruct z as [|p|p]; try lia.
  unfold F32.of_int. cbn [binary_normalize].
  pose proof (binary_round_nnv p 0) as Hn.
  pose proof (binary_round_exact p 0 ltac:(lia) ltac:(lia)) as Hk.
  assert (Hlt : Zpos p * 2 ^ (0 + 149) < 2 ^ 277).
  { change (2 ^ 277) with (2 ^ 128 * 2 ^ 149). change (0 + 149) with 149.
    apply Z.mul_lt_mono_pos_r; [apply pow2_pos; lia|].
    apply Z.lt_trans with (2 ^ 24); [lia | reflexivity]. }
  specialize (Hk Hlt). change (0 + 149) with 149 in Hk.
  assert (Hp : posfin (binary_round F32.prec F32.emax false p 0) = true).
  { apply posfin_of_key; [exact Hn|]. rewrite Hk.
    change (0 + 149) with 149 in Hlt. split; [|exact Hlt].
    apply Z.mul_pos_pos; [lia | apply pow2_pos; lia]. }
  destruct (binary_round F32.prec F32.emax false p 0) as [| | |[] m e];
    try discriminate Hp.
  exists m, e. split; [reflexivity|]. split; [exact Hp | exact Hk].
Qed.

(** The arithmetic of dividing a count by the sample period: the quotient
    of delta by 13421773 * 2^-28 rounds to 20 * delta. *)
Lemma speed_arith (delta mx ex q e' s D : Z) :
  0 < delta -> 20 * delta < 2 ^ 24 ->
  0 < mx < 2 ^ 24 -> -149 <= ex <= 104 -> (-149 < ex -> 2 ^ 23 <= mx) ->
  mx * 2 ^ (ex + 149) = delta * 2 ^ 149 ->
  0 <= s -> s + e' = ex + 28 ->
  0 < q -> q * 13421773 <= mx * 2 ^ s < (q + 1) * 13421773 ->
  2 ^ (D - 1) <= q < 2 ^ D ->
  e' <= Z.max (D + e' - 24) (-149) ->
  let t := Z.max (D + e' - 24) (-149) in
  -149 <= t /\
  rnq (mx * 2 ^ s) (13421773 * 2 ^ (t - e')) * 2 ^ (t + 149) = 20 * delta * 2 ^ 149.
Proof.
  intros Hd H20 Hmx Hex Hnorm Hkey Hs Hse Hq Hloc HD He' t.
  (* the exponent of delta is not positive *)
  assert (Hex0 : ex <= 0).
  { destruct (Z_le_gt_dec ex 0) as [|G]; [assumption|exfalso].
    specialize (Hnorm ltac:(lia)).
    assert (2 ^ 150 <= 2 ^ (ex + 149)) by (apply pow2_le; lia).
    change (2 ^ 150) with (2 * 2 ^ 149) in *.
    assert (0 < 2 ^ 149) by (apply pow2_pos; lia).
    change (2 ^ 23) with 8388608 in *. change (2 ^ 24) with 16777216 in *. nia. }
  assert (Emx : mx = delta * 2 ^ (- ex)).
  { assert (E : 2 ^ 149 = 2 ^ (- ex) * 2 ^ (ex + 149))
      by (rewrite <- pow2_add by lia; f_equal; lia).
    rewrite E in Hkey.
    assert (0 < 2 ^ (ex + 149)) by (apply pow2_pos; lia).
    apply (Z.mul_reg_r _ _ (2 ^ (ex + 149))); [lia|]. rewrite Hkey. ring. }
  set (n := s - ex).
  assert (Hn : 0 <= n) by (unfold n; lia).
  assert (EA : mx * 2 ^ s = delta * 2 ^ n).
  { rewrite Emx, <- Z.mul_assoc, <- pow2_add by lia. do 2 f_equal. unfold n. lia. }
  rewrite EA in Hloc |- *.
  (* the number of digits of 20 * delta *)
  set (d := Z.log2 (20 * delta) + 1).
  pose proof (Z.log2_spec (20 * delta) ltac:(lia)) as [Hdl Hdu].
  pose proof (Z.log2_nonneg (20 * delta)) as Hlog.
  replace (Z.log2 (20 * delta)) with (d - 1) in Hdl by (unfold d; lia).
  replace (Z.succ (Z.log2 (20 * delta))) with d in Hdu by (unfold d; lia).
  assert (Hd5 : 5 <= d <= 24).
  { assert (d - 1 < 24) by (apply pow2_lt_inv; lia).
    assert (4 < d); [|lia].
    apply pow2_lt_inv; [unfold d; lia|]. change (2 ^ 4) with 16. lia. }
  assert (Hne : 2 ^ (d - 1) + 1 <= 20 * delta).
  { assert (2 ^ (d - 1) <> 20 * delta); [|lia].
    intros E. apply (pow2_mod5 (d - 1)); [lia|]. rewrite E.
    replace (20 * delta) with (4 * delta * 5) by ring. apply Z.mod_mul. lia. }
  assert (HD1 : 1 <= D).
  { destruct (Z_le_gt_dec 1 D) as [|G]; [assumption|exfalso].
    assert (2 ^ D <= 2 ^ 0); [|change (2 ^ 0) with 1 in *; lia].
    destruct (Z_le_gt_dec 0 D); [apply pow2_le; lia|].
    rewrite Z.pow_neg_r by lia. cbn. lia. }
  (* the number of digits of the quotient *)
  assert (Hup : D + 27 < d + n).
  { apply pow2_lt_inv; [lia|].
    replace (D + 27) with ((D - 1) + 28) by lia.
    rewrite !pow2_add by lia.
    assert (0 < 2 ^ (D - 1)) by (apply pow2_pos; lia).
    assert (0 < 2 ^ n) by (apply pow2_pos; lia).
    change (2 ^ 28) with 268435456. nia. }
  assert (Hlo : d + n <= D + 28).
  { destruct (Z_le_gt_dec (d + n) (D + 28)) as [|G]; [assumption|exfalso].
    assert (K1 : 2 ^ (D + 28) <= 2 ^ (d + n - 1)) by (apply pow2_le; lia).
    assert (K2 : 2 ^ (D + 2) <= 2 ^ (d + n - 27)) by (apply pow2_le; lia).
    assert (K3 : 2 ^ (d - 1 + n) + 2 ^ n < 2 ^ (D + 28) + 2 ^ (D + 2)).
    { rewrite !pow2_add by lia.
      assert (0 < 2 ^ D) by (apply pow2_pos; lia).
      assert (0 < 2 ^ n) by (apply pow2_pos; lia).
      change (2 ^ 28) with 268435456. change (2 ^ 2) with 4. nia. }
    replace (d - 1 + n) with (d + n - 1) in K3 by lia.
    assert (2 ^ n < 2 ^ (d + n - 27)) by lia.
    assert (n < d + n - 27) by (apply pow2_lt_inv; lia). lia. }
  assert (Et : t = d - 24) by (unfold t; lia).
  assert (Hn28 : 52 - d <= n) by lia.
  split; [lia|].
  rewrite Et.
  set (w := d + n - 52).
  replace (d - 24 - e') with w by (unfold w; lia).
  assert (Hw : 0 <= w) by (unfold w; lia).
  set (X := delta * 2 ^ (24 - d)).
  assert (HX : 20 * X < 2 ^ 24).
  { unfold X. replace (2 ^ 24) with (2 ^ d * 2 ^ (24 - d))
      by (rewrite <- pow2_add by lia; f_equal; lia).
    assert (0 < 2 ^ (24 - d)) by (apply pow2_pos; lia). nia. }
  assert (HX0 : 0 < X).
  { unfold X. apply Z.mul_pos_pos; [lia | apply pow2_pos; lia]. }
  assert (Hw0 : 0 < 2 ^ w) by (apply pow2_pos; lia).
  assert (En : delta * 2 ^ n = (20 * X) * (13421773 * 2 ^ w) - 4 * X * 2 ^ w).
  { unfold X. replace n with ((24 - d) + w + 28) by (unfold w; lia).
    rewrite !pow2_add by lia. change (2 ^ 28) with 268435456. ring. }
  rewrite En, rnq_below.
  - unfold X. replace (d - 24 + 149) with (d + 125) by lia.
    replace (2 ^ 149) with (2 ^ (24 - d) * 2 ^ (d + 125))
      by (rewrite <- pow2_add by lia; f_equal; lia).
    ring.
  - nia.
  - change (2 ^ 24) with 16777216 in HX. nia.
Qed.

Lemma binary_round_with_sign s m e :
  binary_round F32.prec F32.emax s m e =
  with_sign s (binary_round F32.prec F32.emax false m e).
Proof.
  destruct (binary_round_as_bra m e) as (mz & k & Hk & Hm & Hbr & Ht).
  rewrite !Hbr.
  apply (bra_with_sign s (Zpos mz) (e - k) loc_Exact (Zpos mz) 1);
    [lia | lia | apply located_exact | exact Ht].
Qed.

(** Dividing a count by the sample period yields twenty times the count,
    exactly, whatever its sign. *)
Lemma div_Ts_signed (sx : bool) (delta : Z) :
  0 < delta -> 20 * delta < 2 ^ 24 ->
  F32.div (with_sign sx (F32.of_int delta)) Ts = with_sign sx (F32.of_int (20 * delta)).
Proof.
  intros Hd H20.
  destruct (of_int_small delta) as (mx & ex & Ex & Hb & Hk);
    [change (2 ^ 24) with 16777216 in *; lia|].
  destruct (of_int_small (20 * delta)) as (my & ey & Ey & Hby & Hky); [lia|].
  rewrite Ex. cbn [with_sign].
  change Ts with (S754_finite false 13421773 (-28)).
  unfold F32.div. cbn [SFdiv]. rewrite xorb_false_r.
  destruct (bounded_facts _ _ Hb) as (Hex & Hmx & Hnorm).
  assert (Hkc : key (S754_finite false 13421773 (-28)) <=
                key (S754_finite false mx ex) * 2 ^ 100).
  { cbn [key]. rewrite Hk. change (-28 + 149) with 121.
    assert (0 < 2 ^ 149) by (apply pow2_pos; lia).
    assert (0 < 2 ^ 100) by (apply pow2_pos; lia).
    apply Z.le_trans with (1 * 2 ^ 149 * 1); [by_eval|].
    apply Z.mul_le_mono_nonneg; try lia; nia. }
  destruct (div_core mx ex 13421773 (-28) Hb eq_refl ltac:(by_eval) Hkc)
    as (q & e' & l & s & Ecore & Hs & Hse & Hloc & Hq & He').
  rewrite Ecore.
  rewrite (bra_with_sign sx q e' l (Zpos mx * 2 ^ s) (Zpos 13421773) Hq ltac:(lia) Hloc He').
  f_equal. rewrite Ey.
  pose proof (bra_key q e' l (Zpos mx * 2 ^ s) (Zpos 13421773) Hq ltac:(lia) Hloc He')
    as [Hn Hkey].
  cbv zeta in Hkey.
  pose proof (located_bounds q l (Zpos mx * 2 ^ s) (Zpos 13421773) ltac:(lia) Hloc) as Hlb.
  pose proof (Zdigits2_bounds q Hq) as HD.
  rewrite fexp_eq in He', Hkey.
  destruct (speed_arith delta (Zpos mx) ex q e' s (Zdigits2 q)
              Hd H20 ltac:(lia) ltac:(lia) Hnorm Hk Hs ltac:(lia) Hq Hlb HD He')
    as [_ Ear].
  rewrite Ear in Hkey.
  assert (Hlt : 20 * delta * 2 ^ 149 < 2 ^ 277).
  { change (2 ^ 277) with (2 ^ 128 * 2 ^ 149).
    apply Z.mul_lt_mono_pos_r; [apply pow2_pos; lia|].
    apply Z.lt_trans with (1 := H20). reflexivity. }
  rewrite Z.min_r in Hkey by lia.
  apply key_inj.
  - apply posfin_of_key; [exact Hn|]. rewrite Hkey. split; [|exact Hlt].
    apply Z.mul_pos_pos; [lia | apply pow2_pos; lia].
  - exact Hby.
  - rewrite Hkey. cbn [key]. rewrite Hky. reflexivity.
Qed.

Lemma of_int_neg (p : positive) :
  F32.of_int (Zneg p) = with_sign true (F32.of_int (Zpos p)).
Proof. unfold F32.of_int. cbn [binary_normalize]. apply binary_round_with_sign. Qed.

Lemma of_int_pos_sign (p : positive) :
  F32.of_int (Zpos p) = with_sign false (F32.of_int (Zpos p)).
Proof.
  unfold F32.of_int. cbn [binary_normalize]. apply binary_round_with_sign.
Qed.

(** The Speed Estimator on a count difference [z]. *)
Lemma speed_of_count z :
  Z.abs z <= 838860 -> F32.div (F32.of_int z) Ts = F32.of_int (20 * z).
Proof.
  intros Hz. destruct z as [|p|p].
  - reflexivity.
  - rewrite (of_int_pos_sign p), div_Ts_signed;
      [|lia|change (2 ^ 24) with 16777216; lia].
    symmetry. apply (of_int_pos_sign (20 * p)).
  - rewrite (of_int_neg p), div_Ts_signed;
      [|lia|change (2 ^ 24) with 16777216; lia].
    symmetry. apply (of_int_neg (20 * p)).
Qed.

(** X1: The speed estimate is exact: although the sample period 0.05 is
    not a binary32 value, dividing the count difference of a tick by the
    constant Ts yields exactly twenty times that difference, in counts per
    second, for every difference of magnitude up to 838860 counts; the
    estimator also records the counter and touches no other field. *)
Theorem speed_estimate_is_exact (cnt : Z) (m : Motor) :
  Z.abs (cnt - lastCount m) <= 838860 ->
  speed (updateSpeed cnt m) = F32.of_int (20 * (cnt - lastCount m)) /\
  lastCount (updateSpeed cnt m) = cnt /\
  target (updateSpeed cnt m) = target m /\ integ (updateSpeed cnt m) = integ m /\
  errPrev (updateSpeed cnt m) = errPrev m /\ u (updateSpeed cnt m) = u m /\
  duty (updateSpeed cnt m) = duty m /\ dir (updateSpeed cnt m) = dir m.
Proof.
  intros H. cbn [updateSpeed speed lastCount target integ errPrev u duty dir].
  split; [|repeat split].
  assert (E : wrap32s (cnt - lastCount m) = cnt - lastCount m).
  { unfold wrap32s. rewrite Z.mod_small; lia. }
  rewrite E. apply speed_of_count, H.
Qed.

Lemma speed_estimate_is_exact_witness :
  speed (updateSpeed (-37) M1_init) = F32.of_int (20 * (-37 - lastCount M1_init)) /\
  lastCount (updateSpeed (-37) M1_init) = -37 /\
  target (updateSpeed (-37) M1_init) = target M1_init /\
  integ (updateSpeed (-37) M1_init) = integ M1_init /\
  errPrev (updateSpeed (-37) M1_init) = errPrev M1_init /\
  u (updateSpeed (-37) M1_init) = u M1_init /\
  duty (updateSpeed (-37) M1_init) = duty M1_init /\
  dir (updateSpeed (-37) M1_init) = dir M1_init.
Proof. apply (speed_estimate_is_exact (-37) M1_init). cbn. lia. Defined.

(** * Further properties of the Actuation Mapper *)

(** A magnitude of PWM_MAX or more is given the full duty. *)
Lemma full_mag_duty mag :
  nnv mag = true -> key f_max <= key mag -> duty_of_mag mag = Some PWM_MAX.
Proof.
  intros Hn Hk.
  assert (Hlt : F32.lt mag f_one = false).
  { rewrite lt_one_key by exact Hn. apply Z.ltb_ge.
    apply Z.le_trans with (2 := Hk). by_eval. }
  destruct (duty_of_mag_nnv mag Hn) as (d & E & _ & Hd).
  destruct (Hd Hlt) as [-> _]. rewrite E. f_equal.
  pose proof (clampMag_between mag Hn Hlt) as Hb.
  assert (Hm : between f_one f_max f_max).
  { split; [by_eval | split; by_eval]. }
  assert (Ek : key (clampMag mag) = key f_max).
  { rewrite clampMag_key by exact Hn. lia. }
  pose proof (duty_tail_mono _ _ Hb Hm ltac:(lia)) as H1.
  pose proof (duty_tail_mono _ _ Hm Hb ltac:(lia)) as H2.
  change (key_floor (key (F32.add (dutyF_raw f_max) f_half))) with PWM_MAX in H1, H2.
  lia.
Qed.

(** An effort at or below -PWM_MAX has a magnitude of PWM_MAX or more. *)
Lemma le_neg_abs x :
  F32.le x (F32.of_int (- PWM_MAX)) = true -> F32.le f_max (F32.fabsf x) = true.
Proof.
  change (F32.of_int (- PWM_MAX)) with (S754_finite true 16760832 (-14)).
  change f_max with (S754_finite false 16760832 (-14)).
  unfold F32.le, F32.fabsf, SFleb.
  destruct x as [s|s| |s m e]; try destruct s; cbn [SFabs SFcompare];
    try discriminate; try reflexivity.
  rewrite (Z.compare_antisym e (-14)), (compare_cont_antisym_eq m 16760832).
  destruct (e ?= -14); cbn [CompOpp]; try discriminate; try reflexivity.
  destruct (Pos.compare_cont Eq m 16760832); cbn [CompOpp]; auto.
Qed.

(** An effort at or above PWM_MAX is its own magnitude. *)
Lemma ge_abs x :
  F32.ge x (F32.of_int PWM_MAX) = true -> F32.le f_max (F32.fabsf x) = true.
Proof.
  change (F32.of_int PWM_MAX) with f_max.
  change f_max with (S754_finite false 16760832 (-14)).
  unfold F32.ge, F32.le, F32.fabsf, SFleb.
  destruct x as [s|s| |s m e]; try destruct s; cbn [SFabs SFcompare];
    try discriminate; try reflexivity; auto.
Qed.

Lemma full_abs_duty x :
  is_number x = true -> F32.le f_max (F32.fabsf x) = true ->
  duty_of_mag (F32.fabsf x) = Some PWM_MAX.
Proof.
  intros Hn Hle. pose proof (is_number_abs _ Hn) as Ha.
  apply full_mag_duty; [exact Ha|].
  unfold F32.le in Hle. rewrite nnv_leb in Hle by (try exact Ha; by_eval).
  apply Z.leb_le, Hle.
Qed.

(** X2: An effort of magnitude PWM_MAX or more, of either sign, is given
    exactly the full duty PWM_MAX, which is what the PWM is written. *)
Theorem full_effort_gives_full_duty (m : Motor) :
  is_number (u m) = true ->
  F32.le (F32.of_int PWM_MAX) (F32.fabsf (u m)) = true ->
  exists m' d, applyMotor m = Some (m', d) /\
    duty m' = PWM_MAX /\ pwm d = PWM_MAX /\
    pinA d = F32.ge (u m) (F32.of_int 0) /\
    pinB d = negb (F32.ge (u m) (F32.of_int 0)).
Proof.
  intros Hn Hle. rewrite applyMotor_duty, (full_abs_duty _ Hn Hle). cbv zeta.
  eexists _, _. split; [reflexivity|]. cbn [duty].
  change (PWM_MAX =? 0) with false. cbv iota.
  destruct (F32.ge (u m) (F32.of_int 0)); repeat split.
Qed.

Lemma full_effort_gives_full_duty_witness :
  exists m' d, applyMotor effort_1304 = Some (m', d) /\
    duty m' = PWM_MAX /\ pwm d = PWM_MAX /\
    pinA d = F32.ge (u effort_1304) (F32.of_int 0) /\
    pinB d = negb (F32.ge (u effort_1304) (F32.of_int 0)).
Proof. apply (full_effort_gives_full_duty effort_1304); reflexivity. Defined.

(** X3: After the Actuation Mapper has run, the duty half of the two
    saturation tests of [pidStep] is implied by the effort half: the
    channel is saturating high exactly when u >= PWM_MAX and saturating low
    exactly when u <= -PWM_MAX. *)
Theorem saturation_decided_by_effort (m : Motor) :
  is_number (u m) = true ->
  exists m' d, applyMotor m = Some (m', d) /\
    saturatingHigh m' = F32.ge (u m) (F32.of_int PWM_MAX) /\
    saturatingLow m' = F32.le (u m) (F32.of_int (- PWM_MAX)).
Proof.
  intros Hn. pose proof (is_number_abs _ Hn) as Ha.
  destruct (duty_of_mag_nnv _ Ha) as (dt & E & _ & _).
  rewrite applyMotor_duty, E. cbv zeta.
  eexists _, _. split; [reflexivity|].
  unfold saturatingHigh, saturatingLow. cbn [duty u].
  split.
  - destruct (F32.ge (u m) (F32.of_int PWM_MAX)) eqn:G; [|apply andb_false_r].
    rewrite (full_abs_duty _ Hn (ge_abs _ G)) in E. injection E as <-. reflexivity.
  - destruct (F32.le (u m) (F32.of_int (- PWM_MAX))) eqn:G; [|apply andb_false_r].
    rewrite (full_abs_duty _ Hn (le_neg_abs _ G)) in E. injection E as <-. reflexivity.
Qed.

Lemma saturation_decided_by_effort_witness :
  exists m' d, applyMotor effort_neg5 = Some (m', d) /\
    saturatingHigh m' = F32.ge (u effort_neg5) (F32.of_int PWM_MAX) /\
    saturatingLow m' = F32.le (u effort_neg5) (F32.of_int (- PWM_MAX)).
Proof. apply (saturation_decided_by_effort effort_neg5). reflexivity. Defined.

(** X4: The Actuation Mapper is idempotent: run again on the state it
    produced, it produces that state and the same pin levels again. *)
Theorem applyMotor_idempotent (m m' : Motor) (d : Drive) :
  applyMotor m = Some (m', d) -> applyMotor m' = Some (m', d).
Proof.
  rewrite !applyMotor_duty.
  destruct (duty_of_mag (F32.fabsf (u m))) as [dt|] eqn:E; [|discriminate].
  cbv zeta. intros H. injection H as <- <-. cbn [u]. rewrite E. reflexivity.
Qed.

Lemma applyMotor_idempotent_witness :
  applyMotor (fst applied_neg5) = Some (fst applied_neg5, snd applied_neg5).
Proof.
  apply (applyMotor_idempotent effort_neg5 (fst applied_neg5) (snd applied_neg5)).
  reflexivity.
Defined.

Lemma fabsf_neg x : F32.fabsf (F32.neg x) = F32.fabsf x.
Proof. destruct x as [s|s| |s m e]; reflexivity. Qed.

(** X5: The Actuation Mapper treats the two senses of rotation alike:
    the opposite effort is given the same duty, and when the duty is not 0
    the direction is the opposite one and the two direction pins exchange
    their levels. *)
Theorem actuation_mirrors_sign (m : Motor) :
  let mn := set_u m (F32.neg (u m)) in
  option_map (fun r => duty (fst r)) (applyMotor mn) =
  option_map (fun r => duty (fst r)) (applyMotor m) /\
  forall m' d mn' dn,
    applyMotor m = Some (m', d) -> applyMotor mn = Some (mn', dn) ->
    pwm dn = pwm d /\
    (duty m' <> 0 ->
     dir mn' = - dir m' /\ pinA dn = pinB d /\ pinB dn = pinA d).
Proof.
  intros mn. subst mn. rewrite !applyMotor_duty. cbn [u set_u].
  rewrite fabsf_neg.
  destruct (duty_of_mag (F32.fabsf (u m))) as [dt|] eqn:E; cbv zeta;
    [|split; [reflexivity | discriminate]].
  split; [reflexivity|].
  intros m' d mn' dn H1 H2. injection H1 as <- <-. injection H2 as <- <-.
  cbn [duty dir]. split; [destruct (dt =? 0); repeat destruct (_ >? 0); reflexivity|].
  intros Hnz. destruct (Z.eqb_spec dt 0) as [|_]; [contradiction|].
  assert (G : F32.ge (F32.neg (u m)) (F32.of_int 0) = negb (F32.ge (u m) (F32.of_int 0))).
  { unfold duty_of_mag in E.
    destruct (u m) as [s|s| |s mm e]; try destruct s; try reflexivity;
      try (vm_compute in E; congruence). }
  change (F32.of_int 0) with (S754_zero false) in G. rewrite G.
  destruct (F32.ge (u m) (S754_zero false)); repeat split.
Qed.

(** * Further properties of the PID step *)

(** Multiplication by the gain Kp = 1 is exact. *)
Lemma mul_Kp x : valid_binary F32.prec F32.emax x = true -> F32.mul Kp x = x.
Proof.
  change Kp with (S754_finite false 8388608 (-23)). unfold F32.mul.
  destruct x as [s|s| |s m e]; try reflexivity.
  intros Hb. cbn [valid_binary] in Hb. cbn [SFmul xorb].
  pose proof (bounded_facts m e Hb) as (He & Hm & _).
  apply bounded_spec in Hb as [Hb _].
  assert (Hz : Zpos (8388608 * m) = Zpos m * 2 ^ 23) by (change (2 ^ 23) with 8388608; lia).
  pose proof (digits_shift m (8388608 * m) 23 ltac:(lia) Hz) as Hd.
  pose proof (bra_shape s (Zpos (8388608 * m)) (-23 + e) loc_Exact
                (Zpos (8388608 * m)) 1 ltac:(lia) ltac:(lia) (located_exact _)) as H.
  cbv zeta in H. rewrite fexp_eq in H. cbn [Zdigits2] in H. rewrite Hd in H.
  replace (Z.max (Z.pos (digits2_pos m) + 23 + (-23 + e) - 24) (-149)) with e in H by lia.
  destruct (H ltac:(lia)) as [-> _].
  replace (e - (-23 + e)) with 23 by lia. rewrite Z.mul_1_l, Hz.
  rewrite rnq_exact by (apply pow2_pos; lia).
  destruct (Z.eqb_spec (Zpos m) (2 ^ 24)) as [K|_]; [lia|].
  unfold result_of. destruct (Z.leb_spec e (F32.emax - F32.prec)) as [_|K];
    [reflexivity | unfold F32.emax, F32.prec in K; lia].
Qed.

Lemma is_number_valid x : is_number x = true -> valid_binary F32.prec F32.emax x = true.
Proof. unfold is_number. intros H. apply andb_prop in H. apply H. Qed.

Lemma normalize_valid z e :
  valid_binary F32.prec F32.emax (binary_normalize F32.prec F32.emax z e false) = true.
Proof.
  destruct z as [|p|p]; cbn [binary_normalize]; [reflexivity| |];
    apply is_number_valid, binary_round_number.
Qed.

(** The difference of two well-formed floats is well formed. *)
Lemma sub_valid x y :
  valid_binary F32.prec F32.emax x = true -> valid_binary F32.prec F32.emax y = true ->
  valid_binary F32.prec F32.emax (F32.sub x y) = true.
Proof.
  intros Hx Hy. unfold F32.sub, SFsub.
  destruct x as [sx|sx| |sx mx ex], y as [sy|sy| |sy my ey];
    try destruct sx; try destruct sy; try reflexivity; try assumption;
    apply normalize_valid.
Qed.

(** X6: With the gain Kp = 1 the proportional term of [pidStep] is the
    error itself, without rounding, so that the effort handed to the
    Actuation Mapper is (error + integral) + derivative, for every
    well-formed target and speed. *)
Theorem effort_is_error_plus_integral_plus_derivative (m : Motor) :
  valid_binary F32.prec F32.emax (target m) = true ->
  valid_binary F32.prec F32.emax (speed m) = true ->
  F32.mul Kp (err (pid_update m)) = err (pid_update m) /\
  u (pid_update m) =
    F32.add (F32.add (err (pid_update m)) (integ (pid_update m)))
            (deriv (pid_update m)).
Proof.
  intros Ht Hs. pose proof (mul_Kp _ (sub_valid _ _ Ht Hs)) as E.
  cbn [pid_update err u integ deriv]. rewrite E. split; reflexivity.
Qed.

Lemma effort_is_error_plus_integral_plus_derivative_witness :
  F32.mul Kp (err (pid_update rest_1000)) = err (pid_update rest_1000) /\
  u (pid_update rest_1000) =
    F32.add (F32.add (err (pid_update rest_1000)) (integ (pid_update rest_1000)))
            (deriv (pid_update rest_1000)).
Proof.
  apply (effort_is_error_plus_integral_plus_derivative rest_1000); reflexivity.
Defined.

(** ** The step at zero error *)

Lemma sub_self x : F32.is_finite x = true -> F32.sub x x = fzero.
Proof.
  unfold F32.sub, SFsub.
  destruct x as [s|s| |s m e]; try discriminate; intros _.
  - destruct s; reflexivity.
  - rewrite Z.sub_diag. reflexivity.
Qed.

Lemma le_not_lt x y : SFleb x y = true -> SFltb y x = false.
Proof.
  unfold SFleb, SFltb. rewrite (SFcompare_antisym x y).
  destruct (SFcompare x y) as [[]|]; cbn; congruence.
Qed.

(** An integral within its bounds passes the clamp unchanged. *)
Lemma clampI_id x : integral_in_range x = true -> clampI x = x.
Proof.
  unfold integral_in_range, clampI, F32.le, F32.gt, F32.lt. intros H.
  apply andb_prop in H as [H1 H2].
  rewrite (le_not_lt _ _ H2).
  destruct (SFltb x (F32.neg I_MAX)) eqn:K; [|reflexivity].
  unfold SFltb in K. unfold SFleb in H1. rewrite (SFcompare_antisym x (F32.neg I_MAX)) in H1.
  destruct (SFcompare x (F32.neg I_MAX)) as [[]|]; cbn in *; congruence.
Qed.

Lemma add_zero_r x : x <> S754_zero true -> F32.is_nan x = false -> F32.add x fzero = x.
Proof.
  destruct x as [s|s| |s m e]; try reflexivity; try discriminate.
  destruct s; [congruence | reflexivity].
Qed.

Lemma add_zero_l x : x <> S754_zero true -> F32.is_nan x = false -> F32.add fzero x = x.
Proof.
  destruct x as [s|s| |s m e]; try reflexivity; try discriminate.
  destruct s; [congruence | reflexivity].
Qed.

Lemma in_range_not_nan x : integral_in_range x = true -> F32.is_nan x = false.
Proof. destruct x; try reflexivity. discriminate. Qed.

(** The PID computation at zero error with no previous error. *)
Lemma pid_update_zero_error m :
  F32.is_finite (target m) = true -> speed m = target m ->
  errPrev m = fzero ->
  integral_in_range (integ m) = true -> integ m <> S754_zero true ->
  pid_update m =
    {| inA := inA m; inB := inB m; en := en m; ledc_ch := ledc_ch m;
       pCount := pCount m; lastCount := lastCount m;
       target := target m; speed := speed m; err := fzero;
       errPrev := fzero; integ := integ m; deriv := fzero; u := integ m;
       duty := duty m; dir := dir m |}.
Proof.
  intros Hf Hs Hp Hr Hz. unfold pid_update. rewrite Hs, (sub_self _ Hf), Hp.
  change (F32.gt fzero (F32.of_int 0)) with false.
  change (F32.lt fzero (F32.of_int 0)) with false.
  rewrite !andb_false_r.
  change (F32.mul Ki fzero) with fzero. change (F32.mul Kp fzero) with fzero.
  change (F32.mul Kd (F32.sub fzero fzero)) with fzero.
  pose proof (in_range_not_nan _ Hr) as Hn.
  rewrite (add_zero_r _ Hz Hn), (clampI_id _ Hr), (add_zero_l _ Hz Hn), (add_zero_r _ Hz Hn).
  reflexivity.
Qed.

(** X7: At zero error the PID step holds its output: when the measured
    speed equals a finite target, the previous error is 0 and the integral
    is within its bounds, the step leaves the integral as it is and the
    effort it hands to the Actuation Mapper is exactly the integral; the
    resulting state is a fixed point of the computation.  In particular a
    stop command does not by itself bring the duty of a stalled channel to
    0: the duty is that of the integral left behind. *)
Theorem zero_error_step_holds_the_integral (m : Motor) :
  F32.is_finite (target m) = true -> speed m = target m ->
  errPrev m = fzero ->
  integral_in_range (integ m) = true -> integ m <> S754_zero true ->
  integ (pid_update m) = integ m /\
  u (pid_update m) = integ m /\
  err (pid_update m) = fzero /\ deriv (pid_update m) = fzero /\
  pid_update (pid_update m) = pid_update m /\
  option_map snd (pidStep m) = option_map snd (applyMotor (set_u m (integ m))).
Proof.
  intros Hf Hs Hp Hr Hz.
  pose proof (pid_update_zero_error m Hf Hs Hp Hr Hz) as E.
  assert (E2 : pid_update (pid_update m) = pid_update m).
  { rewrite (pid_update_zero_error (pid_update m)); rewrite E; cbn; auto. }
  repeat split; try (rewrite E; reflexivity); try exact E2.
  unfold pidStep. rewrite !applyMotor_duty, E. cbn [u set_u].
  destruct (duty_of_mag (F32.fabsf (integ m))); reflexivity.
Qed.

Lemma zero_error_step_holds_the_integral_witness :
  integ (pid_update stalled_after_stop) = integ stalled_after_stop /\
  u (pid_update stalled_after_stop) = integ stalled_after_stop /\
  err (pid_update stalled_after_stop) = fzero /\
  deriv (pid_update stalled_after_stop) = fzero /\
  pid_update (pid_update stalled_after_stop) = pid_update stalled_after_stop /\
  option_map snd (pidStep stalled_after_stop) =
    option_map snd (applyMotor (set_u stalled_after_stop (integ stalled_after_stop))).
Proof.
  apply (zero_error_step_holds_the_integral stalled_after_stop);
    try reflexivity; discriminate.
Defined.

(** * Commands in decimal text *)

Lemma append_nil_r (s : string) : (s ++ "")%string = s.
Proof. induction s as [|c s IH]; cbn; [reflexivity | rewrite IH; reflexivity]. Qed.

Lemma append_assoc (a b c : string) : ((a ++ b) ++ c)%string = (a ++ (b ++ c))%string.
Proof. induction a as [|x a IH]; cbn; [reflexivity | rewrite IH; reflexivity]. Qed.

(** One decimal digit read by [scan_digits]. *)
Ltac scan_digit IH rest Hr :=
  cbn [scan_digits];
  match goal with
  | |- context [isdigit ?c] =>
      change (isdigit c) with true; cbv iota;
      let v := eval vm_compute in (Z.of_N (N_of_ascii c)) in
      change (Z.of_N (N_of_ascii c)) with v
  end;
  rewrite <- (IH _ rest Hr); f_equal; lia.

(** The digits of a decimal numeral are read back as its value. *)
Lemma scan_digits_acc (d : uint) : forall (acc : positive) (rest : string),
  starts_nondigit rest = true ->
  scan_digits (NilEmpty.string_of_uint d ++ rest) (Zpos acc) =
    (Zpos (Pos.of_uint_acc d acc), rest).
Proof.
  induction d as [|d IH|d IH|d IH|d IH|d IH|d IH|d IH|d IH|d IH|d IH];
    intros acc rest Hr; cbn [NilEmpty.string_of_uint append Pos.of_uint_acc];
    try scan_digit IH rest Hr.
  destruct rest as [|c r]; [reflexivity|].
  cbn [scan_digits]. cbn [starts_nondigit] in Hr.
  destruct (isdigit c); [discriminate Hr | reflexivity].
Qed.

Lemma scan_digits_uint (d : uint) : forall rest : string,
  starts_nondigit rest = true ->
  scan_digits (NilEmpty.string_of_uint d ++ rest) 0 = (Z.of_N (Pos.of_uint d), rest).
Proof.
  induction d as [|d IH|d IH|d IH|d IH|d IH|d IH|d IH|d IH|d IH|d IH];
    intros rest Hr; cbn [NilEmpty.string_of_uint append Pos.of_uint];
    try (cbn [scan_digits];
         match goal with
         | |- context [isdigit ?c] =>
             change (isdigit c) with true; cbv iota;
             let v := eval vm_compute in (Z.of_N (N_of_ascii c)) in
             change (Z.of_N (N_of_ascii c)) with v
         end).
  - destruct rest as [|c r]; [reflexivity|].
    cbn [scan_digits]. cbn [starts_nondigit] in Hr.
    destruct (isdigit c); [discriminate Hr | reflexivity].
  - apply IH, Hr.
  - apply (scan_digits_acc d 1 rest Hr).
  - apply (scan_digits_acc d 2 rest Hr).
  - apply (scan_digits_acc d 3 rest Hr).
  - apply (scan_digits_acc d 4 rest Hr).
  - apply (scan_digits_acc d 5 rest Hr).
  - apply (scan_digits_acc d 6 rest Hr).
  - apply (scan_digits_acc d 7 rest Hr).
  - apply (scan_digits_acc d 8 rest Hr).
  - apply (scan_digits_acc d 9 rest Hr).
Qed.

(** A numeral that is not empty begins with a digit. *)
Lemma uint_string_head (d : uint) :
  d <> Nil ->
  exists c r, NilEmpty.string_of_uint d = String c r /\
    isdigit c = true /\ isspace c = false /\
    Ascii.eqb (tolower c) (tolower "s") = false /\
    (c =? "-")%char = false /\ (c =? "+")%char = false.
Proof.
  destruct d; [congruence| | | | | | | | | |]; intros _;
    cbn [NilEmpty.string_of_uint]; eexists _, _; repeat split; reflexivity.
Qed.

Lemma to_uint_not_nil (p : positive) : Pos.to_uint p <> Nil.
Proof.
  intros E. pose proof (DecimalPos.Unsigned.of_to p) as H.
  rewrite E in H. discriminate H.
Qed.

Lemma saturate32_id z : INT_MIN <= z <= INT_MAX -> saturate32 z = z.
Proof. unfold saturate32, INT_MIN, INT_MAX. lia. Qed.

(** [scan_int] on text that begins with a digit, or with a minus sign and
    a digit. *)
Lemma scan_int_digits c r :
  isdigit c = true ->
  scan_int (String c r) =
    Some (saturate32 (fst (scan_digits (String c r) 0)), snd (scan_digits (String c r) 0)).
Proof.
  intros H.
  destruct c as [[] [] [] [] [] [] [] []]; try discriminate H;
    unfold scan_int; cbn [ltrim];
    match goal with |- context [isspace ?c] => change (isspace c) with false end;
    cbv iota;
    match goal with |- context [isdigit ?c] => change (isdigit c) with true end;
    cbv iota; destruct (scan_digits _ 0); reflexivity.
Qed.

Lemma scan_int_minus c r :
  isdigit c = true ->
  scan_int (String "-" (String c r)) =
    Some (saturate32 (- fst (scan_digits (String c r) 0)),
          snd (scan_digits (String c r) 0)).
Proof.
  intros H. unfold scan_int. cbn [ltrim]. change (isspace "-") with false.
  cbv iota. rewrite H. destruct (scan_digits _ 0); reflexivity.
Qed.

Lemma nilzero_string (d : uint) :
  d <> Nil -> NilZero.string_of_uint d = NilEmpty.string_of_uint d.
Proof. destruct d; [congruence|..]; reflexivity. Qed.

Lemma scan_digits_decimal (p : positive) (rest : string) :
  starts_nondigit rest = true ->
  exists c r, (NilEmpty.string_of_uint (Pos.to_uint p) ++ rest)%string = String c r /\
    isdigit c = true /\ isspace c = false /\
    Ascii.eqb (tolower c) (tolower "s") = false /\
    scan_digits (String c r) 0 = (Zpos p, rest).
Proof.
  intros Hr.
  destruct (uint_string_head _ (to_uint_not_nil p)) as (c & r & E & Hd & Hs & Ht & _).
  exists c, (r ++ rest)%string.
  assert (E' : (NilEmpty.string_of_uint (Pos.to_uint p) ++ rest)%string =
               String c (r ++ rest)) by (rewrite E; reflexivity).
  repeat split; try assumption.
  rewrite <- E', scan_digits_uint by exact Hr.
  rewrite DecimalPos.Unsigned.of_to. reflexivity.
Qed.

(** Reading back the decimal text of an integer: [strtol] yields the
    integer, saturated to 32 bits, and stops at the text that follows. *)
Lemma scan_int_decimal (z : Z) (rest : string) :
  starts_nondigit rest = true ->
  scan_int (decimal z ++ rest) = Some (saturate32 z, rest) /\
  exists c r, (decimal z ++ rest)%string = String c r /\ isspace c = false /\
              Ascii.eqb (tolower c) (tolower "s") = false.
Proof.
  intros Hr. unfold decimal. destruct z as [|p|p]; cbn [Z.to_int NilZero.string_of_int].
  - change (NilZero.string_of_uint zero) with (NilEmpty.string_of_uint (D0 Nil)).
    split; [|eexists _, _; repeat split; reflexivity].
    cbn [NilEmpty.string_of_uint append].
    rewrite scan_int_digits by reflexivity.
    change (String "0" rest) with (NilEmpty.string_of_uint (D0 Nil) ++ rest)%string.
    rewrite scan_digits_uint by exact Hr. reflexivity.
  - rewrite nilzero_string by apply to_uint_not_nil.
    destruct (scan_digits_decimal p rest Hr) as (c & r & E & Hd & Hs & Ht & Hv).
    rewrite E. split; [|exists c, r; repeat split; assumption].
    rewrite scan_int_digits by exact Hd. rewrite Hv. reflexivity.
  - rewrite nilzero_string by apply to_uint_not_nil.
    destruct (scan_digits_decimal p rest Hr) as (c & r & E & Hd & Hs & Ht & Hv).
    cbn [append]. rewrite E.
    split; [|eexists _, _; repeat split; reflexivity].
    rewrite scan_int_minus by exact Hd. rewrite Hv. reflexivity.
Qed.

Lemma toInt_decimal z : toInt (decimal z) = saturate32 z.
Proof.
  unfold toInt. rewrite <- (append_nil_r (decimal z)).
  destruct (scan_int_decimal z "" eq_refl) as [-> _]. reflexivity.
Qed.

(** Two decimal integers separated by a blank, whatever follows them. *)
Lemma sscanf_decimal l r rest :
  starts_nondigit rest = true ->
  sscanf_d_d (decimal l ++ " " ++ decimal r ++ rest) = Some (saturate32 l, saturate32 r).
Proof.
  intros Hr. unfold sscanf_d_d.
  destruct (scan_int_decimal l (" " ++ decimal r ++ rest) eq_refl) as [-> _].
  cbn [append ltrim]. change (isspace " ") with true. cbv iota.
  destruct (scan_int_decimal r rest Hr) as [E (c & t & Ec & Hs & _)].
  rewrite Ec in *. cbn [ltrim]. rewrite Hs, E. reflexivity.
Qed.

(** X8: A serial line holding two integers in decimal, separated by a
    blank, with or without white space around and text after them, is
    accepted whatever the integers: the targets become exactly these two
    values, converted to float, without any clamping, and the line is
    echoed as "Serial CMD". *)
Theorem serial_decimal_command_is_stored (line : string) (l r : Z)
        (rest : string) (s : Sys) :
  trim line = (decimal l ++ " " ++ decimal r ++ rest)%string ->
  starts_nondigit rest = true ->
  INT_MIN <= l <= INT_MAX -> INT_MIN <= r <= INT_MAX ->
  handleSerial (Some line) s =
    (set_targets s (F32.of_int l) (F32.of_int r),
     [SerialPrint (Fmt "Serial CMD: L=%d R=%d\n" [AInt l; AInt r])]).
Proof.
  intros Et Hr Hl Hrr. unfold handleSerial. rewrite Et.
  rewrite (sscanf_decimal l r rest Hr), !saturate32_id by assumption.
  destruct (scan_int_decimal l (" " ++ decimal r ++ rest) eq_refl)
    as [_ (c & t & Ec & _ & Hs)].
  rewrite Ec. cbn [String.length Nat.eqb equalsIgnoreCase]. rewrite Hs. reflexivity.
Qed.

Lemma serial_decimal_command_is_stored_witness :
  handleSerial (Some "  120 -2500 rpm  "%string) Sys_init =
    (set_targets Sys_init (F32.of_int 120) (F32.of_int (-2500)),
     [SerialPrint (Fmt "Serial CMD: L=%d R=%d\n" [AInt 120; AInt (-2500)])]).
Proof.
  apply (serial_decimal_command_is_stored "  120 -2500 rpm  " 120 (-2500) " rpm" Sys_init);
    try reflexivity; unfold INT_MIN, INT_MAX; lia.
Defined.

Lemma constrain_id amt low high : low <= amt <= high -> constrain amt low high = amt.
Proof.
  intros H. unfold constrain.
  destruct (Z.ltb_spec amt low); [lia|]. rewrite Z.gtb_ltb.
  destruct (Z.ltb_spec high amt); [lia | reflexivity].
Qed.

Lemma constrain_saturate z :
  constrain (saturate32 z) (- CMD_CLAMP) CMD_CLAMP = constrain z (- CMD_CLAMP) CMD_CLAMP.
Proof.
  assert (H : saturate32 z = z \/ (z < INT_MIN /\ saturate32 z = INT_MIN) \/
              (INT_MAX < z /\ saturate32 z = INT_MAX))
    by (unfold saturate32, INT_MIN, INT_MAX; change (2 ^ 31) with 2147483648; lia).
  unfold constrain. rewrite !Z.gtb_ltb.
  destruct H as [-> | [[Hz ->] | [Hz ->]]]; [reflexivity| |].
  - assert (E : (z <? - CMD_CLAMP) = true)
      by (apply Z.ltb_lt; unfold INT_MIN, CMD_CLAMP in *;
          change (2 ^ 31) with 2147483648 in *; lia).
    rewrite E. reflexivity.
  - assert (E1 : (z <? - CMD_CLAMP) = false)
      by (apply Z.ltb_ge; unfold INT_MAX, CMD_CLAMP in *;
          change (2 ^ 31) with 2147483648 in *; lia).
    assert (E2 : (CMD_CLAMP <? z) = true)
      by (apply Z.ltb_lt; unfold INT_MAX, CMD_CLAMP in *;
          change (2 ^ 31) with 2147483648 in *; lia).
    rewrite E1, E2. reflexivity.
Qed.

(** X9: The command the web page sends is stored as sent: for the request
    that [sendCmd()] builds from two integers, whatever their size, the
    /cmd handler answers 200, stores each value clamped to the safety bound
    and echoes the stored values; for slider values, which lie within the
    bound, the targets are exactly the values sent. *)
Theorem page_command_round_trip (l r : Z) (s : Sys) :
  let cl := constrain l (- CMD_CLAMP) CMD_CLAMP in
  let cr := constrain r (- CMD_CLAMP) CMD_CLAMP in
  handleClient (Some (sendCmd l r)) s =
    (set_targets s (F32.of_int cl) (F32.of_int cr),
     [HttpSend 200 "text/plain" (Fmt "OK L=%d R=%d" [AInt cl; AInt cr]);
      SerialPrint (Fmt "OK L=%d R=%d" [AInt cl; AInt cr])]) /\
  (- CMD_CLAMP <= l <= CMD_CLAMP -> cl = l) /\
  (- CMD_CLAMP <= r <= CMD_CLAMP -> cr = r).
Proof.
  intros cl cr. subst cl cr. split.
  - unfold handleClient, sendCmd. cbn [uri String.eqb Ascii.eqb Bool.eqb].
    unfold handleCmd, hasArg, arg.
    cbn [args existsb find fst snd String.eqb Ascii.eqb Bool.eqb orb negb].
    rewrite !toInt_decimal, !constrain_saturate. reflexivity.
  - split; intros H; apply constrain_id; exact H.
Qed.

Lemma toInt_leading z rest :
  starts_nondigit rest = true -> toInt (decimal z ++ rest) = saturate32 z.
Proof.
  intros H. unfold toInt. destruct (scan_int_decimal z rest H) as [-> _]. reflexivity.
Qed.

(** X10: The /cmd handler reads the leading integer of each argument and
    ignores whatever follows it: when the arguments [l] and [r] are the
    decimal text of two integers, each followed by any text that does not
    start with a digit, the request is accepted with status 200 and the
    targets become the two integers, clamped to the safety bound. *)
Theorem cmd_reads_leading_integers (rq : Request) (l r : Z)
        (jl jr : string) (s : Sys) :
  hasArg rq "l" = true -> hasArg rq "r" = true ->
  arg rq "l" = (decimal l ++ jl)%string -> arg rq "r" = (decimal r ++ jr)%string ->
  starts_nondigit jl = true -> starts_nondigit jr = true ->
  let cl := constrain l (- CMD_CLAMP) CMD_CLAMP in
  let cr := constrain r (- CMD_CLAMP) CMD_CLAMP in
  handleCmd rq s =
    (set_targets s (F32.of_int cl) (F32.of_int cr),
     [HttpSend 200 "text/plain" (Fmt "OK L=%d R=%d" [AInt cl; AInt cr]);
      SerialPrint (Fmt "OK L=%d R=%d" [AInt cl; AInt cr])]).
Proof.
  intros Hl Hr El Er Jl Jr cl cr. subst cl cr.
  unfold handleCmd. rewrite Hl, Hr, El, Er. cbn [negb orb].
  rewrite !toInt_leading, !constrain_saturate by assumption. reflexivity.
Qed.

Lemma cmd_reads_leading_integers_witness :
  handleCmd cmd_with_trailing_text running_1500 =
    (set_targets running_1500
       (F32.of_int (constrain 120 (- CMD_CLAMP) CMD_CLAMP))
       (F32.of_int (constrain (-7) (- CMD_CLAMP) CMD_CLAMP)),
     [HttpSend 200 "text/plain"
        (Fmt "OK L=%d R=%d" [AInt (constrain 120 (- CMD_CLAMP) CMD_CLAMP);
                             AInt (constrain (-7) (- CMD_CLAMP) CMD_CLAMP)]);
      SerialPrint
        (Fmt "OK L=%d R=%d" [AInt (constrain 120 (- CMD_CLAMP) CMD_CLAMP);
                             AInt (constrain (-7) (- CMD_CLAMP) CMD_CLAMP)])]).
Proof.
  apply (cmd_reads_leading_integers cmd_with_trailing_text 120 (-7) "abc" ".5"
           running_1500); reflexivity.
Defined.

(** * Properties of whole executions *)

Lemma same_but_target_refl m : same_but_target m m.
Proof. unfold same_but_target. repeat split. Qed.

Lemma same_but_target_trans m1 m2 m3 :
  same_but_target m1 m2 -> same_but_target m2 m3 -> same_but_target m1 m3.
Proof.
  unfold same_but_target. intros H1 H2.
  repeat match goal with H : _ /\ _ |- _ => destruct H end.
  repeat split; congruence.
Qed.

Lemma only_targets_refl s : only_targets_differ s s.
Proof.
  unfold only_targets_differ. repeat split; apply same_but_target_refl.
Qed.

Lemma only_targets_trans s1 s2 s3 :
  only_targets_differ s1 s2 -> only_targets_differ s2 s3 ->
  only_targets_differ s1 s3.
Proof.
  intros (A1 & A2 & A3 & A4 & A5 & A6 & A7) (B1 & B2 & B3 & B4 & B5 & B6 & B7).
  unfold only_targets_differ.
  repeat split; try congruence; eapply same_but_target_trans; eassumption.
Qed.

Lemma only_targets_set s l r : only_targets_differ s (set_targets s l r).
Proof.
  unfold only_targets_differ, same_but_target. cbn. repeat split.
Qed.

Lemma handleSerial_targets line s :
  only_targets_differ s (fst (handleSerial line s)).
Proof.
  unfold handleSerial. destruct line as [line|]; [|apply only_targets_refl].
  destruct (String.length (trim line) =? 0)%nat; [apply only_targets_refl|].
  destruct (equalsIgnoreCase (trim line) "stop"); [apply only_targets_set|].
  destruct (sscanf_d_d (trim line)) as [[a b]|];
    [apply only_targets_set | apply only_targets_refl].
Qed.

Lemma handleClient_targets req s :
  only_targets_differ s (fst (handleClient req s)).
Proof.
  unfold handleClient. destruct req as [rq|]; [|apply only_targets_refl].
  destruct (String.eqb (uri rq) "/"); [apply only_targets_refl|].
  destruct (String.eqb (uri rq) "/cmd").
  - unfold handleCmd.
    destruct (negb (hasArg rq "l") || negb (hasArg rq "r"));
      [apply only_targets_refl | apply only_targets_set].
  - destruct (String.eqb (uri rq) "/stop"); [apply only_targets_set|].
    destruct (String.eqb (uri rq) "/telemetry"); apply only_targets_refl.
Qed.

(** The state in which the tick of a pass is decided: after both command
    handlers. *)
Lemma handlers_targets req line s :
  only_targets_differ s (fst (handleSerial line (fst (handleClient req s)))).
Proof.
  eapply only_targets_trans; [apply handleClient_targets | apply handleSerial_targets].
Qed.

(** The two outcomes of a pass of [loop()]. *)
Lemma loop_cases now req line s s' o :
  loop now req line s = Some (s', o) ->
  let sb := fst (handleSerial line (fst (handleClient req s))) in
  (wrap32u (now - lastMs sb) < SAMPLE_MS /\ s' = sb) \/
  (SAMPLE_MS <= wrap32u (now - lastMs sb) /\
   exists m1' d1 m2' d2,
     channel_tick sb (M1 sb) = Some (m1', d1) /\
     channel_tick sb (M2 sb) = Some (m2', d2) /\
     s' = {| M1 := m1'; M2 := m2';
             encCount1 := encCount1 sb; encCount2 := encCount2 sb;
             lastMs := now; drive1 := d1; drive2 := d2 |}).
Proof.
  unfold loop, channel_tick, pidStep.
  destruct (handleClient req s) as [sa o1]. cbn [fst].
  destruct (handleSerial line sa) as [sb o2]. cbn [fst].
  rewrite Z.geb_leb.
  destruct (Z.leb_spec SAMPLE_MS (wrap32u (now - lastMs sb))) as [Hge|Hlt].
  - destruct (applyMotor (pid_update (updateSpeed (read_count sb (pCount (M1 sb))) (M1 sb))))
      as [[m1' d1]|]; [|discriminate].
    destruct (applyMotor (pid_update (updateSpeed (read_count sb (pCount (M2 sb))) (M2 sb))))
      as [[m2' d2]|]; [|discriminate].
    intros E. injection E as <- _. right. split; [exact Hge|].
    exists m1', d1, m2', d2. repeat split.
  - intros E. injection E as <- _. left. split; [exact Hlt | reflexivity].
Qed.

(** X11: A command, whatever its source and content, changes nothing but the
    two targets: the HTTP handlers and the serial handler leave every other
    field of both motors, the counters, the tick reference and the pins as
    they were, and so does a pass of [loop()] that does not tick. *)
Theorem commands_only_change_targets (req : option Request)
        (line : option string) (s : Sys) :
  only_targets_differ s (fst (handleClient req s)) /\
  only_targets_differ s (fst (handleSerial line s)) /\
  forall now, wrap32u (now - lastMs s) < SAMPLE_MS ->
    exists s' o, loop now req line s = Some (s', o) /\ only_targets_differ s s'.
Proof.
  split; [apply handleClient_targets|]. split; [apply handleSerial_targets|].
  intros now Hlt. pose proof (handlers_targets req line s) as H.
  unfold loop.
  destruct (handleClient req s) as [sa o1]. cbn [fst] in H.
  destruct (handleSerial line sa) as [sb o2]. cbn [fst] in H.
  assert (E : lastMs sb = lastMs s) by apply H. rewrite E, Z.geb_leb.
  destruct (Z.leb_spec SAMPLE_MS (wrap32u (now - lastMs s))); [lia|].
  eexists _, _. split; [reflexivity | exact H].
Qed.

(** Induction over the executions from the initial state whose events all
    pass the test [ok], with the invariant [sys_ok] at hand. *)
Lemma run_invariant_guarded (ok : Event -> bool) (P : Sys -> Prop) :
  P Sys_init ->
  (forall ev s s' o, ok ev = true -> sys_ok s -> P s ->
                     step ev s = Some (s', o) -> P s') ->
  forall evs, forallb ok evs = true ->
    exists s, run evs Sys_init = Some s /\ sys_ok s /\ P s.
Proof.
  intros H0 Hstep evs.
  assert (G : forall s, sys_ok s -> P s -> forallb ok evs = true ->
                exists s', run evs s = Some s' /\ sys_ok s' /\ P s').
  { induction evs as [|ev evs IH]; intros s Hs Hp Hok; cbn [run].
    - exists s. split; [reflexivity | split; assumption].
    - cbn [forallb] in Hok. apply andb_prop in Hok as [Hev Hok].
      destruct (step_ok ev s Hs) as (s1 & o & E & H1). rewrite E.
      apply IH; [exact H1 | exact (Hstep ev s s1 o Hev Hs Hp E) | exact Hok]. }
  apply G; [apply sys_ok_init | exact H0].
Qed.

Lemma applyMotor_drive m m' d : applyMotor m = Some (m', d) -> d = drive_of m'.
Proof.
  rewrite applyMotor_duty.
  destruct (duty_of_mag (F32.fabsf (u m))) as [dt|]; [|discriminate].
  cbv zeta. intros E. injection E as <- <-. reflexivity.
Qed.

(** A channel's share of a tick leaves its pins in agreement with its
    state. *)
Lemma channel_tick_out s m m' d :
  motor_ok m -> channel_tick s m = Some (m', d) -> channel_out_ok m' d.
Proof.
  intros H E. unfold channel_tick in E.
  destruct (updateSpeed_ok (read_count s (pCount m)) m H) as [H1 H2].
  pose proof (pid_update_ok _ H1 H2) as (_ & _ & _ & _ & _ & Hu).
  destruct (applyMotor_defined _ Hu) as (m1 & d1 & E1 & Hz & Hnz).
  rewrite E in E1. injection E1 as <- <-.
  split; [eapply applyMotor_drive; exact E|].
  destruct (F32.lt (F32.fabsf (u (pid_update (updateSpeed (read_count s (pCount m)) m)))) f_one);
    [left; apply Hz | right; apply Hnz]; reflexivity.
Qed.

Lemma same_but_target_out m m' d :
  same_but_target m m' -> channel_out_ok m d -> channel_out_ok m' d.
Proof.
  intros H [E B]. unfold channel_out_ok, drive_of in *.
  destruct H as (_ & _ & _ & _ & _ & _ & _ & _ & _ & _ & _ & _ & Hd & Hr).
  rewrite Hd, Hr. split; assumption.
Qed.

Lemma channel_out_facts m d :
  channel_out_ok m d ->
  pwm d = duty m /\ (pinA d && pinB d) = false /\
  (pinA d || pinB d) = negb (duty m =? 0) /\
  ((duty m =? 0) = false -> pinA d = (dir m >? 0)).
Proof.
  intros [-> _]. unfold drive_of.
  destruct (duty m =? 0); [|destruct (dir m >? 0)]; cbn; repeat split; discriminate.
Qed.

(** A step keeps the pins of both channels in agreement with their
    states. *)
Lemma step_keeps_outputs ev s s' o :
  sys_ok s ->
  channel_out_ok (M1 s) (drive1 s) /\ channel_out_ok (M2 s) (drive2 s) ->
  step ev s = Some (s', o) ->
  channel_out_ok (M1 s') (drive1 s') /\ channel_out_ok (M2 s') (drive2 s').
Proof.
  intros Hs [H1 H2] E.
  destruct ev as [a b|a b|a b|a b|now req line]; cbn [step] in E.
  1-4: injection E as <- _; split; assumption.
  apply loop_cases in E. cbv zeta in E.
  pose proof (handlers_targets req line s) as (T1 & T2 & _ & _ & _ & D1 & D2).
  pose proof (handleSerial_ok line _ (handleClient_ok req s Hs)) as [K1 K2].
  destruct E as [[_ ->] | (_ & m1' & d1 & m2' & d2 & E1 & E2 & ->)].
  - rewrite D1, D2.
    split; [apply (same_but_target_out (M1 s)) | apply (same_but_target_out (M2 s))];
      assumption.
  - cbn [M1 M2 drive1 drive2].
    split; [exact (channel_tick_out _ _ _ _ K1 E1) | exact (channel_tick_out _ _ _ _ K2 E2)].
Qed.

Lemma outputs_init :
  channel_out_ok (M1 Sys_init) (drive1 Sys_init) /\
  channel_out_ok (M2 Sys_init) (drive2 Sys_init).
Proof. split; (split; [reflexivity | left; reflexivity]). Qed.

Lemma forallb_true (evs : list Event) : forallb (fun _ => true) evs = true.
Proof. induction evs; [reflexivity | assumption]. Qed.

(** X12: In every reachable state the pins of each channel agree with its
    motor record: the PWM carries the duty, the duty is 0 or lies above
    MIN_DUTY_START up to PWM_MAX, both direction pins are low exactly when
    the duty is 0, otherwise exactly one is high, chosen by the direction;
    the two direction pins of a channel are never high together. *)
Theorem outputs_follow_state (evs : list Event) :
  exists s, run evs Sys_init = Some s /\
    forall m d, (m = M1 s /\ d = drive1 s) \/ (m = M2 s /\ d = drive2 s) ->
      d = drive_of m /\ pwm d = duty m /\
      (duty m = 0 \/ MIN_DUTY_START < duty m <= PWM_MAX) /\
      (pinA d && pinB d) = false /\
      (pinA d || pinB d) = negb (duty m =? 0) /\
      ((duty m =? 0) = false -> pinA d = (dir m >? 0)).
Proof.
  destruct (run_invariant_guarded (fun _ => true)
              (fun s => channel_out_ok (M1 s) (drive1 s) /\
                        channel_out_ok (M2 s) (drive2 s)))
    with (evs := evs) as (s & E & _ & H1 & H2).
  - exact outputs_init.
  - intros ev s s' o _. apply step_keeps_outputs.
  - apply forallb_true.
  - exists s. split; [exact E|].
    intros m d [[-> ->] | [-> ->]];
      [pose proof (channel_out_facts _ _ H1) as F; destruct H1 as [A B]
      |pose proof (channel_out_facts _ _ H2) as F; destruct H2 as [A B]];
      destruct F as (F1 & F2 & F3 & F4); repeat split; assumption.
Qed.

(** ** The encoder counters *)

Lemma wrap32s_id z : INT_MIN <= z <= INT_MAX -> wrap32s z = z.
Proof.
  unfold wrap32s, INT_MIN, INT_MAX. intros H.
  rewrite Z.mod_small; lia.
Qed.

Lemma wrap32s_int z : INT_MIN <= wrap32s z <= INT_MAX.
Proof.
  unfold wrap32s, INT_MIN, INT_MAX.
  pose proof (Z.mod_pos_bound (z + 2 ^ 31) (2 ^ 32) ltac:(lia)). lia.
Qed.

Lemma isr_int a b cnt :
  INT_MIN <= isrA a b cnt <= INT_MAX /\ INT_MIN <= isrB a b cnt <= INT_MAX.
Proof.
  unfold isrA, isrB. destruct (Bool.eqb a b); split; apply wrap32s_int.
Qed.

(** X13: The encoder counters are written by the interrupt routines alone:
    after any execution, with commands and control ticks interleaved at
    will, each counter is what the encoder edges alone make of it, and it
    is a 32-bit value. *)
Theorem counters_follow_edges (evs : list Event) :
  exists s, run evs Sys_init = Some s /\
    (encCount1 s, encCount2 s) = fold_left isr_effect evs (0, 0) /\
    INT_MIN <= encCount1 s <= INT_MAX /\ INT_MIN <= encCount2 s <= INT_MAX.
Proof.
  assert (G : forall s, sys_ok s ->
            INT_MIN <= encCount1 s <= INT_MAX -> INT_MIN <= encCount2 s <= INT_MAX ->
            exists s', run evs s = Some s' /\
              (encCount1 s', encCount2 s') =
                fold_left isr_effect evs (encCount1 s, encCount2 s) /\
              INT_MIN <= encCount1 s' <= INT_MAX /\
              INT_MIN <= encCount2 s' <= INT_MAX).
  { induction evs as [|ev evs IH]; intros s Hs R1 R2; cbn [run fold_left].
    - exists s. repeat split; apply R1 || apply R2.
    - destruct (step_ok ev s Hs) as (s1 & o & E & H1). rewrite E.
      assert (K : (encCount1 s1, encCount2 s1) =
                  isr_effect (encCount1 s, encCount2 s) ev /\
                  INT_MIN <= encCount1 s1 <= INT_MAX /\
                  INT_MIN <= encCount2 s1 <= INT_MAX).
      { destruct ev as [a b|a b|a b|a b|now req line]; cbn [step] in E.
        1-4: injection E as <- _;
             cbn [isrA1 isrB1 isrA2 isrB2 set_counts encCount1 encCount2
                  isr_effect fst snd];
             repeat split; first [apply R1 | apply R2 | apply isr_int].
        apply loop_cases in E. cbv zeta in E.
        pose proof (handlers_targets req line s) as (_ & _ & C1 & C2 & _).
        cbn [isr_effect].
        destruct E as [[_ ->] | (_ & m1' & d1 & m2' & d2 & _ & _ & ->)];
          cbn [encCount1 encCount2]; rewrite C1, C2; repeat split;
          apply R1 || apply R2. }
      destruct K as (K & R1' & R2'). rewrite <- K. apply IH; assumption. }
  apply (G Sys_init sys_ok_init); unfold INT_MIN, INT_MAX; cbn; lia.
Qed.

Lemma count_moved_zero c s : count_moved c 0 s = s.
Proof.
  destruct s, c; unfold count_moved, set_counts; cbn; f_equal; lia.
Qed.

Lemma count_moved_add c d1 d2 s :
  count_moved c d2 (count_moved c d1 s) = count_moved c (d1 + d2) s.
Proof.
  destruct c; unfold count_moved, set_counts; cbn; f_equal; lia.
Qed.

Lemma read_count_moved c d s : read_count (count_moved c d s) c = read_count s c + d.
Proof. destruct c; reflexivity. Qed.

(** One edge of a rotation moves the counter one step in the sense of the
    rotation. *)
Lemma rotation_edge (c : counter_ref) (fwd a b : bool) (s : Sys) :
  let d := if fwd then 1 else -1 in
  INT_MIN <= read_count s c + d <= INT_MAX ->
  step (match next_phase fwd a b with
        | PhaseA => edge_event c PhaseA (negb a) b
        | PhaseB => edge_event c PhaseB a (negb b)
        end) s = Some (count_moved c d s, []).
Proof.
  intros d H. subst d.
  destruct c, fwd, a, b;
    cbn [read_count next_phase Bool.eqb negb edge_event step] in H |- *;
    unfold isrA1, isrB1, isrA2, isrB2, isrA, isrB, count_moved;
    cbn [Bool.eqb]; rewrite wrap32s_id by lia; reflexivity.
Qed.

Lemma rotation_run (c : counter_ref) (fwd : bool) (n : nat) : forall a b s,
  INT_MIN <= read_count s c <= INT_MAX ->
  INT_MIN <= read_count s c + (if fwd then Z.of_nat n else - Z.of_nat n) <= INT_MAX ->
  run (rotation c fwd n a b) s =
    Some (count_moved c (if fwd then Z.of_nat n else - Z.of_nat n) s).
Proof.
  induction n as [|n IH]; intros a b s R H.
  - cbn [rotation run]. replace (if fwd then Z.of_nat 0 else - Z.of_nat 0) with 0
      by (destruct fwd; reflexivity).
    rewrite count_moved_zero. reflexivity.
  - cbn [rotation].
    pose proof (rotation_edge c fwd a b s) as E. cbv zeta in E.
    assert (H1 : INT_MIN <= read_count s c + (if fwd then 1 else -1) <= INT_MAX)
      by (destruct fwd; lia).
    specialize (E H1).
    assert (G : forall a' b',
              run (rotation c fwd n a' b') (count_moved c (if fwd then 1 else -1) s) =
              Some (count_moved c (if fwd then Z.of_nat (S n) else - Z.of_nat (S n)) s)).
    { intros a' b'. rewrite IH.
      - rewrite count_moved_add. do 2 f_equal. destruct fwd; lia.
      - rewrite read_count_moved. exact H1.
      - rewrite read_count_moved. destruct fwd; lia. }
    destruct (next_phase fwd a b); cbn [run]; rewrite E; apply G.
Qed.

Lemma run_app evs1 evs2 s s1 :
  run evs1 s = Some s1 -> run (evs1 ++ evs2) s = run evs2 s1.
Proof.
  revert s. induction evs1 as [|ev evs1 IH]; intros s; cbn [run List.app].
  - intros E. injection E as ->. reflexivity.
  - destruct (step ev s) as [[s' o]|]; [apply IH | discriminate].
Qed.

(** X14: The interrupt routines decode the quadrature signal edge by edge:
    n successive edges of an encoder turning in one sense move its counter
    by n in that sense, whatever the levels the rotation starts from, and
    leave the rest of the system alone; turning back by as many edges
    restores the state.  The counter is assumed not to overflow. *)
Theorem quadrature_counts_every_edge (c : counter_ref) (fwd : bool) (n : nat)
        (a b : bool) (s : Sys) :
  let d := if fwd then Z.of_nat n else - Z.of_nat n in
  INT_MIN <= read_count s c <= INT_MAX ->
  INT_MIN <= read_count s c + d <= INT_MAX ->
  run (rotation c fwd n a b) s = Some (count_moved c d s) /\
  run (rotation c fwd n a b ++
       rotation c (negb fwd) n (fst (levels_after fwd n a b))
                                (snd (levels_after fwd n a b))) s = Some s.
Proof.
  intros d R H. subst d.
  pose proof (rotation_run c fwd n a b s R H) as E. split; [exact E|].
  rewrite (run_app _ _ _ _ E), rotation_run.
  - rewrite count_moved_add.
    replace (_ + _) with 0 by (destruct fwd; cbn [negb]; lia).
    rewrite count_moved_zero. reflexivity.
  - rewrite read_count_moved. exact H.
  - rewrite read_count_moved. destruct fwd; cbn [negb]; lia.
Qed.

Lemma quadrature_counts_every_edge_witness :
  run (rotation EncCount1 true 4 false false) Sys_init =
    Some (count_moved EncCount1 4 Sys_init) /\
  run (rotation EncCount1 true 4 false false ++
       rotation EncCount1 false 4
         (fst (levels_after true 4 false false))
         (snd (levels_after true 4 false false))) Sys_init = Some Sys_init.
Proof.
  apply (quadrature_counts_every_edge EncCount1 true 4 false false Sys_init);
    unfold INT_MIN, INT_MAX; cbn; lia.
Defined.

(** ** The idle controller *)

Lemma rest_tick1 :
  applyMotor (pid_update (updateSpeed 0 M1_init)) = Some (M1_init, mkDrive false false 0).
Proof. by_eval. Qed.

Lemma rest_tick2 :
  applyMotor (pid_update (updateSpeed 0 M2_init)) = Some (M2_init, mkDrive false false 0).
Proof. by_eval. Qed.

Lemma at_rest_stop s : at_rest s -> at_rest (set_targets s (F32.of_int 0) (F32.of_int 0)).
Proof.
  intros (E1 & E2 & H). unfold at_rest. cbn [set_targets M1 M2 encCount1 encCount2 drive1 drive2].
  rewrite E1, E2. repeat split; try apply H.
Qed.

Lemma quiet_handlers now req line s :
  quiet (EvLoop now req line) = true -> at_rest s ->
  at_rest (fst (handleSerial line (fst (handleClient req s)))).
Proof.
  cbn [quiet]. intros Q H. apply andb_prop in Q as [Qr Ql].
  assert (Ha : at_rest (fst (handleClient req s))).
  { unfold handleClient. destruct req as [rq|]; [|exact H].
    destruct (String.eqb (uri rq) "/"); [exact H|].
    destruct (String.eqb (uri rq) "/cmd").
    - unfold handleCmd. cbn [negb orb] in Qr. rewrite Qr. exact H.
    - destruct (String.eqb (uri rq) "/stop"); [apply at_rest_stop, H|].
      destruct (String.eqb (uri rq) "/telemetry"); exact H. }
  revert Ha. generalize (fst (handleClient req s)). intros sa Ha.
  unfold handleSerial. destruct line as [l|]; [|exact Ha].
  unfold line_asks_no_motion in Ql.
  destruct (String.length (trim l) =? 0)%nat; [exact Ha|].
  destruct (equalsIgnoreCase (trim l) "stop"); [apply at_rest_stop, Ha|].
  destruct (sscanf_d_d (trim l)) as [[x y]|]; [discriminate Ql | exact Ha].
Qed.

Lemma rest_channel_tick1 s :
  M1 s = M1_init -> encCount1 s = 0 ->
  channel_tick s (M1 s) = Some (M1_init, mkDrive false false 0).
Proof.
  intros E C. unfold channel_tick. rewrite E.
  replace (read_count s (pCount M1_init)) with 0 by (symmetry; exact C).
  exact rest_tick1.
Qed.

Lemma rest_channel_tick2 s :
  M2 s = M2_init -> encCount2 s = 0 ->
  channel_tick s (M2 s) = Some (M2_init, mkDrive false false 0).
Proof.
  intros E C. unfold channel_tick. rewrite E.
  replace (read_count s (pCount M2_init)) with 0 by (symmetry; exact C).
  exact rest_tick2.
Qed.

Lemma at_rest_init : at_rest Sys_init.
Proof. unfold at_rest. repeat split. Qed.

(** X15: Without a motion command and with the wheels still the controller
    never energises the motors: after any number of passes of [loop()]
    that bring only stop requests, telemetry or page requests, incomplete
    /cmd requests, blank lines or rejected lines, both motor records are
    as initialised and all direction pins and both PWM duties are 0. *)
Theorem idle_controller_stays_at_rest (evs : list Event) :
  forallb quiet evs = true ->
  exists s, run evs Sys_init = Some s /\
    M1 s = M1_init /\ M2 s = M2_init /\
    drive1 s = mkDrive false false 0 /\ drive2 s = mkDrive false false 0.
Proof.
  intros Q.
  destruct (run_invariant_guarded quiet at_rest) with (evs := evs)
    as (s & E & _ & H1 & H2 & _ & _ & D1 & D2); [| |exact Q|].
  - exact at_rest_init.
  - intros ev s s' o Hq _ H E.
    destruct ev as [a b|a b|a b|a b|now req line]; try discriminate Hq.
    cbn [step] in E.
    apply loop_cases in E. cbv zeta in E.
    pose proof (quiet_handlers now req line s Hq H) as (E1 & E2 & C1 & C2 & D1 & D2).
    destruct E as [[_ ->] | (_ & m1' & d1 & m2' & d2 & T1 & T2 & ->)].
    + repeat split; assumption.
    + rewrite (rest_channel_tick1 _ E1 C1) in T1.
      rewrite (rest_channel_tick2 _ E2 C2) in T2.
      injection T1 as <- <-. injection T2 as <- <-.
      unfold at_rest. cbn [M1 M2 encCount1 encCount2 drive1 drive2].
      repeat split; assumption.
  - exists s. repeat split; assumption.
Qed.

Lemma idle_controller_stays_at_rest_witness :
  exists s, run quiet_passes Sys_init = Some s /\
    M1 s = M1_init /\ M2 s = M2_init /\
    drive1 s = mkDrive false false 0 /\ drive2 s = mkDrive false false 0.
Proof. apply (idle_controller_stays_at_rest quiet_passes). reflexivity. Defined.

(** ** Targets set over HTTP *)

Lemma channel_tick_target s m m' d :
  channel_tick s m = Some (m', d) -> target m' = target m.
Proof.
  unfold channel_tick. intros E.
  destruct (applyMotor_frame _ _ _ E) as (_ & _ & _ & _ & _ & _ & Et & _).
  exact Et.
Qed.

Lemma within_clamp_set s l r :
  - CMD_CLAMP <= l <= CMD_CLAMP -> - CMD_CLAMP <= r <= CMD_CLAMP ->
  target_within_clamp (M1 (set_targets s (F32.of_int l) (F32.of_int r))) /\
  target_within_clamp (M2 (set_targets s (F32.of_int l) (F32.of_int r))).
Proof.
  intros Hl Hr. split; [exists l | exists r]; split; auto.
Qed.

Lemma handleClient_within req s :
  target_within_clamp (M1 s) /\ target_within_clamp (M2 s) ->
  target_within_clamp (M1 (fst (handleClient req s))) /\
  target_within_clamp (M2 (fst (handleClient req s))).
Proof.
  intros H. unfold handleClient. destruct req as [rq|]; [|exact H].
  destruct (String.eqb (uri rq) "/"); [exact H|].
  destruct (String.eqb (uri rq) "/cmd").
  - unfold handleCmd.
    destruct (negb (hasArg rq "l") || negb (hasArg rq "r")); [exact H|].
    cbn [fst]. apply within_clamp_set; apply constrain_bounds; unfold CMD_CLAMP; lia.
  - destruct (String.eqb (uri rq) "/stop").
    + cbn [handleStop fst]. apply within_clamp_set; unfold CMD_CLAMP; lia.
    + destruct (String.eqb (uri rq) "/telemetry"); exact H.
Qed.

(** X16: As long as no serial line arrives, the targets stay within the
    safety bound: after any execution made of encoder interrupts and passes
    of [loop()] that bring HTTP requests only, whatever their paths and
    arguments, each target is an integer between -CMD_CLAMP and CMD_CLAMP. *)
Theorem http_targets_stay_within_clamp (evs : list Event) :
  forallb no_serial_line evs = true ->
  exists s, run evs Sys_init = Some s /\
    target_within_clamp (M1 s) /\ target_within_clamp (M2 s).
Proof.
  intros Q.
  destruct (run_invariant_guarded no_serial_line
              (fun s => target_within_clamp (M1 s) /\ target_within_clamp (M2 s)))
    with (evs := evs) as (s & E & _ & H); [| |exact Q|].
  - split; exists 0; (split; [reflexivity | unfold CMD_CLAMP; lia]).
  - intros ev s s' o Hq _ H E.
    destruct ev as [a b|a b|a b|a b|now req line]; cbn [step] in E.
    1-4: injection E as <- _; exact H.
    destruct line as [l|]; [discriminate Hq|].
    apply loop_cases in E. cbv zeta in E. cbn [handleSerial fst] in E.
    pose proof (handleClient_within req s H) as [H1 H2].
    destruct E as [[_ ->] | (_ & m1' & d1 & m2' & d2 & T1 & T2 & ->)];
      [split; assumption|].
    cbn [M1 M2]. unfold target_within_clamp.
    rewrite (channel_tick_target _ _ _ _ T1), (channel_tick_target _ _ _ _ T2).
    split; assumption.
  - exists s. split; [exact E | exact H].
Qed.

Lemma http_targets_stay_within_clamp_witness :
  exists s, run turn_then_command Sys_init = Some s /\
    target_within_clamp (M1 s) /\ target_within_clamp (M2 s).
Proof. apply (http_targets_stay_within_clamp turn_then_command). reflexivity. Defined.

(** ** The tick reference across the wrap-around of the clock *)

Lemma wrap32u_elapsed ref d :
  0 <= d < 2 ^ 32 -> wrap32u (wrap32u (ref + d) - ref) = d.
Proof.
  intros H. unfold wrap32u.
  rewrite Zminus_mod_idemp_l.
  replace (ref + d - ref) with d by lia. apply Z.mod_small, H.
Qed.

(** X17: The pacing of the ticks is immune to the wrap-around of the
    millisecond clock: in every execution whose clock readings are 32-bit
    values the tick reference is one, and a pass of [loop()] made d
    milliseconds after the reference, d below 2^32 and the reading taken
    modulo 2^32, is defined and ticks exactly when d >= SAMPLE_MS, the
    reference then becoming the reading. *)
Theorem tick_pacing_survives_clock_rollover (evs : list Event) :
  forallb well_timed evs = true ->
  exists s, run evs Sys_init = Some s /\ 0 <= lastMs s < 2 ^ 32 /\
    forall d req line, 0 <= d < 2 ^ 32 ->
      exists s' o,
        loop (wrap32u (lastMs s + d)) req line s = Some (s', o) /\
        lastMs s' = (if SAMPLE_MS <=? d then wrap32u (lastMs s + d) else lastMs s).
Proof.
  intros Q.
  destruct (run_invariant_guarded well_timed (fun s => 0 <= lastMs s < 2 ^ 32))
    with (evs := evs) as (s & E & Hs & H); [| |exact Q|].
  - cbn. lia.
  - intros ev s s' o Hq _ H E.
    destruct ev as [a b|a b|a b|a b|now req line]; cbn [step] in E.
    1-4: injection E as <- _; exact H.
    cbn [well_timed] in Hq. apply andb_prop in Hq as [Q1 Q2].
    apply Z.leb_le in Q1. apply Z.ltb_lt in Q2.
    apply loop_cases in E. cbv zeta in E.
    pose proof (handlers_targets req line s) as (_ & _ & _ & _ & L & _).
    destruct E as [[_ ->] | (_ & m1' & d1 & m2' & d2 & _ & _ & ->)].
    + rewrite L. exact H.
    + cbn [lastMs]. lia.
  - exists s. split; [exact E|]. split; [exact H|].
    intros d req line Hd.
    destruct (loop_ok (wrap32u (lastMs s + d)) req line s Hs) as (s' & o & El & _).
    exists s', o. split; [exact El|].
    apply loop_cases in El. cbv zeta in El.
    pose proof (handlers_targets req line s) as (_ & _ & _ & _ & L & _).
    rewrite L, wrap32u_elapsed in El by exact Hd.
    destruct El as [[Hlt ->] | (Hge & m1' & d1 & m2' & d2 & _ & _ & ->)].
    + rewrite L. destruct (Z.leb_spec SAMPLE_MS d); [lia | reflexivity].
    + cbn [lastMs]. destruct (Z.leb_spec SAMPLE_MS d); [reflexivity | lia].
Qed.

Lemma tick_pacing_survives_clock_rollover_witness :
  exists s, run pass_before_rollover Sys_init = Some s /\ 0 <= lastMs s < 2 ^ 32 /\
    forall d req line, 0 <= d < 2 ^ 32 ->
      exists s' o,
        loop (wrap32u (lastMs s + d)) req line s = Some (s', o) /\
        lastMs s' = (if SAMPLE_MS <=? d then wrap32u (lastMs s + d) else lastMs s).
Proof.
  apply (tick_pacing_survives_clock_rollover pass_before_rollover). reflexivity.
Defined.

(** ** Settled states *)

Lemma same_but_target_settled m m' d :
  same_but_target m m' -> settled m d -> settled m' d.
Proof.
  unfold same_but_target, settled. rewrite !applyMotor_duty.
  destruct m as [a1 b1 e1 c1 p1 l1 t1 s1 er1 ep1 i1 dv1 u1 dt1 dr1].
  destruct m' as [a2 b2 e2 c2 p2 l2 t2 s2 er2 ep2 i2 dv2 u2 dt2 dr2].
  cbn [inA inB en ledc_ch pCount lastCount target speed err errPrev integ
       deriv u duty dir].
  intros H. repeat match goal with H : _ /\ _ |- _ => destruct H end. subst.
  intros [E Ep]. split; [|exact Ep].
  destruct (duty_of_mag (F32.fabsf u1)) as [dt|]; [|discriminate].
  cbv zeta in *. injection E as E1 E2 E3. subst dt1 dr1 d. reflexivity.
Qed.

Lemma channel_tick_settled s m m' d :
  channel_tick s m = Some (m', d) -> settled m' d.
Proof.
  unfold channel_tick. intros E. split.
  - revert E. generalize (pid_update (updateSpeed (read_count s (pCount m)) m)).
    intros x. rewrite !applyMotor_duty.
    destruct (duty_of_mag (F32.fabsf (u x))) as [dt|] eqn:K; [|discriminate].
    cbv zeta. intros E. injection E as <- <-. cbn [u]. rewrite K. reflexivity.
  - destruct (applyMotor_frame _ _ _ E)
      as (_ & _ & _ & _ & _ & _ & _ & _ & Ee & Ep & _).
    rewrite Ee, Ep. reflexivity.
Qed.

(** X18: Every reachable state is settled: running the Actuation Mapper
    again on either channel would change nothing, that is, the duty, the
    direction and the pin levels are always those of the current effort,
    and the previous error recorded for the derivative term is the error of
    the last tick. *)
Theorem reachable_states_are_settled (evs : list Event) :
  exists s, run evs Sys_init = Some s /\
    (applyMotor (M1 s) = Some (M1 s, drive1 s) /\ errPrev (M1 s) = err (M1 s)) /\
    (applyMotor (M2 s) = Some (M2 s, drive2 s) /\ errPrev (M2 s) = err (M2 s)).
Proof.
  destruct (run_invariant_guarded (fun _ => true)
              (fun s => settled (M1 s) (drive1 s) /\ settled (M2 s) (drive2 s)))
    with (evs := evs) as (s & E & _ & H1 & H2).
  - split; split; reflexivity.
  - intros ev s s' o _ _ [H1 H2] E.
    destruct ev as [a b|a b|a b|a b|now req line]; cbn [step] in E.
    1-4: injection E as <- _; split; assumption.
    apply loop_cases in E. cbv zeta in E.
    pose proof (handlers_targets req line s) as (T1 & T2 & _ & _ & _ & D1 & D2).
    destruct E as [[_ ->] | (_ & m1' & d1 & m2' & d2 & E1 & E2 & ->)].
    + rewrite D1, D2.
      split; [apply (same_but_target_settled (M1 s)) | apply (same_but_target_settled (M2 s))];
        assumption.
    + cbn [M1 M2 drive1 drive2].
      split; [exact (channel_tick_settled _ _ _ _ E1) | exact (channel_tick_settled _ _ _ _ E2)].
  - apply forallb_true.
  - exists s. split; [exact E|]. split; assumption.
Qed.

(** * Finiteness of the controller state *)

Lemma mag_le_finite x k : k <= 127 -> mag_le x k -> F32.is_finite x = true.
Proof.
  intros Hk H. destruct x as [s|s| |s m e]; try reflexivity.
  - exfalso. exact (mag_le_not_inf s k Hk H).
  - destruct H as [H _]. discriminate H.
Qed.

(** The magnitudes of what the PID computation writes. *)
Lemma pid_update_mags m :
  motor_ok m -> mag_le (speed m) 36 -> motor_mags (pid_update m).
Proof.
  intros (Hd & Hi & Hr & Ht & He & Hu) Hs.
  pose proof (pid_update_ok m (conj Hd (conj Hi (conj Hr (conj Ht (conj He Hu))))) Hs)
    as (_ & HIn & HIr & _ & _ & _).
  destruct Kp_unit as [Hp1 Hp2], Kd_unit as [Hd1 Hd2].
  set (e := F32.sub (target m) (speed m)).
  assert (Hme : mag_le e 37).
  { apply (sub_mag _ _ 36); try lia; [|exact Hs].
    apply mag_le_weaken with 31; auto; lia. }
  assert (HP : mag_le (F32.mul Kp e) 37) by (apply mul_mag; auto; lia).
  assert (HPI : mag_le (F32.add (F32.mul Kp e) (integ (pid_update m))) 38).
  { apply (add_mag _ _ 37); try lia; [exact HP|].
    apply mag_le_weaken with 9; try lia. apply in_range_mag; auto. }
  assert (HD : mag_le (F32.mul Kd (F32.sub e (errPrev m))) 38).
  { apply mul_mag; auto; try lia. apply (sub_mag _ _ 37); auto; lia. }
  assert (HU : mag_le (F32.add (F32.add (F32.mul Kp e) (integ (pid_update m)))
                         (F32.mul Kd (F32.sub e (errPrev m)))) 39).
  { apply (add_mag _ _ 38); auto; lia. }
  unfold motor_mags. repeat split; try apply Hs; try apply Hme; try apply HD; apply HU.
Qed.

Lemma channel_tick_mags s m m' d :
  motor_ok m -> channel_tick s m = Some (m', d) -> motor_mags m'.
Proof.
  intros H E. unfold channel_tick in E.
  destruct (updateSpeed_ok (read_count s (pCount m)) m H) as [H1 H2].
  pose proof (pid_update_mags _ H1 H2) as K.
  destruct (applyMotor_frame _ _ _ E)
    as (_ & _ & _ & _ & _ & _ & _ & Es & Ee & _ & _ & Ed & Eu).
  unfold motor_mags. rewrite Es, Ee, Ed, Eu. exact K.
Qed.

Lemma same_but_target_mags m m' :
  same_but_target m m' -> motor_mags m -> motor_mags m'.
Proof.
  intros (_ & _ & _ & _ & _ & _ & Es & Ee & _ & _ & Ed & Eu & _) K.
  unfold motor_mags. rewrite Es, Ee, Ed, Eu. exact K.
Qed.

Lemma motor_finite_of m : motor_ok m -> motor_mags m -> motor_finite m.
Proof.
  intros (_ & Hi & Hr & Ht & He & _) (Hs & Hee & Hd & Hu).
  unfold motor_finite. repeat split;
    try (eapply mag_le_finite; [|eassumption]; lia).
  apply (mag_le_finite _ 9); [lia|]. apply in_range_mag; assumption.
Qed.

(** X19: In every reachable state every float of both motor records is
    finite: no target, speed, error, integral, derivative term or effort is
    ever a NaN or an infinity, whatever commands arrive and whatever the
    encoders count; the four values of a /telemetry reply are therefore
    always finite numbers. *)
Theorem floats_stay_finite (evs : list Event) :
  exists s, run evs Sys_init = Some s /\
    motor_finite (M1 s) /\ motor_finite (M2 s) /\
    forall rq, uri rq = "/telemetry"%string ->
      exists a b c d,
        handleClient (Some rq) s =
          (s, [HttpSend 200 "application/json" (TelemetryJson a b c d)]) /\
        F32.is_finite a = true /\ F32.is_finite b = true /\
        F32.is_finite c = true /\ F32.is_finite d = true.
Proof.
  destruct (run_invariant_guarded (fun _ => true)
              (fun s => motor_mags (M1 s) /\ motor_mags (M2 s)))
    with (evs := evs) as (s & E & [K1 K2] & H1 & H2).
  - split; repeat split; try reflexivity; apply Z.lt_le_incl, pow2_pos; lia.
  - intros ev s s' o _ Hs [H1 H2] E.
    destruct ev as [a b|a b|a b|a b|now req line]; cbn [step] in E.
    1-4: injection E as <- _; split; assumption.
    apply loop_cases in E. cbv zeta in E.
    pose proof (handlers_targets req line s) as (T1 & T2 & _).
    pose proof (handleSerial_ok line _ (handleClient_ok req s Hs)) as [K1 K2].
    destruct E as [[_ ->] | (_ & m1' & d1 & m2' & d2 & E1 & E2 & ->)].
    + split; [apply (same_but_target_mags (M1 s)) | apply (same_but_target_mags (M2 s))];
        assumption.
    + cbn [M1 M2].
      split; [exact (channel_tick_mags _ _ _ _ K1 E1) | exact (channel_tick_mags _ _ _ _ K2 E2)].
  - apply forallb_true.
  - pose proof (motor_finite_of _ K1 H1) as F1.
    pose proof (motor_finite_of _ K2 H2) as F2.
    exists s. split; [exact E|]. split; [exact F1|]. split; [exact F2|].
    intros rq Hu. unfold handleClient. rewrite Hu. cbn [String.eqb Ascii.eqb Bool.eqb].
    eexists _, _, _, _. split; [reflexivity|].
    repeat split; first [apply F1 | apply F2].
Qed.

(** * Hardware configuration and the writes of the Actuation Mapper *)

Lemma same_but_target_wiring m m' : same_but_target m m' -> wiring m' = wiring m.
Proof.
  intros (E1 & E2 & E3 & E4 & E5 & _). unfold wiring. congruence.
Qed.

Lemma channel_tick_wiring s m m' d :
  channel_tick s m = Some (m', d) -> wiring m' = wiring m.
Proof.
  unfold channel_tick. intros E.
  destruct (applyMotor_frame _ _ _ E) as (E1 & E2 & E3 & E4 & E5 & _).
  unfold wiring. rewrite E1, E2, E3, E4, E5. reflexivity.
Qed.

(** No step rewires a motor. *)
Lemma step_keeps_wiring ev s s' o :
  step ev s = Some (s', o) ->
  wiring (M1 s') = wiring (M1 s) /\ wiring (M2 s') = wiring (M2 s).
Proof.
  intros E.
  destruct ev as [a b|a b|a b|a b|now req line]; cbn [step] in E.
  1-4: injection E as <- _; split; reflexivity.
  apply loop_cases in E. cbv zeta in E.
  pose proof (handlers_targets req line s) as (T1 & T2 & _).
  apply same_but_target_wiring in T1, T2.
  destruct E as [[_ ->] | (_ & m1' & d1 & m2' & d2 & E1 & E2 & ->)].
  - split; assumption.
  - cbn [M1 M2]. rewrite (channel_tick_wiring _ _ _ _ E1), (channel_tick_wiring _ _ _ _ E2).
    split; assumption.
Qed.

(** The writes of one channel are prepared when its wiring is the initial
    one and its pins agree with its state. *)
Lemma motor_writes_prepared core3 m0 m d :
  (m0 = M1_init \/ m0 = M2_init) ->
  wiring m = wiring m0 -> channel_out_ok m d ->
  forallb (write_prepared (setupPins core3 Sys_init) m) (motor_writes core3 m d) = true.
Proof.
  intros H0 W Hok.
  destruct (channel_out_facts _ _ Hok) as (Ep & _). destruct Hok as [_ Hd].
  assert (Hr : 0 <= pwm d < 1024).
  { rewrite Ep. unfold MIN_DUTY_START in Hd. change PWM_MAX with 1023 in Hd. lia. }
  unfold wiring in W. injection W as Wa Wb We Wc _.
  unfold motor_writes, writeLEDC, write_prepared. rewrite Wa, Wb, We, Wc.
  destruct Hr as [Hr1 Hr2]. apply Z.leb_le in Hr1. apply Z.ltb_lt in Hr2.
  destruct H0 as [-> | ->], core3; cbn; rewrite Hr1, Hr2; reflexivity.
Qed.

(** X20: The hardware calls of [setup()] prepare every write the
    Actuation Mapper ever makes, under both LEDC APIs: [setup()] leaves the
    initial state; in every reachable state each motor still has the pins,
    the channel and the counter of the pin map (IN1, IN2, ENA, channel A and
    counter 1 for the left motor, IN3, IN4, ENB, channel B and counter 2 for
    the right one); the direction pins it writes were declared outputs; and
    its PWM write, addressed to its enable pin (new API) or to its channel
    (legacy API), reaches the enable pin of that very motor and no other
    pin, with a duty that fits the resolution of PWM_BITS bits set up for
    it. *)
Theorem setup_prepares_every_write (core3 : bool) (evs : list Event) :
  fst (setup core3 Sys_init) = Sys_init /\
  exists s, run evs Sys_init = Some s /\
    wiring (M1 s) = (IN1, IN2, ENA, LEDC_CH_A, EncCount1) /\
    wiring (M2 s) = (IN3, IN4, ENB, LEDC_CH_B, EncCount2) /\
    forallb (write_prepared (snd (setup core3 Sys_init)) (M1 s))
            (motor_writes core3 (M1 s) (drive1 s)) = true /\
    forallb (write_prepared (snd (setup core3 Sys_init)) (M2 s))
            (motor_writes core3 (M2 s) (drive2 s)) = true /\
    ledc_reach (snd (setup core3 Sys_init))
               (if core3 then en (M1 s) else ledc_ch (M1 s)) = Some ([ENA], PWM_BITS) /\
    ledc_reach (snd (setup core3 Sys_init))
               (if core3 then en (M2 s) else ledc_ch (M2 s)) = Some ([ENB], PWM_BITS).
Proof.
  split; [reflexivity|].
  destruct (run_invariant_guarded (fun _ => true)
              (fun s => (wiring (M1 s) = wiring M1_init /\
                         wiring (M2 s) = wiring M2_init) /\
                        channel_out_ok (M1 s) (drive1 s) /\
                        channel_out_ok (M2 s) (drive2 s)))
    with (evs := evs) as (s & E & _ & [W1 W2] & H1 & H2).
  - split; [split; reflexivity | exact outputs_init].
  - intros ev s s' o _ Hs [[W1 W2] Ho] E. split.
    + destruct (step_keeps_wiring _ _ _ _ E) as [-> ->]. split; assumption.
    + exact (step_keeps_outputs _ _ _ _ Hs Ho E).
  - apply forallb_true.
  - exists s. split; [exact E|]. cbn [setup snd].
    split; [exact W1|]. split; [exact W2|].
    split; [apply (motor_writes_prepared core3 M1_init); auto|].
    split; [apply (motor_writes_prepared core3 M2_init); auto|].
    unfold wiring in W1, W2. injection W1 as _ _ We1 Wc1 _. injection W2 as _ _ We2 Wc2 _.
    rewrite We1, Wc1, We2, Wc2. destruct core3; split; reflexivity.
Qed.
